(** * RecipeStore: the work queue of the recipe crawler (datastore.py)

    A shallow embedding of [RecipeStore.enqueue], [RecipeStore.dequeue] and
    [RecipeStore.dequeue_finish] over an explicit model of the two MongoDB
    collections they use ([queue] and [action], with the unique indices
    that [_ensure_existence] creates), of the module-level [mutex], of the
    wall clock read by [dt.now()] and of the injected logger.

    Operations are written in a small state-and-exception monad.  Every
    round trip to the store is a point where other clients of the same
    store may act; what they do there is taken from a schedule carried by
    the world, so that the sequential behaviour is the behaviour under the
    empty schedule.  The other clients are producers, threads that call
    [enqueue], and time may pass at any round trip.  The lock is either
    free when a call starts or held by another thread, which then keeps it
    for the length of the call.  Other consumers, threads that call
    [dequeue] and release the lock while our call waits for it, come in
    with [dequeue_among], a second embedding of [dequeue] that is
    [dequeue] when there are none.  Dates are microseconds, as [dt.now()]
    gives them; the store keeps them to the millisecond, and [ms] gives
    the millisecond of a date for the statements that need two dates to
    be different keys of a unique index. *)

From Stdlib Require Import List Sorted ZArith NArith Bool String Lia Arith.
Import ListNotations.

Local Open Scope Z_scope.
Local Open Scope list_scope.

(** ** Documents *)

(** Identifiers are the uri strings ([str(recipe_uri)]); parsing them back
    into a [Url] is an external collaborator and is the identity here. *)
Definition Url := string.

(** [datetime] values, in microseconds. *)
Definition Time := Z.

(** [td(seconds=1)] *)
Definition second : Z := 1000000.

(** The store keeps a [datetime] to the millisecond: a BSON date counts
    milliseconds, and the driver drops the microseconds of [dt.now()]
    when it writes a document.  [ms t] is the millisecond in which [t]
    falls; two dates of one millisecond are one key to a unique index of
    the store.  A statement that needs an index to admit a write asks
    for dates of different milliseconds, which is enough for the store
    and for the dates as they are kept here. *)
Definition ms (t : Time) : Z := t / 1000.

(** The ["state"] field of a queue document: ["wait"] or ["scrape"]. *)
Inductive State := Wait | Scrape.

(** The ["act"] field of an action document: ["enqueue"], ["scrape"],
    ["finish"]. *)
Inductive Act := ActEnqueue | ActScrape | ActFinish.

Definition state_eqb (a b : State) : bool :=
  match a, b with
  | Wait, Wait | Scrape, Scrape => true
  | _, _ => false
  end.

Definition act_eqb (a b : Act) : bool :=
  match a, b with
  | ActEnqueue, ActEnqueue | ActScrape, ActScrape | ActFinish, ActFinish => true
  | _, _ => false
  end.

(** Order of the act strings: "enqueue" < "finish" < "scrape". *)
Definition act_rank (a : Act) : Z :=
  match a with
  | ActEnqueue => 0
  | ActFinish => 1
  | ActScrape => 2
  end.

Module QueueDoc.
Record t := mk { uri : Url; ts : Time; state : State }.

Definition with_state (s : State) (d : t) : t :=
  mk (uri d) (ts d) s.
End QueueDoc.

Module ActionDoc.
Record t := mk { uri : Url; ts : Time; act : Act }.

Definition eqb (a b : t) : bool :=
  String.eqb (uri a) (uri b) && Z.eqb (ts a) (ts b) && act_eqb (act a) (act b).
End ActionDoc.

(** ** The [queue] collection

    Documents are kept in insertion order.  The collection carries the two
    unique indices of [_ensure_existence]: [idx_uri] on [uri] and [idx_ts]
    on [(state, ts)].  A write that would break one of them is refused
    (pymongo raises [DuplicateKeyError]): the functions below answer
    [None]. *)
Module Queue.
Import QueueDoc.

Definition same_uri (u : Url) (d : t) : bool := String.eqb (uri d) u.

Definition same_state_ts (s : State) (x : Time) (d : t) : bool :=
  state_eqb (state d) s && Z.eqb (ts d) x.

(** [find({"uri": u})] *)
Definition find_uri (u : Url) (coll : list t) : list t :=
  filter (same_uri u) coll.

(** [find({"state": s})] *)
Definition find_state (s : State) (coll : list t) : list t :=
  filter (fun d => state_eqb (state d) s) coll.

(** [.sort("ts", pymongo.ASCENDING)]: a stable insertion sort. *)
Fixpoint insert_ts (d : t) (l : list t) : list t :=
  match l with
  | [] => [d]
  | x :: l' => if ts d <? ts x then d :: l else x :: insert_ts d l'
  end.

Fixpoint sort_ts (l : list t) : list t :=
  match l with
  | [] => []
  | d :: l' => insert_ts d (sort_ts l')
  end.

(** [insert_one(d)] *)
Definition insert_one (d : t) (coll : list t) : option (list t) :=
  if existsb (same_uri (uri d)) coll then None
  else if existsb (same_state_ts (state d) (ts d)) coll then None
  else Some (coll ++ [d]).

Fixpoint set_first (u : Url) (s : State) (coll : list t) : list t :=
  match coll with
  | [] => []
  | d :: rest =>
      if same_uri u d then with_state s d :: rest
      else d :: set_first u s rest
  end.

(** [update_one({"uri": u}, {"$set": {"state": s}})] *)
Definition update_one (u : Url) (s : State) (coll : list t)
  : option (list t) :=
  match find (same_uri u) coll with
  | None => Some coll
  | Some d =>
      if state_eqb (state d) s then Some coll
      else if existsb (same_state_ts s (ts d)) coll then None
      else Some (set_first u s coll)
  end.

(** [delete_one({"uri": u})] *)
Fixpoint delete_one (u : Url) (coll : list t) : list t :=
  match coll with
  | [] => []
  | d :: rest => if same_uri u d then rest else d :: delete_one u rest
  end.
End Queue.

(** ** The [action] collection

    Append-only in this program: the source calls nothing but [insert_one]
    on it.  Its two unique indices, [idx_uri_ts] on [(uri, ts, act)] and
    [idx_ts] on [(ts, uri, act)], refuse a second copy of a document. *)
Module Action.
Import ActionDoc.

(** [insert_one(r)] *)
Definition insert_one (r : t) (coll : list t) : option (list t) :=
  if existsb (eqb r) coll then None else Some (coll ++ [r]).

Definition before (a b : t) : bool :=
  (ts a <? ts b) || ((ts a =? ts b) && (act_rank (act a) <? act_rank (act b))).

Fixpoint insert_chrono (r : t) (l : list t) : list t :=
  match l with
  | [] => [r]
  | x :: l' => if before r x then r :: l else x :: insert_chrono r l'
  end.

Fixpoint sort_chrono (l : list t) : list t :=
  match l with
  | [] => []
  | r :: l' => insert_chrono r (sort_chrono l')
  end.
End Action.

(** ** The world *)

(** What happens to the shared resources while an operation runs is
    recorded as a trace: the outcome of each [mutex.acquire], each search
    for the oldest waiting entry and whether it found one, the state flip
    with the wall-clock time at which it was written, each
    [mutex.release()], and the recount of waiting entries after a miss. *)
Inductive Event :=
| EvAcquire (got : bool)
| EvFind (found : bool)
| EvFlip (u : Url) (at_time : Time)
| EvRelease
| EvRecount (queue_size : nat).

(** What happens at a round trip of ours besides the round trip itself:
    time passes ([d] microseconds), or a producer thread runs its own
    [enqueue(u)] to completion. *)
Inductive Interference :=
| Elapse (d : N)
| Produce (u : Url).

Inductive Logger := LoggerHandle (name : string).

#[projections(primitive)] Record World := mkWorld {
  queue : list QueueDoc.t;          (* self._queue *)
  action : list ActionDoc.t;        (* self._action *)
  mutex : bool;                     (* the module-level Lock: locked? *)
  clock : Time;                     (* what dt.now() reads *)
  _logger : option Logger;          (* self._logger *)
  schedule : list Interference;
  trace : list Event
}.

Definition set_queue (q : list QueueDoc.t) (w : World) : World :=
  mkWorld q (action w) (mutex w) (clock w) (_logger w) (schedule w) (trace w).
Definition set_action (a : list ActionDoc.t) (w : World) : World :=
  mkWorld (queue w) a (mutex w) (clock w) (_logger w) (schedule w) (trace w).
Definition set_mutex (m : bool) (w : World) : World :=
  mkWorld (queue w) (action w) m (clock w) (_logger w) (schedule w) (trace w).
Definition set_clock (c : Time) (w : World) : World :=
  mkWorld (queue w) (action w) (mutex w) c (_logger w) (schedule w) (trace w).
Definition set_schedule (s : list Interference) (w : World) : World :=
  mkWorld (queue w) (action w) (mutex w) (clock w) (_logger w) s (trace w).
Definition emit (e : Event) (w : World) : World :=
  mkWorld (queue w) (action w) (mutex w) (clock w) (_logger w) (schedule w)
          (trace w ++ [e]).

(** [setLogger] *)
Definition setLogger (logger : Logger) (w : World) : World :=
  mkWorld (queue w) (action w) (mutex w) (clock w) (Some logger) (schedule w)
          (trace w).

(** Time passing between two calls. *)
Definition elapse (d : Z) (w : World) : World := set_clock (clock w + d) w.

(** ** The monad: state and Python exceptions *)

Inductive Exc :=
| EmptyQueueException
| DuplicateKeyError
| AttributeError
| RuntimeError.

Inductive Outcome (A : Type) :=
| Return (a : A)
| Raise (e : Exc).
Arguments Return {A} a.
Arguments Raise {A} e.

Definition M (A : Type) := World -> Outcome A * World.

Definition ret {A} (a : A) : M A := fun w => (Return a, w).
Definition raise {A} (e : Exc) : M A := fun w => (Raise e, w).
Definition bind {A B} (c : M A) (k : A -> M B) : M B :=
  fun w => match c w with
           | (Return a, w') => k a w'
           | (Raise e, w') => (Raise e, w')
           end.

Notation "x <- c ;; k" := (bind c (fun x => k))
  (at level 61, c at next level, right associativity).
Notation "c ;; k" := (bind c (fun _ => k))
  (at level 61, right associativity).

(** ** Other clients *)

(** The writes of another thread's [enqueue(u)], all at once. *)
Definition produce (u : Url) (w : World) : World :=
  if (0 <? List.length (Queue.find_uri u (queue w)))%nat then w
  else
    match Queue.insert_one (QueueDoc.mk u (clock w) Wait) (queue w) with
    | None => w
    | Some q =>
        match Action.insert_one (ActionDoc.mk u (clock w) ActEnqueue)
                                (action w) with
        | None => set_queue q w
        | Some a => set_action a (set_queue q w)
        end
    end.

Definition interfere (i : Interference) (w : World) : World :=
  match i with
  | Elapse d => set_clock (clock w + Z.of_N d) w
  | Produce u => produce u w
  end.

(** A round trip to the store: whatever the schedule holds next happens
    first. *)
Definition round_trip : M unit :=
  fun w => match schedule w with
           | [] => (Return tt, w)
           | i :: rest => (Return tt, interfere i (set_schedule rest w))
           end.

(** ** Primitives *)

(** [dt.now()] *)
Definition dt_now : M Time := fun w => (Return (clock w), w).

(** [mutex.acquire(blocking=True, timeout=...)]: a free lock is taken at
    once; on a locked one the caller blocks for the whole timeout and gets
    [False]. *)
Definition mutex_acquire (timeout : Z) : M bool :=
  fun w =>
    let got := negb (mutex w) in
    let waited := if got then 0 else timeout * second in
    (Return got,
     emit (EvAcquire got) (set_mutex true (set_clock (clock w + waited) w))).

(** [mutex.release()]: releasing an unlocked lock is a [RuntimeError]. *)
Definition mutex_release : M unit :=
  fun w =>
    if mutex w
    then (Return tt, emit EvRelease (set_mutex false w))
    else (Raise RuntimeError, w).

(** [self._queue.find({"uri": u}).count()] *)
Definition queue_count_uri (u : Url) : M nat :=
  round_trip ;;
  fun w => (Return (List.length (Queue.find_uri u (queue w))), w).

(** [self._queue.find({"state": "wait"}).count()] *)
Definition queue_count_wait : M nat :=
  round_trip ;;
  fun w => (Return (List.length (Queue.find_state Wait (queue w))), w).

(** [self._queue.find({"state": "wait"}).sort("ts", pymongo.ASCENDING).limit(1)]:
    the cursor, read in one round trip; [entries.count() == 0] is whether
    it is empty and [entries[0]] its head. *)
Definition queue_find_oldest_wait : M (list QueueDoc.t) :=
  round_trip ;;
  fun w =>
    let entries := firstn 1 (Queue.sort_ts (Queue.find_state Wait (queue w))) in
    (Return entries,
     emit (EvFind (match entries with [] => false | _ => true end)) w).

(** [self._queue.insert_one(d)] *)
Definition queue_insert_one (d : QueueDoc.t) : M unit :=
  round_trip ;;
  fun w => match Queue.insert_one d (queue w) with
           | Some q => (Return tt, set_queue q w)
           | None => (Raise DuplicateKeyError, w)
           end.

(** [self._queue.update_one({"uri": u}, {"$set": {"state": "scrape"}})] *)
Definition queue_update_one (u : Url) (s : State) : M unit :=
  round_trip ;;
  fun w => match Queue.update_one u s (queue w) with
           | Some q => (Return tt, emit (EvFlip u (clock w)) (set_queue q w))
           | None => (Raise DuplicateKeyError, w)
           end.

(** [self._queue.delete_one({"uri": u})] *)
Definition queue_delete_one (u : Url) : M unit :=
  round_trip ;;
  fun w => (Return tt, set_queue (Queue.delete_one u (queue w)) w).

(** [self._queue.aggregate([{"$group": {"_id": "$state", "count": {"$sum": 1}}}])] *)
Definition queue_aggregate_states : M (list (State * nat)) :=
  round_trip ;;
  fun w =>
    (Return [(Wait, List.length (Queue.find_state Wait (queue w)));
             (Scrape, List.length (Queue.find_state Scrape (queue w)))], w).

(** [self._action.insert_one(r)] *)
Definition action_insert_one (r : ActionDoc.t) : M unit :=
  round_trip ;;
  fun w => match Action.insert_one r (action w) with
           | Some a => (Return tt, set_action a w)
           | None => (Raise DuplicateKeyError, w)
           end.

(** [self._logger.debug(...)]: [self._logger] is [None] until [setLogger]
    is called, and [None] has no [debug]. *)
Definition self_logger_debug : M unit :=
  fun w => match _logger w with
           | Some _ => (Return tt, w)
           | None => (Raise AttributeError, w)
           end.

(** [logger.info(...)] on the module-level logger. *)
Definition logger_info : M unit := ret tt.

(** [parse_url] *)
Definition parse_url (u : string) : Url := u.

(** ** The operations of [RecipeStore] *)

Definition is_enqueued (recipe_uri : Url) : M bool :=
  n <- queue_count_uri recipe_uri ;;
  ret (0 <? n)%nat.

(** The Python result is [False] on the early return and [None] when the
    body runs to its end. *)
Definition enqueue (recipe_uri : Url) : M (option bool) :=
  present <- is_enqueued recipe_uri ;;
  if present then ret (Some false)
  else
    now <- dt_now ;;
    queue_insert_one (QueueDoc.mk recipe_uri now Wait) ;;
    action_insert_one (ActionDoc.mk recipe_uri now ActEnqueue) ;;
    ret None.

(** The [while entry is None and tries_left > 0] loop; it hands back
    [entry] and [now]. *)
Fixpoint dequeue_poll (tries_left : nat) (now : Time)
  : M (option QueueDoc.t * Time) :=
  match tries_left with
  | O => ret (None, now)
  | S tries_left' =>
      mutex_acquire 3 ;;
      entries <- queue_find_oldest_wait ;;
      match entries with
      | [] => dequeue_poll tries_left' (now + 1 * second)
      | entry :: _ => ret (Some entry, now)
      end
  end.

(** The Python result is the parsed uri, or [None] when the body runs to
    its end without raising. *)
Definition dequeue : M (option Url) :=
  now <- dt_now ;;
  polled <- dequeue_poll 10 now ;;
  let (entry, now) := polled in
  match entry with
  | Some entry =>
      queue_update_one (QueueDoc.uri entry) Scrape ;;
      mutex_release ;;
      action_insert_one (ActionDoc.mk (QueueDoc.uri entry) now ActScrape) ;;
      ret (Some (parse_url (QueueDoc.uri entry)))
  | None =>
      mutex_release ;;
      queue_size <- queue_count_wait ;;
      (fun w => (Return tt, emit (EvRecount queue_size) w)) ;;
      queue_status <- queue_aggregate_states ;;
      self_logger_debug ;;
      if (queue_size =? 0)%nat then raise EmptyQueueException
      else ret None
  end.

Definition dequeue_finish (recipe_uri : Url) : M unit :=
  now <- dt_now ;;
  count0 <- queue_count_uri recipe_uri ;;
  queue_delete_one recipe_uri ;;
  count1 <- queue_count_uri recipe_uri ;;
  logger_info ;;
  action_insert_one (ActionDoc.mk recipe_uri now ActFinish).

(** ** Other consumers

    [dequeue] is run by other threads too.  Whatever such a call found,
    it ends its critical section with [mutex.release()] (l.175, l.181),
    and a [threading.Lock] is released by whichever thread calls
    [release()], its holder or not.  A [mutex.acquire] of ours that waits
    on a taken lock returns [True] as soon as the lock is released, and
    [False] only when its timeout has passed.  A [Consumer] says what the
    other consumers do at one [mutex.acquire] of ours: nothing, or one of
    them releases the lock [d] microseconds after we came to wait for it
    (none, when the release came while we were still searching).  On a
    queue where nothing waits, the release is all that such a call does
    to what it shares with ours. *)
Inductive Consumer :=
| NoRelease
| ReleaseAfter (d : N).

(** [mutex.acquire(blocking=True, timeout=...)] among other consumers. *)
Definition mutex_acquire_among (c : Consumer) (timeout : Z) : M bool :=
  fun w =>
    match c with
    | NoRelease => mutex_acquire timeout w
    | ReleaseAfter d =>
        if mutex w && (Z.of_N d <? timeout * second)
        then (Return true,
              emit (EvAcquire true)
                   (set_mutex true (set_clock (clock w + Z.of_N d) w)))
        else mutex_acquire timeout w
    end.

(** The loop of [dequeue] among other consumers: [others] lists what
    they do at each [mutex.acquire] of the loop, the first one first;
    past its end they do nothing. *)
Fixpoint dequeue_poll_among (others : list Consumer) (tries_left : nat)
  (now : Time) : M (option QueueDoc.t * Time) :=
  match tries_left with
  | O => ret (None, now)
  | S tries_left' =>
      mutex_acquire_among (hd NoRelease others) 3 ;;
      entries <- queue_find_oldest_wait ;;
      match entries with
      | [] => dequeue_poll_among (tl others) tries_left' (now + 1 * second)
      | entry :: _ => ret (Some entry, now)
      end
  end.

(** [dequeue] among other consumers.  With none of them it is [dequeue]
    (lemma [dequeue_among_alone]). *)
Definition dequeue_among (others : list Consumer) : M (option Url) :=
  now <- dt_now ;;
  polled <- dequeue_poll_among others 10 now ;;
  let (entry, now) := polled in
  match entry with
  | Some entry =>
      queue_update_one (QueueDoc.uri entry) Scrape ;;
      mutex_release ;;
      action_insert_one (ActionDoc.mk (QueueDoc.uri entry) now ActScrape) ;;
      ret (Some (parse_url (QueueDoc.uri entry)))
  | None =>
      mutex_release ;;
      queue_size <- queue_count_wait ;;
      (fun w => (Return tt, emit (EvRecount queue_size) w)) ;;
      queue_status <- queue_aggregate_states ;;
      self_logger_debug ;;
      if (queue_size =? 0)%nat then raise EmptyQueueException
      else ret None
  end.

(** Modelled from the spec: the audit read path [history(id)], absent from
    datastore.py: all events of one id, oldest first, in the order of the
    index [idx_uri_ts] on [(uri, ts, act)]. *)
Definition history (id : Url) (w : World) : list ActionDoc.t :=
  Action.sort_chrono
    (filter (fun r => String.eqb (ActionDoc.uri r) id) (action w)).

(** A store right after [RecipeStore()] on an empty database: no logger
    yet, the lock free, nobody else around. *)
Definition fresh (now : Time) : World :=
  mkWorld [] [] false now None [] [].

(** ** Vocabulary of the statements *)

(** The key of a queue document in the index [idx_ts]. *)
Definition idx_ts_key (d : QueueDoc.t) : State * Time :=
  (QueueDoc.state d, QueueDoc.ts d).

(** The two unique indices of the queue collection hold. *)
Definition indexed (coll : list QueueDoc.t) : Prop :=
  NoDup (map QueueDoc.uri coll) /\ NoDup (map idx_ts_key coll).

(** [e] has the least timestamp of [l]. *)
Definition least (e : QueueDoc.t) (l : list QueueDoc.t) : Prop :=
  forall x, In x l -> QueueDoc.ts e <= QueueDoc.ts x.

(** Sequential runs: nobody else acts. *)
Definition quiet (w : World) : Prop := schedule w = [].

(** The world after one [mutex.acquire(blocking=True, timeout=3)]. *)
Definition after_acquire (w : World) : World := snd (mutex_acquire 3 w).

(** One iteration that finds nothing: acquire, search, miss. *)
Definition after_miss (w : World) : World :=
  emit (EvFind false) (after_acquire w).

(** The world after [n] iterations that all found nothing. *)
Fixpoint after_misses (n : nat) (w : World) : World :=
  match n with
  | O => w
  | S n' => after_misses n' (after_miss w)
  end.

(** The searches of a trace that found nothing, and all its searches. *)
Definition is_miss (e : Event) : bool :=
  match e with EvFind false => true | _ => false end.

Definition is_find (e : Event) : bool :=
  match e with EvFind _ => true | _ => false end.

Definition misses (tr : list Event) : nat := List.length (filter is_miss tr).
Definition attempts (tr : list Event) : nat := List.length (filter is_find tr).

(** The world a successful sequential [dequeue] leaves: [q] is the queue
    collection after the state flip and [r] the action document. *)
Definition after_hit (u : Url) (q : list QueueDoc.t) (r : ActionDoc.t)
  (w : World) : World :=
  set_action (action w ++ [r])
    (emit EvRelease
       (set_mutex false
          (emit (EvFlip u (clock (after_acquire w)))
             (set_queue q (emit (EvFind true) (after_acquire w)))))).

(** The world a sequential [dequeue] leaves when no entry is waiting. *)
Definition after_empty (w : World) : World :=
  emit (EvRecount 0) (emit EvRelease (set_mutex false (after_misses 10 w))).

(** Calls of [enqueue] one after the other, each at its own time. *)
Fixpoint enqueue_each (plan : list (Time * Url)) (w : World)
  : list (Outcome (option bool)) * World :=
  match plan with
  | [] => ([], w)
  | (t, u) :: plan' =>
      let (r, w1) := enqueue u (set_clock t w) in
      let (rs, w2) := enqueue_each plan' w1 in
      (r :: rs, w2)
  end.

(** [n] calls of [dequeue] one after the other. *)
Fixpoint dequeue_times (n : nat) (w : World)
  : list (Outcome (option Url)) * World :=
  match n with
  | O => ([], w)
  | S n' =>
      let (r, w1) := dequeue w in
      let (rs, w2) := dequeue_times n' w1 in
      (r :: rs, w2)
  end.

(** Every timestamp the store holds is earlier than [t]. *)
Definition older_than (t : Time) (w : World) : Prop :=
  (forall d, In d (queue w) -> QueueDoc.ts d < t) /\
  (forall r, In r (action w) -> ActionDoc.ts r < t).

(** Every date the store holds falls in a millisecond before that of
    [t]. *)
Definition before_ms (t : Time) (w : World) : Prop :=
  (forall d, In d (queue w) -> ms (QueueDoc.ts d) < ms t) /\
  (forall r, In r (action w) -> ms (ActionDoc.ts r) < ms t).

(** A store used by one client at a time under a clock that moves forward
    between two calls of [enqueue]: what the unique indices enforce, the
    waiting entries in the order they were inserted, nothing stamped in
    the future, and no ["scrape"] record yet for an entry that waits. *)
Record lined_up (w : World) : Prop := {
  lu_quiet : quiet w;
  lu_uri : NoDup (map QueueDoc.uri (queue w));
  lu_ts : NoDup (map QueueDoc.ts (queue w));
  lu_order :
    StronglySorted (fun a b => QueueDoc.ts a < QueueDoc.ts b)
                   (Queue.find_state Wait (queue w));
  lu_clock : forall d, In d (queue w) -> QueueDoc.ts d <= clock w;
  lu_log :
    forall d r, In d (queue w) -> QueueDoc.state d = Wait ->
                In r (action w) -> ActionDoc.uri r = QueueDoc.uri d ->
                ActionDoc.act r = ActScrape ->
                ActionDoc.ts r < QueueDoc.ts d
}.

(** What a round trip of ours may have let through: the lock, our trace
    and our logger are as they were, the clock has not gone back, and the
    audit log has only grown. *)
Record drift (w w' : World) : Prop := {
  drift_mutex : mutex w' = mutex w;
  drift_trace : trace w' = trace w;
  drift_logger : _logger w' = _logger w;
  drift_clock : clock w <= clock w';
  drift_action : exists more, action w' = action w ++ more
}.

(** The events of a polling loop: [k] iterations that found nothing, then
    one that found an entry when [hit].  Only the very first
    [mutex.acquire] can succeed, and does when the lock was free. *)
Fixpoint miss_events (k : nat) : list Event :=
  match k with
  | O => []
  | S k' => EvAcquire false :: EvFind false :: miss_events k'
  end.

Definition locked_poll_events (k : nat) (hit : bool) : list Event :=
  miss_events k ++ (if hit then [EvAcquire false; EvFind true] else []).

Definition poll_events (locked : bool) (k : nat) (hit : bool) : list Event :=
  match locked_poll_events k hit with
  | EvAcquire _ :: rest => EvAcquire (negb locked) :: rest
  | tr => tr
  end.

(** What a call of [dequeue] on [w] can come to, whatever producers do
    meanwhile: with [k] the number of iterations that found nothing,
    either an iteration found an entry and the state flip was refused by
    [idx_ts]; or the flip was written at wall-clock time [t] and the lock
    released, after which the ["scrape"] record went in or was refused;
    or all ten iterations found nothing, the lock was released and the
    waiting entries recounted. *)
Inductive DequeueRun (w : World) (r : Outcome (option Url)) (w' : World)
  : Prop :=
| run_flip_refused (k : nat) :
    (k < 10)%nat ->
    trace w' = trace w ++ poll_events (mutex w) k true ->
    r = Raise DuplicateKeyError ->
    mutex w' = true ->
    clock w + 3 * second * Z.of_nat k <= clock w' ->
    DequeueRun w r w'
| run_flipped (k : nat) (u : Url) (t : Time) :
    (k < 10)%nat ->
    trace w' = trace w ++ poll_events (mutex w) k true ++ [EvFlip u t; EvRelease] ->
    clock w + 3 * second * Z.of_nat k <= t ->
    t <= clock w' ->
    mutex w' = false ->
    (r = Raise DuplicateKeyError \/
     r = Return (Some u) /\
     exists earlier,
       action w' =
       earlier ++ [ActionDoc.mk u (clock w + Z.of_nat k * second) ActScrape]) ->
    DequeueRun w r w'
| run_missed (n : nat) :
    trace w' = trace w ++ poll_events (mutex w) 10 false ++ [EvRelease; EvRecount n] ->
    mutex w' = false ->
    clock w + 3 * second * 9 <= clock w' ->
    r = match _logger w with
        | None => Raise AttributeError
        | Some _ => if (n =? 0)%nat then Raise EmptyQueueException
                    else Return None
        end ->
    DequeueRun w r w'.

(** The guard discipline read off a trace: starting with the guard
    [held] or not, every search and every flip happens while the guard
    is held, a release gives back a guard that is held, and at the end
    the guard is no longer held. *)
Fixpoint guarded (held : bool) (tr : list Event) : bool :=
  match tr with
  | [] => negb held
  | EvAcquire got :: tr' => guarded (held || got) tr'
  | EvFind _ :: tr' => held && guarded held tr'
  | EvFlip _ _ :: tr' => held && guarded held tr'
  | EvRelease :: tr' => held && guarded false tr'
  | EvRecount _ :: tr' => guarded held tr'
  end.

Definition releases (tr : list Event) : nat :=
  List.length (filter (fun e => match e with EvRelease => true | _ => false end) tr).

(** Whether the polling loop came back with an entry. *)
Definition found (r : option QueueDoc.t) : bool :=
  match r with Some _ => true | None => false end.

(** A computation only ever adds to the audit log. *)
Definition grows {A} (c : M A) : Prop :=
  forall w r w', c w = (r, w') -> exists more, action w' = action w ++ more.

(** What one round trip of ours lets through: besides [drift], the next
    item of the schedule has been used up, producers have only put
    waiting entries at the end of the queue, and with an empty schedule
    nothing has happened at all. *)
Record stepped (w w' : World) : Prop := {
  st_drift : drift w w';
  st_quiet : quiet w -> w' = w;
  st_schedule : schedule w' = tl (schedule w);
  st_queue :
    exists more,
      queue w' = queue w ++ more /\ Queue.find_state Wait more = more
}.

(** From [w] to [w'] the clock has not gone back and our trace has only
    grown by [tr]; in a sequential run the clock has not moved. *)
Definition settled (tr : list Event) (w w' : World) : Prop :=
  trace w' = trace w ++ tr /\
  clock w <= clock w' /\
  (quiet w -> clock w' = clock w /\ quiet w').

(** How long one [mutex.acquire(blocking=True, timeout=3)] of ours
    waits: not at all on a free lock; on a taken one, until another
    consumer releases it, and three seconds at most. *)
Definition acquire_wait (c : Consumer) (locked : bool) : Z :=
  if locked then
    match c with
    | NoRelease => 3 * second
    | ReleaseAfter d => Z.min (Z.of_N d) (3 * second)
    end
  else 0.

(** What it answers. *)
Definition acquired (c : Consumer) (locked : bool) : bool :=
  negb locked ||
  match c with
  | NoRelease => false
  | ReleaseAfter d => Z.of_N d <? 3 * second
  end.

(** The time that the first [n] iterations of the loop spend waiting for
    the lock, when the loop is entered with the lock [locked]. *)
Fixpoint acquire_waits (others : list Consumer) (locked : bool) (n : nat)
  : Z :=
  match n with
  | O => 0
  | S n' =>
      acquire_wait (hd NoRelease others) locked +
      acquire_waits (tl others) true n'
  end.

(** ** Sample stores *)

(** A store in use: ["a"] is being scraped, ["b"] and ["c"] wait, ["c"]
    being the older of the two although inserted last. *)
Definition entry_a : QueueDoc.t := QueueDoc.mk "a"%string 1 Scrape.
Definition entry_b : QueueDoc.t := QueueDoc.mk "b"%string 5 Wait.
Definition entry_c : QueueDoc.t := QueueDoc.mk "c"%string 3 Wait.

Definition busy_store : World :=
  mkWorld [entry_a; entry_b; entry_c]
          [ActionDoc.mk "a"%string 1 ActEnqueue; ActionDoc.mk "a"%string 2 ActScrape;
           ActionDoc.mk "c"%string 3 ActEnqueue; ActionDoc.mk "b"%string 5 ActEnqueue]
          false 9 (Some (LoggerHandle "crawler"%string)) [] [].

(** The same kind of store with its dates milliseconds apart: ["p"] is
    being scraped, ["q"] and ["r"] wait, ["r"] being the older of the
    two although inserted last; the clock reads 9 ms. *)
Definition entry_p : QueueDoc.t := QueueDoc.mk "p"%string 1000 Scrape.
Definition entry_q : QueueDoc.t := QueueDoc.mk "q"%string 5000 Wait.
Definition entry_r : QueueDoc.t := QueueDoc.mk "r"%string 3000 Wait.

Definition working_store : World :=
  mkWorld [entry_p; entry_q; entry_r]
          [ActionDoc.mk "p"%string 1000 ActEnqueue;
           ActionDoc.mk "p"%string 2000 ActScrape;
           ActionDoc.mk "r"%string 3000 ActEnqueue;
           ActionDoc.mk "q"%string 5000 ActEnqueue]
          false 9000 (Some (LoggerHandle "crawler"%string)) [] [].

(** Three producers, ten milliseconds apart. *)
Definition plan3 : list (Time * Url) :=
  [(10000, "x"%string); (20000, "y"%string); (30000, "z"%string)].

(** An empty store with a logger, and a producer whose [enqueue("u9")]
    lands after our tenth search. *)
Definition late_producer : World :=
  set_schedule (repeat (Elapse 0) 10 ++ [Produce "u9"%string])
               (setLogger (LoggerHandle "crawler"%string) (fresh 0)).

(** An empty store, and a producer whose [enqueue("u9")] lands between
    our first and our second search. *)
Definition slow_producer : World :=
  set_schedule [Elapse 0; Produce "u9"%string] (fresh 0).

(** [busy_store] while another thread holds the lock. *)
Definition contended_store : World := set_mutex true busy_store.

(** An empty store, and a producer whose [enqueue("u1")] lands between the
    presence check and the insert of our own [enqueue("u1")]. *)
Definition duplicate_race : World :=
  set_schedule [Elapse 0; Produce "u1"%string] (fresh 0).

(** An empty store with a logger. *)
Definition idle_store : World :=
  setLogger (LoggerHandle "crawler"%string) (fresh 0).

(** Other consumers whose releases of the lock come while we search, one
    for each search: the lock is free each time we come back for it. *)
Definition eager_consumers : list Consumer := repeat (ReleaseAfter 0) 10.

(** One other consumer, whose release comes one second into our second
    wait for the lock. *)
Definition one_release : list Consumer := [NoRelease; ReleaseAfter 1000000].

(** One uri taken through its whole life on a new store: enqueued at
    time 0, dequeued 5 ms later, finished 7 ms after that. *)
Definition life1 : World := snd (enqueue "u1"%string (fresh 0)).
Definition life2 : World := snd (dequeue (elapse 5000 life1)).
Definition life3 : World :=
  snd (dequeue_finish "u1"%string (elapse 7000 life2)).

(** ** Further vocabulary *)

(** A computation never consults [self._logger]: on a store whose logger
    was replaced it answers the same and leaves the same store, the
    logger apart. *)
Definition logger_blind {A} (c : M A) : Prop :=
  forall l w, c (setLogger l w) = (fst (c w), setLogger l (snd (c w))).

(** What a round trip of ours may have let through, the queue included:
    producers have only added entries at its end. *)
Definition produced (w w' : World) : Prop :=
  drift w w' /\ exists more, queue w' = queue w ++ more.

(** The uris that a run of calls handed out. *)
Definition delivered (rs : list (Outcome (option Url))) : list Url :=
  flat_map (fun r => match r with Return (Some u) => [u] | _ => [] end) rs.

(** The uris of the entries that wait. *)
Definition waiting (w : World) : list Url :=
  map QueueDoc.uri (Queue.find_state Wait (queue w)).

(** The log [a] accounts for the queue entry [d]: it holds the
    ["enqueue"] record with the uri and the timestamp of the entry and,
    for an entry that is being scraped, a ["scrape"] record of its
    uri. *)
Definition accounted_for (a : list ActionDoc.t) (d : QueueDoc.t) : Prop :=
  In (ActionDoc.mk (QueueDoc.uri d) (QueueDoc.ts d) ActEnqueue) a /\
  (QueueDoc.state d = Scrape ->
   exists t, In (ActionDoc.mk (QueueDoc.uri d) t ActScrape) a).

(** The audit log, with the records [due] that a call is about to
    write, accounts for every entry of the queue. *)
Definition covered (due : list ActionDoc.t) (w : World) : Prop :=
  forall d, In d (queue w) -> accounted_for (due ++ action w) d.

(** The audit log accounts for every entry of the queue. *)
Definition accounted (w : World) : Prop := covered [] w.

(** Started where [pre] holds, [c] ends where [post] holds when it
    returns and where [exc] holds when it raises. *)
Definition triple {A} (pre : World -> Prop) (c : M A)
  (post exc : World -> Prop) : Prop :=
  forall w r w', pre w -> c w = (r, w') ->
                 match r with Return _ => post w' | Raise _ => exc w' end.

(** A computation leaves a queue that the audit log accounts for,
    whether it returns or raises. *)
Definition keeps_accounted {A} (c : M A) : Prop :=
  forall w r w', accounted w -> c w = (r, w') -> accounted w'.

(** ** Further sample stores *)

(** ["a"] is being scraped and ["b"] waits, both enqueued at the same
    clock reading: what [enqueue("a")], [dequeue()], [enqueue("b")] leave
    on a new store when the clock has not moved. *)
Definition same_instant : World :=
  snd (enqueue "b"%string (snd (dequeue (snd (enqueue "a"%string (fresh 0)))))).

(** A whole life of ["a"] lived within one clock reading, and what a
    second [enqueue("a")] at that same reading leaves behind. *)
Definition one_instant_life : World :=
  snd (dequeue_finish "a"%string
         (snd (dequeue (snd (enqueue "a"%string (fresh 0)))))).

Definition one_instant_again : World :=
  snd (enqueue "a"%string one_instant_life).

(** An empty store on which time passes at our first two round trips
    and a producer's [enqueue("x")] lands at the third. *)
Definition third_trip_producer : World :=
  set_schedule [Elapse 1; Elapse 1; Produce "x"%string] (fresh 0).

(** * The rest of [RecipeStore]: recipes and the singleton *)

(** ** The [recipe] collection

    Of a recipe document the store looks at two fields,
    ["canonical_url"] and ["domain"], either of which a dict may lack;
    [body] stands for all the others.  The collection carries the two
    unique indices of [_ensure_existence]: [idx_uri] on
    [canonical_url] and [idx_domain] on [(domain, canonical_url)], a
    missing field counting as [null].  The [_id] the server adds to a
    document is left out. *)
Module RecipeDoc.
Record t := mk {
  canonical_url : option Url;
  domain : option string;
  body : string
}.
End RecipeDoc.

Module Recipe.
Import RecipeDoc.

Definition key_eqb (a b : option string) : bool :=
  match a, b with
  | Some x, Some y => String.eqb x y
  | None, None => true
  | _, _ => false
  end.

Definition same_url (u : Url) (d : t) : bool :=
  key_eqb (canonical_url d) (Some u).

(** [find({"canonical_url": u})] *)
Definition find_url (u : Url) (coll : list t) : list t :=
  filter (same_url u) coll.

(** Whether [r] next to [d] breaks [idx_uri] or [idx_domain]. *)
Definition clashes (r d : t) : bool :=
  key_eqb (canonical_url r) (canonical_url d)
  || (key_eqb (domain r) (domain d)
      && key_eqb (canonical_url r) (canonical_url d)).

Fixpoint replace_first (u : Url) (r : t) (coll : list t) : list t :=
  match coll with
  | [] => []
  | d :: rest =>
      if same_url u d then r :: rest else d :: replace_first u r rest
  end.

(** The documents of the collection other than the first one of [u]. *)
Fixpoint others (u : Url) (coll : list t) : list t :=
  match coll with
  | [] => []
  | d :: rest => if same_url u d then rest else d :: others u rest
  end.

(** What pymongo's [UpdateResult] tells: [matched_count], and whether
    [upserted_id] is set. *)
Record UpdateResult := mkResult { matched_count : nat; upserted : bool }.

(** [replace_one({"canonical_url": u}, r, upsert=True)]: the first
    document of [u] is replaced where it stands, and without one [r] is
    inserted; [None] when an index refuses the write. *)
Definition replace_one (u : Url) (r : t) (coll : list t)
  : option (list t * UpdateResult) :=
  match find (same_url u) coll with
  | Some _ =>
      if existsb (clashes r) (others u coll) then None
      else Some (replace_first u r coll, mkResult 1 false)
  | None =>
      if existsb (clashes r) coll then None
      else Some (coll ++ [r], mkResult 0 true)
  end.
End Recipe.

(** ** The process

    Beside the world of the queue operations: the [recipe] collection,
    the [RecipeStore] objects made so far (an object is its [_logger]
    attribute, a reference its position), the class attribute
    [RecipeStore._instance], and the number of other threads that go
    through [RecipeStore.instance] while a call of ours is on its way to
    the lock.  The [_logger] of the world is the one of the object a
    method runs on. *)
#[projections(primitive)] Record Process := mkProcess {
  world : World;
  recipe : list RecipeDoc.t;        (* self._recipe *)
  heap : list (option Logger);
  _instance : option nat;           (* cls._instance *)
  rivals : nat
}.

Definition set_world (w : World) (p : Process) : Process :=
  mkProcess w (recipe p) (heap p) (_instance p) (rivals p).
Definition set_recipe (c : list RecipeDoc.t) (p : Process) : Process :=
  mkProcess (world p) c (heap p) (_instance p) (rivals p).
Definition set_heap (h : list (option Logger)) (p : Process) : Process :=
  mkProcess (world p) (recipe p) h (_instance p) (rivals p).
Definition set_instance (i : option nat) (p : Process) : Process :=
  mkProcess (world p) (recipe p) (heap p) i (rivals p).
Definition set_rivals (n : nat) (p : Process) : Process :=
  mkProcess (world p) (recipe p) (heap p) (_instance p) n.

(** [KeyError], or one of the exceptions above. *)
Inductive Error :=
| KeyError
| Err (e : Exc).

(** How a call ends: it returns, it raises, or it never comes back from
    a [mutex.acquire()] without timeout. *)
Inductive Ending (A : Type) :=
| Returns (a : A)
| Raises (e : Error)
| Blocks.
Arguments Returns {A} a.
Arguments Raises {A} e.
Arguments Blocks {A}.

Definition P (A : Type) := Process -> Ending A * Process.

Definition pret {A} (a : A) : P A := fun p => (Returns a, p).
Definition praise {A} (e : Error) : P A := fun p => (Raises e, p).
Definition pbind {A B} (c : P A) (k : A -> P B) : P B :=
  fun p => match c p with
           | (Returns a, p') => k a p'
           | (Raises e, p') => (Raises e, p')
           | (Blocks, p') => (Blocks, p')
           end.

Declare Scope process_scope.
Delimit Scope process_scope with process.
Notation "x <- c ;; k" := (pbind c (fun x => k))
  (at level 61, c at next level, right associativity) : process_scope.
Notation "c ;; k" := (pbind c (fun _ => k))
  (at level 61, right associativity) : process_scope.

(** A computation on the world, run in the process. *)
Definition lift {A} (c : M A) : P A :=
  fun p => match c (world p) with
           | (Return a, w) => (Returns a, set_world w p)
           | (Raise e, w) => (Raises (Err e), set_world w p)
           end.

(** [try: body finally: final] *)
Definition try_finally {A} (body : P A) (final : P unit) : P A :=
  fun p => match body p with
           | (Blocks, p1) => (Blocks, p1)
           | (r, p1) =>
               match final p1 with
               | (Returns _, p2) => (r, p2)
               | (Raises e, p2) => (Raises e, p2)
               | (Blocks, p2) => (Blocks, p2)
               end
           end.

Local Open Scope process_scope.

(** [self._recipe.find({"canonical_url": u}).count()] *)
Definition recipe_count_url (u : Url) : P nat :=
  lift round_trip ;;
  fun p => (Returns (List.length (Recipe.find_url u (recipe p))), p).

(** [self._recipe.replace_one({"canonical_url": u}, r, upsert=True)] *)
Definition recipe_replace_one (u : Url) (r : RecipeDoc.t)
  : P Recipe.UpdateResult :=
  lift round_trip ;;
  fun p => match Recipe.replace_one u r (recipe p) with
           | Some (c, result) => (Returns result, set_recipe c p)
           | None => (Raises (Err DuplicateKeyError), p)
           end.

(** [self._logger.warning(...)] and [self._logger.info(...)]: as for
    [debug], [None] has neither. *)
Definition self_logger_warning : P unit := lift self_logger_debug.
Definition self_logger_info : P unit := lift self_logger_debug.

(** [found] is a cursor, which is never falsy: [not found] is [False],
    and each [found.count()] is a round trip of its own. *)
Definition have_recipe (recipe_uri : Url) : P bool :=
  n <- recipe_count_url recipe_uri ;;
  if (n =? 0)%nat then pret false
  else
    n' <- recipe_count_url recipe_uri ;;
    (if (1 <? n')%nat then self_logger_warning else pret tt) ;;
    pret true.

(** [recipe["canonical_url"]] raises [KeyError] on a dict without that
    key. *)
Definition upsert_recipe (recipe : RecipeDoc.t) : P Recipe.UpdateResult :=
  match RecipeDoc.canonical_url recipe with
  | None => praise KeyError
  | Some uri =>
      known <- have_recipe uri ;;
      (if known then self_logger_warning else pret tt) ;;
      result <- recipe_replace_one uri recipe ;;
      self_logger_info ;;
      pret result
  end.

Local Close Scope process_scope.

(** ** The singleton *)

(** [_ensure_existence]: the handles to the database and to the three
    collections cost nothing, each of the six [ensure_index] is a round
    trip.  The indices themselves are part of the collections as
    modelled above. *)
Definition _ensure_existence : M unit :=
  round_trip ;; round_trip ;;
  round_trip ;; round_trip ;;
  round_trip ;; round_trip.

Local Open Scope process_scope.

(** [RecipeStore()]: [__init__] reads the environment, makes the client,
    runs [_ensure_existence] and ends with [self._logger = None]. *)
Definition __init__ : P nat :=
  lift _ensure_existence ;;
  fun p => (Returns (List.length (heap p)), set_heap (heap p ++ [None]) p).

(** [mutex.acquire()], without timeout: on a lock that another thread
    holds, and keeps, the caller waits for good. *)
Definition mutex_acquire_blocking : P unit :=
  fun p =>
    if mutex (world p) then (Blocks, p)
    else (Returns tt,
          set_world (emit (EvAcquire true) (set_mutex true (world p))) p).

(** What another thread's [RecipeStore.instance] does, all at once, when
    it can have the lock. *)
Definition rival (p : Process) : Process :=
  if mutex (world p) then p
  else
    match _instance p with
    | Some _ => p
    | None =>
        set_instance (Some (List.length (heap p)))
                     (set_heap (heap p ++ [None]) p)
    end.

(** The other threads on their way through [RecipeStore.instance] get
    there first. *)
Definition other_threads : P unit :=
  fun p => (Returns tt, set_rivals 0 (Nat.iter (rivals p) rival p)).

Definition get_instance : P (option nat) :=
  fun p => (Returns (_instance p), p).

Definition put_instance (obj : nat) : P unit :=
  fun p => (Returns tt, set_instance (Some obj) p).

(** The class property [instance], for a class whose constructor is
    [cls]. *)
Definition instance_of (cls : P nat) : P (option nat) :=
  inst <- get_instance ;;
  match inst with
  | None =>
      other_threads ;;
      mutex_acquire_blocking ;;
      try_finally
        (inst <- get_instance ;;
         match inst with
         | None => obj <- cls ;; put_instance obj
         | Some _ => pret tt
         end)
        (lift mutex_release)
  | Some _ => pret tt
  end ;;
  get_instance.

(** [RecipeStore.instance] *)
Definition instance : P (option nat) := instance_of __init__.

(** [self.setLogger(logger)] on the object [self]. *)
Fixpoint store_logger (self : nat) (logger : option Logger)
  (h : list (option Logger)) : list (option Logger) :=
  match h, self with
  | [], _ => []
  | _ :: rest, O => logger :: rest
  | o :: rest, S self' => o :: store_logger self' logger rest
  end.

Definition setLogger_on (self : nat) (logger : Logger) : P unit :=
  fun p => (Returns tt, set_heap (store_logger self (Some logger) (heap p)) p).

(** A method run on the object [self]: its [self._logger] is the
    object's. *)
Definition with_logger (o : option Logger) (w : World) : World :=
  mkWorld (queue w) (action w) (mutex w) (clock w) o (schedule w) (trace w).

Definition call {A} (self : nat) (method : P A) : P A :=
  fun p => method (set_world (with_logger (nth self (heap p) None) (world p)) p).

(** [RecipeStore.instance.method(...)] *)
Definition on_instance {A} (method : nat -> P A) : P A :=
  inst <- instance ;;
  match inst with
  | Some self => method self
  | None => praise (Err AttributeError)
  end.

Local Close Scope process_scope.

(** The two unique indices of the recipe collection hold. *)
Definition recipe_indexed (coll : list RecipeDoc.t) : Prop :=
  NoDup (map RecipeDoc.canonical_url coll) /\
  NoDup (map (fun d => (RecipeDoc.domain d, RecipeDoc.canonical_url d)) coll).

(** A process that has just started on an empty database. *)
Definition boot (now : Time) : Process :=
  mkProcess (fresh now) [] [] None 0.

(** Two recipes and a store that holds the first; a collection in which
    one url is stored twice, which the index would refuse. *)
Definition soup : RecipeDoc.t :=
  RecipeDoc.mk (Some "http://cook.example/soup"%string)
               (Some "cook.example"%string) "leek and potato"%string.
Definition soup2 : RecipeDoc.t :=
  RecipeDoc.mk (Some "http://cook.example/soup"%string)
               (Some "cook.example"%string) "leek, potato and cream"%string.
Definition cake : RecipeDoc.t :=
  RecipeDoc.mk (Some "http://cook.example/cake"%string)
               (Some "cook.example"%string) "almond"%string.
Definition untitled : RecipeDoc.t :=
  RecipeDoc.mk None (Some "cook.example"%string) "no url"%string.

Definition kitchen : Process :=
  mkProcess (fresh 0) [soup; cake] [] None 0.
Definition kitchen_with_logger : Process :=
  set_world (setLogger (LoggerHandle "crawler"%string) (fresh 0)) kitchen.
Definition pantry : Process :=
  set_world (setLogger (LoggerHandle "crawler"%string) (fresh 0)) (boot 0).
Definition unindexed_kitchen : Process :=
  mkProcess (fresh 0) [soup; cake; soup2] [] None 0.

(** The process as the constructor finds it: the other threads have
    been through, and the lock is ours. *)
Definition at_the_lock (p : Process) : Process :=
  snd (pbind other_threads (fun _ => mutex_acquire_blocking) p).

(** A process in which two other threads go through
    [RecipeStore.instance] at the same time as we do. *)
Definition crowded_boot : Process := set_rivals 2 (boot 0).

(** A constructor that fails and leaves everything as it found it. *)
Definition failing_constructor : P nat :=
  fun p => (Raises (Err RuntimeError), p).

(** * Properties *)

(** ** The monad *)

Lemma bind_Return {A B} (c : M A) (k : A -> M B) w a w' :
  c w = (Return a, w') -> bind c k w = k a w'.
Proof. intros H. unfold bind. now rewrite H. Qed.

Lemma bind_Raise {A B} (c : M A) (k : A -> M B) w e w' :
  c w = (Raise e, w') -> bind c k w = (Raise e, w').
Proof. intros H. unfold bind. now rewrite H. Qed.

Lemma bind_inv {A B} (c : M A) (k : A -> M B) w r w' :
  bind c k w = (r, w') ->
  (exists a w1, c w = (Return a, w1) /\ k a w1 = (r, w')) \/
  (exists e, c w = (Raise e, w') /\ r = Raise e).
Proof.
  unfold bind. destruct (c w) as [[a|e] w1]; intros H.
  - left. now exists a, w1.
  - right. exists e. now inversion H.
Qed.

(** ** Equality tests *)

Lemma state_eqb_eq a b : state_eqb a b = true <-> a = b.
Proof. destruct a, b; simpl; split; congruence. Qed.

Lemma act_eqb_eq a b : act_eqb a b = true <-> a = b.
Proof. destruct a, b; simpl; split; congruence. Qed.

Lemma ActionDoc_eqb_eq a b : ActionDoc.eqb a b = true <-> a = b.
Proof.
  destruct a as [u x k], b as [u' x' k']. unfold ActionDoc.eqb. simpl.
  rewrite !andb_true_iff, String.eqb_eq, Z.eqb_eq, act_eqb_eq.
  split.
  - intros [[-> ->] ->]. reflexivity.
  - intros H. inversion H. auto.
Qed.

(** ** Sorting the waiting entries by timestamp *)

Module QueueFacts.
Import QueueDoc Queue.

Lemma insert_ts_In d x l : In x (insert_ts d l) <-> x = d \/ In x l.
Proof.
  induction l as [|y l IH]; simpl.
  - intuition.
  - destruct (ts d <? ts y); simpl; rewrite ?IH; intuition.
Qed.

Lemma sort_ts_In x l : In x (sort_ts l) <-> In x l.
Proof.
  induction l as [|y l IH]; simpl; [tauto|].
  rewrite insert_ts_In, IH. intuition.
Qed.

Lemma sort_ts_nil l : sort_ts l = [] -> l = [].
Proof.
  destruct l as [|y l]; [reflexivity|]. intros H.
  assert (Hin : In y (sort_ts (y :: l))) by (apply sort_ts_In; now left).
  rewrite H in Hin. destruct Hin.
Qed.

Lemma insert_ts_hd d l e r :
  (forall h r', l = h :: r' -> least h l) ->
  insert_ts d l = e :: r -> least e (d :: l).
Proof.
  destruct l as [|y l]; simpl; intros Hl H.
  - inversion H; subst. intros x [<-|[]]. lia.
  - specialize (Hl y l eq_refl).
    destruct (ts d <? ts y) eqn:E; inversion H; subst; clear H.
    + apply Z.ltb_lt in E. intros x [<-|Hx]; [lia|].
      specialize (Hl x Hx). lia.
    + apply Z.ltb_ge in E. intros x [<-|Hx]; [lia|]. now apply Hl.
Qed.

Lemma sort_ts_hd l e r : sort_ts l = e :: r -> least e l.
Proof.
  revert e r. induction l as [|d l IH]; intros e r H; [discriminate|].
  simpl in H. apply insert_ts_hd in H.
  - intros x [<-|Hx]; [apply H; now left|].
    apply H. right. now apply sort_ts_In.
  - intros h r' Hs x Hx. apply (IH h r' Hs). now apply sort_ts_In.
Qed.

(** A list already in strictly increasing order is left as it is. *)
Lemma insert_ts_least d l :
  (forall x, In x l -> ts d < ts x) -> insert_ts d l = d :: l.
Proof.
  destruct l as [|y l]; simpl; intros H; [reflexivity|].
  assert (ts d < ts y) by (apply H; now left).
  apply Z.ltb_lt in H0. now rewrite H0.
Qed.

Lemma sort_ts_sorted l :
  StronglySorted (fun a b => ts a < ts b) l -> sort_ts l = l.
Proof.
  induction 1 as [|d l Hs IH Hd]; simpl; [reflexivity|].
  rewrite IH. apply insert_ts_least.
  intros x Hx. rewrite Forall_forall in Hd. now apply Hd.
Qed.
End QueueFacts.

(** ** Writes to the [queue] collection *)

Module QueueWrites.
Import QueueDoc Queue.

Lemma same_uri_true u d : same_uri u d = true <-> uri d = u.
Proof. unfold same_uri. apply String.eqb_eq. Qed.

Lemma same_uri_false u d : same_uri u d = false <-> uri d <> u.
Proof. unfold same_uri. apply String.eqb_neq. Qed.

Lemma find_uri_nil u coll :
  find_uri u coll = [] <-> ~ In u (map uri coll).
Proof.
  unfold find_uri. induction coll as [|d coll IH]; simpl; [tauto|].
  destruct (same_uri u d) eqn:E.
  - apply same_uri_true in E. split; [discriminate|]. intros H. tauto.
  - apply same_uri_false in E. rewrite IH. tauto.
Qed.

Lemma existsb_same_uri u coll :
  existsb (same_uri u) coll = false <-> ~ In u (map uri coll).
Proof.
  induction coll as [|d coll IH]; simpl; [intuition|].
  rewrite orb_false_iff, IH, same_uri_false. tauto.
Qed.

Lemma existsb_same_state_ts s x coll :
  (forall d, In d coll -> state d = s -> ts d <> x) ->
  existsb (same_state_ts s x) coll = false.
Proof.
  induction coll as [|d coll IH]; simpl; intros H; [reflexivity|].
  rewrite IH by auto. unfold same_state_ts.
  destruct (state_eqb (state d) s) eqn:E; [|reflexivity].
  apply state_eqb_eq in E.
  assert (Hne : ts d <> x) by auto. apply Z.eqb_neq in Hne. now rewrite Hne.
Qed.

(** A new uri whose state and timestamp no document shares is admitted
    by both indices. *)
Lemma insert_one_new d coll :
  ~ In (uri d) (map uri coll) ->
  (forall x, In x coll -> state x = state d -> ts x <> ts d) ->
  insert_one d coll = Some (coll ++ [d]).
Proof.
  intros Hu Ht. unfold insert_one.
  apply existsb_same_uri in Hu. rewrite Hu.
  now rewrite existsb_same_state_ts.
Qed.

(** [idx_uri] refuses a uri that is there already. *)
Lemma insert_one_dup d coll :
  In (uri d) (map uri coll) -> insert_one d coll = None.
Proof.
  intros H. unfold insert_one.
  destruct (existsb (same_uri (uri d)) coll) eqn:E; [reflexivity|].
  apply existsb_same_uri in E. contradiction.
Qed.

Lemma find_unique e coll :
  NoDup (map uri coll) -> In e coll ->
  find (same_uri (uri e)) coll = Some e.
Proof.
  induction coll as [|d coll IH]; simpl; intros Hn Hin; [contradiction|].
  inversion Hn as [|? ? Hd Hn']; subst.
  destruct Hin as [->|Hin].
  - assert (E : same_uri (uri e) e = true) by now apply same_uri_true.
    now rewrite E.
  - destruct (same_uri (uri e) d) eqn:E.
    + apply same_uri_true in E. exfalso. apply Hd. rewrite E.
      now apply in_map.
    + auto.
Qed.

(** With [idx_uri] in force, [set_first] rewrites one document and
    leaves every other one where it was. *)
Lemma set_first_unique e s coll :
  NoDup (map uri coll) -> In e coll ->
  exists pre post,
    coll = pre ++ e :: post /\
    set_first (uri e) s coll = pre ++ with_state s e :: post.
Proof.
  induction coll as [|d coll IH]; simpl; intros Hn Hin; [contradiction|].
  inversion Hn as [|? ? Hd Hn']; subst.
  destruct Hin as [->|Hin].
  - exists [], coll. simpl.
    assert (E : same_uri (uri e) e = true) by now apply same_uri_true.
    now rewrite E.
  - destruct (same_uri (uri e) d) eqn:E.
    + apply same_uri_true in E. exfalso. apply Hd. rewrite E.
      now apply in_map.
    + destruct (IH Hn' Hin) as (pre & post & -> & Hs).
      exists (d :: pre), post. simpl. now rewrite Hs.
Qed.

(** Flipping a document is admitted by [idx_ts] when no document in the
    new state bears its timestamp. *)
Lemma update_one_flip e s coll :
  NoDup (map uri coll) -> In e coll ->
  state e <> s ->
  (forall x, In x coll -> state x = s -> ts x <> ts e) ->
  update_one (uri e) s coll = Some (set_first (uri e) s coll).
Proof.
  intros Hu Hin Hs Hfree. unfold update_one.
  rewrite (find_unique e coll Hu Hin).
  destruct (state_eqb (state e) s) eqn:E.
  - apply state_eqb_eq in E. contradiction.
  - destruct (existsb (same_state_ts s (ts e)) coll) eqn:X; [|reflexivity].
    exfalso. apply existsb_exists in X. destruct X as (x & Hx & Hx').
    unfold same_state_ts in Hx'. apply andb_true_iff in Hx'.
    destruct Hx' as [Hst Hts]. apply state_eqb_eq in Hst.
    apply Z.eqb_eq in Hts. exact (Hfree x Hx Hst Hts).
Qed.

Lemma delete_one_absent u coll :
  ~ In u (map uri coll) -> delete_one u coll = coll.
Proof.
  induction coll as [|d coll IH]; simpl; intros H; [reflexivity|].
  destruct (same_uri u d) eqn:E.
  - apply same_uri_true in E. tauto.
  - rewrite IH; tauto.
Qed.

(** With [idx_uri] in force, [delete_one] leaves no document of that
    uri and touches no other. *)
Lemma delete_one_unique u coll :
  NoDup (map uri coll) ->
  delete_one u coll = filter (fun d => negb (same_uri u d)) coll.
Proof.
  induction coll as [|d coll IH]; simpl; intros Hn; [reflexivity|].
  inversion Hn as [|? ? Hd Hn']; subst.
  destruct (same_uri u d) eqn:E; simpl.
  - apply same_uri_true in E. subst u.
    symmetry. apply forallb_filter_id. apply forallb_forall.
    intros x Hx. apply negb_true_iff. apply same_uri_false.
    intros Heq. apply Hd. rewrite <- Heq. now apply in_map.
  - now rewrite IH.
Qed.

Lemma find_uri_filter_out u coll :
  find_uri u (filter (fun d => negb (same_uri u d)) coll) = [].
Proof.
  unfold find_uri. induction coll as [|d coll IH]; simpl; [reflexivity|].
  destruct (same_uri u d) eqn:E; simpl; [assumption|].
  now rewrite E.
Qed.
End QueueWrites.

Lemma round_trip_quiet {A} (f : M A) w :
  quiet w -> (round_trip ;; f) w = f w.
Proof. unfold quiet, bind, round_trip. now intros ->. Qed.

Lemma action_insert_one_new r coll :
  ~ In r coll -> Action.insert_one r coll = Some (coll ++ [r]).
Proof.
  intros H. unfold Action.insert_one.
  destruct (existsb (ActionDoc.eqb r) coll) eqn:E; [|reflexivity].
  exfalso. apply existsb_exists in E. destruct E as (x & Hx & Hx').
  apply ActionDoc_eqb_eq in Hx'. now subst x.
Qed.

Lemma is_enqueued_quiet u w :
  quiet w ->
  is_enqueued u w =
  (Return (negb (Nat.eqb (List.length (Queue.find_uri u (queue w))) 0)), w).
Proof.
  intros Hq. unfold is_enqueued, queue_count_uri.
  unfold bind at 1. rewrite (round_trip_quiet _ w Hq). unfold ret.
  now destruct (List.length (Queue.find_uri u (queue w))).
Qed.

Lemma enqueue_present u w :
  quiet w -> In u (map QueueDoc.uri (queue w)) ->
  enqueue u w = (Return (Some false), w).
Proof.
  intros Hq Hin. unfold enqueue.
  rewrite (bind_Return _ _ _ _ _ (is_enqueued_quiet u w Hq)).
  destruct (Queue.find_uri u (queue w)) eqn:E.
  - apply QueueWrites.find_uri_nil in E. contradiction.
  - reflexivity.
Qed.

Lemma enqueue_absent u w :
  quiet w -> ~ In u (map QueueDoc.uri (queue w)) ->
  (forall d, In d (queue w) -> QueueDoc.state d = Wait ->
             QueueDoc.ts d <> clock w) ->
  ~ In (ActionDoc.mk u (clock w) ActEnqueue) (action w) ->
  enqueue u w =
  (Return None,
   set_action (action w ++ [ActionDoc.mk u (clock w) ActEnqueue])
     (set_queue (queue w ++ [QueueDoc.mk u (clock w) Wait]) w)).
Proof.
  intros Hq Hu Ht Ha. unfold enqueue.
  rewrite (bind_Return _ _ _ _ _ (is_enqueued_quiet u w Hq)).
  apply QueueWrites.find_uri_nil in Hu as E. rewrite E. simpl.
  unfold dt_now, queue_insert_one, action_insert_one.
  unfold bind at 1. unfold bind at 1.
  rewrite (round_trip_quiet _ w Hq).
  rewrite QueueWrites.insert_one_new by (simpl; auto).
  unfold bind at 1. rewrite round_trip_quiet by exact Hq. simpl.
  rewrite action_insert_one_new by exact Ha.
  reflexivity.
Qed.

(** Whatever the schedule, [enqueue] never answers [True]. *)
Lemma enqueue_never_true u w r w' :
  enqueue u w = (Return r, w') -> r <> Some true.
Proof.
  unfold enqueue. intros H.
  apply bind_inv in H. destruct H as [(p & w1 & _ & H)|(e & _ & H)];
    [|discriminate].
  destruct p.
  - inversion H. discriminate.
  - repeat (apply bind_inv in H;
            destruct H as [(? & ? & _ & H)|(e & _ & H)]; [|discriminate]).
    inversion H. discriminate.
Qed.

(** ** The polling loop, sequentially *)

Lemma mutex_acquire_eq w :
  mutex_acquire 3 w = (Return (negb (mutex w)), after_acquire w).
Proof. reflexivity. Qed.

Lemma after_acquire_queue w : queue (after_acquire w) = queue w.
Proof. reflexivity. Qed.

Lemma after_acquire_action w : action (after_acquire w) = action w.
Proof. reflexivity. Qed.

Lemma after_acquire_schedule w : schedule (after_acquire w) = schedule w.
Proof. reflexivity. Qed.

Lemma after_acquire_logger w : _logger (after_acquire w) = _logger w.
Proof. reflexivity. Qed.

Lemma after_acquire_mutex w : mutex (after_acquire w) = true.
Proof. reflexivity. Qed.

Lemma after_acquire_trace w :
  trace (after_acquire w) = trace w ++ [EvAcquire (negb (mutex w))].
Proof. reflexivity. Qed.

Lemma after_acquire_clock w :
  clock (after_acquire w) =
  if mutex w then clock w + 3 * second else clock w.
Proof.
  unfold after_acquire, mutex_acquire. simpl. destruct (mutex w); simpl; lia.
Qed.

Lemma dequeue_poll_S n now :
  dequeue_poll (S n) now =
  (mutex_acquire 3 ;;
   entries <- queue_find_oldest_wait ;;
   match entries with
   | [] => dequeue_poll n (now + 1 * second)
   | entry :: _ => ret (Some entry, now)
   end).
Proof. reflexivity. Qed.

Lemma poll_hit_quiet n now w e l :
  quiet w ->
  Queue.sort_ts (Queue.find_state Wait (queue w)) = e :: l ->
  dequeue_poll (S n) now w =
  (Return (Some e, now), emit (EvFind true) (after_acquire w)).
Proof.
  intros Hq Hs. simpl.
  rewrite (bind_Return _ _ _ _ _ (mutex_acquire_eq w)).
  unfold queue_find_oldest_wait. unfold bind at 1.
  rewrite round_trip_quiet
    by (unfold quiet; now rewrite after_acquire_schedule).
  rewrite after_acquire_queue, Hs. reflexivity.
Qed.

Lemma poll_miss_once n now w :
  quiet w ->
  Queue.find_state Wait (queue w) = [] ->
  dequeue_poll (S n) now w = dequeue_poll n (now + 1 * second) (after_miss w).
Proof.
  intros Hq Hs. simpl.
  rewrite (bind_Return _ _ _ _ _ (mutex_acquire_eq w)).
  unfold queue_find_oldest_wait. unfold bind at 1.
  rewrite round_trip_quiet
    by (unfold quiet; now rewrite after_acquire_schedule).
  rewrite after_acquire_queue, Hs. reflexivity.
Qed.

Lemma after_miss_queue w : queue (after_miss w) = queue w.
Proof. reflexivity. Qed.

Lemma after_miss_action w : action (after_miss w) = action w.
Proof. reflexivity. Qed.

Lemma after_miss_schedule w : schedule (after_miss w) = schedule w.
Proof. reflexivity. Qed.

Lemma after_miss_logger w : _logger (after_miss w) = _logger w.
Proof. reflexivity. Qed.

Lemma after_miss_mutex w : mutex (after_miss w) = true.
Proof. reflexivity. Qed.

Lemma after_misses_queue n w : queue (after_misses n w) = queue w.
Proof.
  revert w. induction n as [|n IH]; intros w; simpl; [reflexivity|].
  now rewrite IH, after_miss_queue.
Qed.

Lemma after_misses_action n w : action (after_misses n w) = action w.
Proof.
  revert w. induction n as [|n IH]; intros w; simpl; [reflexivity|].
  now rewrite IH, after_miss_action.
Qed.

Lemma after_misses_schedule n w : schedule (after_misses n w) = schedule w.
Proof.
  revert w. induction n as [|n IH]; intros w; simpl; [reflexivity|].
  now rewrite IH, after_miss_schedule.
Qed.

Lemma after_misses_logger n w : _logger (after_misses n w) = _logger w.
Proof.
  revert w. induction n as [|n IH]; intros w; simpl; [reflexivity|].
  now rewrite IH, after_miss_logger.
Qed.

Lemma after_misses_mutex n w : mutex (after_misses (S n) w) = true.
Proof.
  revert w. induction n as [|n IH]; intros w.
  - reflexivity.
  - exact (IH (after_miss w)).
Qed.

Lemma poll_miss_quiet n now w :
  quiet w ->
  Queue.find_state Wait (queue w) = [] ->
  dequeue_poll n now w =
  (Return (None, now + Z.of_nat n * second), after_misses n w).
Proof.
  revert now w. induction n as [|n IH]; intros now w Hq Hs.
  - simpl. unfold ret. f_equal. f_equal. f_equal. lia.
  - rewrite poll_miss_once by assumption.
    rewrite IH.
    + simpl after_misses. f_equal. f_equal. f_equal. lia.
    + unfold quiet. now rewrite after_miss_schedule.
    + now rewrite after_miss_queue.
Qed.

Lemma misses_app a b : misses (a ++ b) = (misses a + misses b)%nat.
Proof. unfold misses. now rewrite filter_app, length_app. Qed.

Lemma attempts_app a b : attempts (a ++ b) = (attempts a + attempts b)%nat.
Proof. unfold attempts. now rewrite filter_app, length_app. Qed.

Lemma after_misses_trace n w :
  exists tr, trace (after_misses n w) = trace w ++ tr /\
             attempts tr = n /\ misses tr = n /\
             ~ In EvRelease tr /\
             (forall u x, ~ In (EvFlip u x) tr).
Proof.
  revert w. induction n as [|n IH]; intros w; simpl.
  - exists []. rewrite app_nil_r. repeat split; auto.
  - destruct (IH (after_miss w)) as (tr & Ht & Ha & Hm & Hr & Hf).
    exists ([EvAcquire (negb (mutex w)); EvFind false] ++ tr).
    rewrite Ht.
    change (trace (after_miss w))
      with ((trace w ++ [EvAcquire (negb (mutex w))]) ++ [EvFind false]).
    rewrite <- !app_assoc. simpl.
    repeat split.
    + unfold attempts in *. simpl. now rewrite Ha.
    + unfold misses in *. simpl. now rewrite Hm.
    + intros [H|[H|H]]; try discriminate. contradiction.
    + intros u x [H|[H|H]]; try discriminate. now apply (Hf u x).
Qed.

Arguments after_misses : simpl never.
Arguments after_acquire : simpl never.

(** ** [dequeue], sequentially *)

Lemma mutex_release_locked w :
  mutex w = true ->
  mutex_release w = (Return tt, emit EvRelease (set_mutex false w)).
Proof. unfold mutex_release. now intros ->. Qed.

Lemma queue_update_one_quiet u s w :
  quiet w ->
  queue_update_one u s w =
  match Queue.update_one u s (queue w) with
  | Some q => (Return tt, emit (EvFlip u (clock w)) (set_queue q w))
  | None => (Raise DuplicateKeyError, w)
  end.
Proof. intros Hq. unfold queue_update_one. now rewrite round_trip_quiet. Qed.

Lemma action_insert_one_quiet r w :
  quiet w ->
  action_insert_one r w =
  match Action.insert_one r (action w) with
  | Some a => (Return tt, set_action a w)
  | None => (Raise DuplicateKeyError, w)
  end.
Proof. intros Hq. unfold action_insert_one. now rewrite round_trip_quiet. Qed.

Lemma dequeue_hit_quiet w e l q :
  quiet w ->
  Queue.sort_ts (Queue.find_state Wait (queue w)) = e :: l ->
  Queue.update_one (QueueDoc.uri e) Scrape (queue w) = Some q ->
  ~ In (ActionDoc.mk (QueueDoc.uri e) (clock w) ActScrape) (action w) ->
  dequeue w =
  (Return (Some (QueueDoc.uri e)),
   after_hit (QueueDoc.uri e) q
     (ActionDoc.mk (QueueDoc.uri e) (clock w) ActScrape) w).
Proof.
  intros Hq Hs Hu Ha. unfold dequeue, dt_now, after_hit.
  unfold bind at 1.
  unfold bind at 1. rewrite (poll_hit_quiet 9 (clock w) w e l Hq Hs).
  assert (Hq1 : quiet (emit (EvFind true) (after_acquire w))) by exact Hq.
  unfold bind at 1. rewrite (queue_update_one_quiet _ _ _ Hq1).
  change (queue (emit (EvFind true) (after_acquire w))) with (queue w).
  rewrite Hu.
  unfold bind at 1. rewrite mutex_release_locked by reflexivity.
  unfold bind at 1. rewrite action_insert_one_quiet by exact Hq.
  match goal with
  | |- context [Action.insert_one ?r (action ?x)] =>
      change (action x) with (action w)
  end.
  rewrite (action_insert_one_new _ _ Ha).
  reflexivity.
Qed.

Lemma queue_count_wait_quiet w :
  quiet w ->
  queue_count_wait w =
  (Return (List.length (Queue.find_state Wait (queue w))), w).
Proof. intros Hq. unfold queue_count_wait. now rewrite round_trip_quiet. Qed.

Lemma queue_count_uri_quiet u w :
  quiet w ->
  queue_count_uri u w = (Return (List.length (Queue.find_uri u (queue w))), w).
Proof. intros Hq. unfold queue_count_uri. now rewrite round_trip_quiet. Qed.

Lemma queue_aggregate_states_quiet w :
  quiet w ->
  queue_aggregate_states w =
  (Return [(Wait, List.length (Queue.find_state Wait (queue w)));
           (Scrape, List.length (Queue.find_state Scrape (queue w)))], w).
Proof.
  intros Hq. unfold queue_aggregate_states. now rewrite round_trip_quiet.
Qed.

Lemma dequeue_miss_quiet w :
  quiet w ->
  Queue.find_state Wait (queue w) = [] ->
  dequeue w =
  (match _logger w with
   | Some _ => Raise EmptyQueueException
   | None => Raise AttributeError
   end, after_empty w).
Proof.
  intros Hq Hs. unfold dequeue, dt_now, after_empty.
  unfold bind at 1.
  unfold bind at 1. rewrite (poll_miss_quiet 10 (clock w) w Hq Hs).
  pose proof (after_misses_mutex 9 w) as Hm.
  pose proof (after_misses_schedule 10 w) as Hsch.
  pose proof (after_misses_queue 10 w) as Hqu.
  pose proof (after_misses_logger 10 w) as Hl.
  generalize dependent (after_misses 10 w). intros w1 Hm Hsch Hqu Hl.
  unfold bind at 1.
  rewrite (mutex_release_locked _ Hm).
  assert (Hq' : quiet (emit EvRelease (set_mutex false w1)))
    by (unfold quiet; cbn; congruence).
  unfold bind at 1. rewrite (queue_count_wait_quiet _ Hq').
  cbn [queue emit set_mutex]. rewrite Hqu, Hs.
  cbn [List.length].
  unfold bind at 1.
  assert (Hq'' : quiet (emit (EvRecount 0)
                   (emit EvRelease (set_mutex false w1))))
    by (unfold quiet; cbn; congruence).
  unfold bind at 1. rewrite (queue_aggregate_states_quiet _ Hq'').
  unfold bind, self_logger_debug. cbn [_logger emit set_mutex].
  rewrite Hl.
  destruct (_logger w); reflexivity.
Qed.

Lemma NoDup_map_eq {A B} (f : A -> B) (l : list A) a b :
  NoDup (map f l) -> In a l -> In b l -> f a = f b -> a = b.
Proof.
  induction l as [|d l IH]; [contradiction|].
  simpl. intros Hn Ha Hb Hf. inversion Hn as [|? ? Hd Hn']; subst.
  destruct Ha as [->|Ha], Hb as [->|Hb]; auto.
  - exfalso. apply Hd. rewrite Hf. now apply in_map.
  - exfalso. apply Hd. rewrite <- Hf. now apply in_map.
Qed.

Lemma find_state_In s d coll :
  In d (Queue.find_state s coll) <-> In d coll /\ QueueDoc.state d = s.
Proof.
  unfold Queue.find_state. rewrite filter_In, state_eqb_eq. tauto.
Qed.

(** With [idx_ts] in force, the cursor of [dequeue] starts with the
    waiting entry of least timestamp. *)
Lemma oldest_first coll e :
  NoDup (map idx_ts_key coll) ->
  In e coll -> QueueDoc.state e = Wait ->
  least e (Queue.find_state Wait coll) ->
  exists l, Queue.sort_ts (Queue.find_state Wait coll) = e :: l.
Proof.
  intros Hn Hin Hst Hmin.
  destruct (Queue.sort_ts (Queue.find_state Wait coll)) as [|h l] eqn:E.
  - apply QueueFacts.sort_ts_nil in E.
    assert (In e (Queue.find_state Wait coll)) by now apply find_state_In.
    rewrite E in H. contradiction.
  - exists l. f_equal.
    pose proof (QueueFacts.sort_ts_hd _ _ _ E) as Hleast.
    assert (Hh : In h (Queue.find_state Wait coll)).
    { apply QueueFacts.sort_ts_In. rewrite E. now left. }
    assert (QueueDoc.ts h <= QueueDoc.ts e)
      by (apply Hleast; now apply find_state_In).
    specialize (Hmin h Hh).
    apply find_state_In in Hh. destruct Hh as [Hh Hhs].
    apply (NoDup_map_eq idx_ts_key coll); auto.
    unfold idx_ts_key. rewrite Hhs, Hst. f_equal. lia.
Qed.

(** A sequential [dequeue] on a store that has waiting entries: it
    answers the uri of the one with the least timestamp, and in the queue
    collection that document alone has changed. *)
Lemma dequeue_takes_oldest w e :
  quiet w ->
  indexed (queue w) ->
  In e (queue w) -> QueueDoc.state e = Wait ->
  least e (Queue.find_state Wait (queue w)) ->
  (forall x, In x (queue w) -> QueueDoc.state x = Scrape ->
             QueueDoc.ts x <> QueueDoc.ts e) ->
  ~ In (ActionDoc.mk (QueueDoc.uri e) (clock w) ActScrape) (action w) ->
  exists pre post w',
    dequeue w = (Return (Some (QueueDoc.uri e)), w') /\
    queue w = pre ++ e :: post /\
    queue w' = pre ++ QueueDoc.with_state Scrape e :: post /\
    action w' =
      action w ++ [ActionDoc.mk (QueueDoc.uri e) (clock w) ActScrape] /\
    mutex w' = false /\ quiet w' /\ _logger w' = _logger w /\
    clock w <= clock w'.
Proof.
  intros Hq [Hu Ht] Hin Hst Hmin Hfree Ha.
  destruct (oldest_first _ _ Ht Hin Hst Hmin) as (l & Hs).
  destruct (QueueWrites.set_first_unique e Scrape _ Hu Hin)
    as (pre & post & Hsplit & Hset).
  assert (Hup : Queue.update_one (QueueDoc.uri e) Scrape (queue w) =
                Some (pre ++ QueueDoc.with_state Scrape e :: post)).
  { rewrite <- Hset. apply QueueWrites.update_one_flip; auto.
    rewrite Hst. discriminate. }
  exists pre, post. eexists.
  split; [apply (dequeue_hit_quiet w e l _ Hq Hs Hup Ha)|].
  unfold after_hit, quiet. cbn.
  rewrite after_acquire_schedule, after_acquire_logger, after_acquire_clock.
  repeat split; auto.
  destruct (mutex w); unfold second; lia.
Qed.

(** ** First in, first out *)

Lemma NoDup_map_snoc {A B} (f : A -> B) (l : list A) x :
  NoDup (map f l) -> ~ In (f x) (map f l) -> NoDup (map f (l ++ [x])).
Proof.
  intros Hn Hx. rewrite map_app. simpl.
  apply NoDup_app; auto.
  - constructor; [intros []|constructor].
  - intros y Hy [<-|[]]. contradiction.
Qed.

Lemma StronglySorted_snoc {A} (R : A -> A -> Prop) l x :
  StronglySorted R l -> (forall y, In y l -> R y x) ->
  StronglySorted R (l ++ [x]).
Proof.
  induction 1 as [|a l Hs IH Ha]; simpl; intros Hx.
  - constructor; constructor.
  - constructor.
    + apply IH. intros y Hy. apply Hx. now right.
    + apply Forall_app. split; [assumption|].
      constructor; [|constructor]. apply Hx. now left.
Qed.

Lemma lined_up_enqueue w t u :
  lined_up w -> older_than t w ->
  ~ In u (map QueueDoc.uri (queue w)) ->
  exists w',
    enqueue u (set_clock t w) = (Return None, w') /\
    lined_up w' /\
    queue w' = queue w ++ [QueueDoc.mk u t Wait] /\
    action w' = action w ++ [ActionDoc.mk u t ActEnqueue].
Proof.
  intros L [Oq Oa] Hu.
  eexists. split.
  - apply enqueue_absent.
    + exact (lu_quiet _ L).
    + exact Hu.
    + simpl. intros d Hd _. specialize (Oq d Hd). lia.
    + simpl. intros Hin. specialize (Oa _ Hin). simpl in Oa. lia.
  - simpl. split; [|split; reflexivity].
    constructor; simpl.
    + exact (lu_quiet _ L).
    + apply NoDup_map_snoc; [exact (lu_uri _ L)|exact Hu].
    + apply NoDup_map_snoc; [exact (lu_ts _ L)|]. simpl.
      intros Hin. apply in_map_iff in Hin. destruct Hin as (d & Hd & Hin).
      specialize (Oq d Hin). lia.
    + unfold Queue.find_state. rewrite filter_app. simpl.
      apply StronglySorted_snoc; [exact (lu_order _ L)|].
      intros y Hy. apply filter_In in Hy. simpl. now apply Oq.
    + intros d Hd. apply in_app_iff in Hd. destruct Hd as [Hd|[<-|[]]].
      * specialize (Oq d Hd). lia.
      * simpl. lia.
    + intros d r Hd Hs Hr Hur Har.
      apply in_app_iff in Hr. destruct Hr as [Hr|[<-|[]]];
        [|discriminate].
      apply in_app_iff in Hd. destruct Hd as [Hd|[<-|[]]].
      * now apply (lu_log _ L d r).
      * simpl. now apply Oa.
Qed.

Lemma lined_up_dequeue w e rest :
  lined_up w ->
  Queue.find_state Wait (queue w) = e :: rest ->
  exists w',
    dequeue w = (Return (Some (QueueDoc.uri e)), w') /\
    lined_up w' /\
    Queue.find_state Wait (queue w') = rest.
Proof.
  intros L Hw.
  assert (He : In e (queue w) /\ QueueDoc.state e = Wait).
  { apply find_state_In. rewrite Hw. now left. }
  destruct He as [Hin Hst].
  pose proof (lu_order _ L) as Hord. rewrite Hw in Hord.
  inversion Hord as [|? ? Hrest Hlt]; subst.
  rewrite Forall_forall in Hlt.
  assert (Hmin : least e (Queue.find_state Wait (queue w))).
  { intros x Hx'.
    rewrite Hw in Hx'. destruct Hx' as [<-|Hx']; [lia|].
    specialize (Hlt x Hx'). lia. }
  assert (Hidx : indexed (queue w)).
  { split; [exact (lu_uri _ L)|].
    apply (NoDup_map_inv snd). rewrite map_map. exact (lu_ts _ L). }
  assert (Hfree : forall x, In x (queue w) -> QueueDoc.state x = Scrape ->
                            QueueDoc.ts x <> QueueDoc.ts e).
  { intros x Hx Hxs Hts.
    assert (x = e) by (apply (NoDup_map_eq QueueDoc.ts (queue w)); auto;
                       exact (lu_ts _ L)).
    subst x. congruence. }
  assert (Ha : ~ In (ActionDoc.mk (QueueDoc.uri e) (clock w) ActScrape)
                    (action w)).
  { intros Hr.
    pose proof (lu_log _ L e _ Hin Hst Hr eq_refl eq_refl) as H1.
    pose proof (lu_clock _ L e Hin) as H2. simpl in H1. lia. }
  destruct (dequeue_takes_oldest w e (lu_quiet _ L) Hidx
              Hin Hst Hmin Hfree Ha)
    as (pre & post & w' & Hd & Hq & Hq' & Ha' & _ & Hquiet & _ & Hclk).
  exists w'. split; [exact Hd|].
  pose proof (lu_uri _ L) as Hu. rewrite Hq in Hu.
  (* no document before [e] is waiting *)
  assert (Hpre : Queue.find_state Wait pre = []).
  { destruct (Queue.find_state Wait pre) as [|h t] eqn:E; [reflexivity|].
    exfalso. rewrite Hq in Hw. unfold Queue.find_state in Hw, E.
    rewrite filter_app, E in Hw. simpl in Hw. inversion Hw; subst h.
    assert (In e pre).
    { assert (In e (filter (fun d => state_eqb (QueueDoc.state d) Wait) pre))
        by (rewrite E; now left).
      apply filter_In in H. tauto. }
    rewrite map_app in Hu. simpl in Hu.
    apply NoDup_remove_2 in Hu. apply Hu. apply in_app_iff. left.
    now apply in_map. }
  assert (Hpost : Queue.find_state Wait post = rest).
  { rewrite Hq in Hw. unfold Queue.find_state in *.
    rewrite filter_app, Hpre in Hw. simpl in Hw.
    rewrite Hst in Hw. simpl in Hw. now inversion Hw. }
  assert (Hrest' : Queue.find_state Wait (queue w') = rest).
  { rewrite Hq'. unfold Queue.find_state in *.
    rewrite filter_app, Hpre. simpl. exact Hpost. }
  split; [|exact Hrest'].
  assert (Hmap : forall (B : Type) (f : QueueDoc.t -> B),
             f (QueueDoc.with_state Scrape e) = f e ->
             map f (queue w') = map f (queue w)).
  { intros B f Hf. rewrite Hq, Hq', !map_app. simpl. now rewrite Hf. }
  constructor.
  - exact Hquiet.
  - rewrite (Hmap _ QueueDoc.uri eq_refl). exact (lu_uri _ L).
  - rewrite (Hmap _ QueueDoc.ts eq_refl). exact (lu_ts _ L).
  - rewrite Hrest'. exact Hrest.
  - intros d Hd'.
    assert (In (QueueDoc.ts d) (map QueueDoc.ts (queue w')))
      by now apply in_map.
    rewrite (Hmap _ QueueDoc.ts eq_refl) in H.
    apply in_map_iff in H. destruct H as (d0 & Hts & Hd0).
    pose proof (lu_clock _ L d0 Hd0). lia.
  - intros d r Hd' Hds Hr Hur Har.
    assert (Hdw : In d (queue w) /\ QueueDoc.uri d <> QueueDoc.uri e).
    { rewrite Hq' in Hd'. rewrite Hq.
      rewrite map_app in Hu. simpl in Hu. apply NoDup_remove_2 in Hu.
      apply in_app_iff in Hd'. destruct Hd' as [Hd'|[<-|Hd']].
      - split; [apply in_app_iff; now left|].
        intros Heq. apply Hu. apply in_app_iff. left. rewrite <- Heq.
        now apply in_map.
      - discriminate.
      - split; [apply in_app_iff; right; now right|].
        intros Heq. apply Hu. apply in_app_iff. right. rewrite <- Heq.
        now apply in_map. }
    destruct Hdw as [Hdw Hne].
    rewrite Ha' in Hr. apply in_app_iff in Hr.
    destruct Hr as [Hr|[<-|[]]].
    + now apply (lu_log _ L d r).
    + simpl in Hur. congruence.
Qed.

Lemma dequeue_times_fifo n w :
  lined_up w ->
  (n <= List.length (Queue.find_state Wait (queue w)))%nat ->
  fst (dequeue_times n w) =
  map (fun d => Return (Some (QueueDoc.uri d)))
      (firstn n (Queue.find_state Wait (queue w))).
Proof.
  revert w. induction n as [|n IH]; intros w L Hn; [reflexivity|].
  destruct (Queue.find_state Wait (queue w)) as [|e rest] eqn:E;
    [simpl in Hn; lia|].
  destruct (lined_up_dequeue w e rest L E) as (w' & Hd & L' & E').
  simpl. rewrite Hd.
  specialize (IH w' L'). rewrite E' in IH.
  destruct (dequeue_times n w') as [rs w2]. simpl in *.
  rewrite IH by lia. reflexivity.
Qed.

Lemma enqueue_each_lined_up plan : forall w,
  lined_up w ->
  StronglySorted Z.lt (map fst plan) ->
  (forall t, In t (map fst plan) -> older_than t w) ->
  NoDup (map snd plan) ->
  (forall u, In u (map snd plan) -> ~ In u (map QueueDoc.uri (queue w))) ->
  fst (enqueue_each plan w) = map (fun _ => Return None) plan /\
  lined_up (snd (enqueue_each plan w)) /\
  Queue.find_state Wait (queue (snd (enqueue_each plan w))) =
    Queue.find_state Wait (queue w) ++
    map (fun p => QueueDoc.mk (snd p) (fst p) Wait) plan.
Proof.
  induction plan as [|[t u] plan IH]; intros w L Hs Hold Hn Hu.
  - simpl. rewrite app_nil_r. auto.
  - simpl in Hs, Hn. inversion Hs as [|? ? Hs' Hlt]; subst.
    inversion Hn as [|? ? Hnu Hn']; subst.
    rewrite Forall_forall in Hlt.
    destruct (lined_up_enqueue w t u L (Hold t (or_introl eq_refl))
                (Hu u (or_introl eq_refl)))
      as (w' & He & L' & Hq & Ha).
    cbn [enqueue_each]. rewrite He.
    assert (Hold' : forall t', In t' (map fst plan) -> older_than t' w').
    { intros t' Ht'. destruct (Hold t' (or_intror Ht')) as [Oq Oa].
      specialize (Hlt t' Ht'). split.
      - intros d Hd. rewrite Hq in Hd. apply in_app_iff in Hd.
        destruct Hd as [Hd|[<-|[]]]; [now apply Oq|exact Hlt].
      - intros r Hr. rewrite Ha in Hr. apply in_app_iff in Hr.
        destruct Hr as [Hr|[<-|[]]]; [now apply Oa|exact Hlt]. }
    assert (Hu' : forall u', In u' (map snd plan) ->
                             ~ In u' (map QueueDoc.uri (queue w'))).
    { intros u' Hu' Hin. rewrite Hq, map_app in Hin.
      apply in_app_iff in Hin. destruct Hin as [Hin|[<-|[]]].
      - exact (Hu u' (or_intror Hu') Hin).
      - contradiction. }
    destruct (IH w' L' Hs' Hold' Hn' Hu') as (Hr & L2 & Hw).
    destruct (enqueue_each plan w') as [rs w2]. simpl in *.
    rewrite Hr. split; [reflexivity|]. split; [exact L2|].
    rewrite Hw, Hq. unfold Queue.find_state. rewrite filter_app. simpl.
    now rewrite <- app_assoc.
Qed.

(** ** Dates to the millisecond *)

Lemma ms_lt a b : ms a < ms b -> a < b.
Proof.
  unfold ms. intros H.
  destruct (Z_lt_le_dec a b) as [Hlt|Hle]; [exact Hlt|].
  apply (Z.div_le_mono _ _ 1000) in Hle; lia.
Qed.

Lemma ms_le a b : a <= b -> ms a <= ms b.
Proof. unfold ms. intros H. apply Z.div_le_mono; lia. Qed.

Lemma before_ms_older t w : before_ms t w -> older_than t w.
Proof.
  intros [Hq Ha]. split.
  - intros d Hd. apply ms_lt. now apply Hq.
  - intros r Hr. apply ms_lt. now apply Ha.
Qed.

Lemma StronglySorted_ms l :
  StronglySorted (fun t t' => ms t < ms t') l -> StronglySorted Z.lt l.
Proof.
  induction 1 as [|t l Hs IH Hall]; constructor; [exact IH|].
  rewrite Forall_forall in *. intros x Hx. apply ms_lt. now apply Hall.
Qed.

(** Where nothing waits, [idx_ts] tells the entries apart by their dates
    alone. *)
Lemma idle_dates_apart coll :
  Queue.find_state Wait coll = [] ->
  NoDup (map idx_ts_key coll) -> NoDup (map QueueDoc.ts coll).
Proof.
  induction coll as [|d coll IH]; simpl; intros He Hn; [constructor|].
  destruct (state_eqb (QueueDoc.state d) Wait) eqn:Hd; [discriminate|].
  inversion Hn as [|? ? Hx Hn']; subst.
  constructor; [|now apply IH].
  intros Hin. apply Hx.
  apply in_map_iff in Hin. destruct Hin as (x & Hts & Hin).
  apply in_map_iff. exists x. split; [|exact Hin].
  assert (Hxs : QueueDoc.state x = Scrape).
  { destruct (QueueDoc.state x) eqn:E; [|reflexivity].
    assert (Hw : In x (Queue.find_state Wait coll))
      by (apply find_state_In; auto).
    rewrite He in Hw. contradiction. }
  unfold idx_ts_key. rewrite Hxs, Hts.
  destruct (QueueDoc.state d); [discriminate|reflexivity].
Qed.

(** A store where nothing waits and whose dates are past is lined up
    when the clock reads [t]. *)
Lemma lined_up_idle w t :
  quiet w -> indexed (queue w) ->
  Queue.find_state Wait (queue w) = [] ->
  before_ms t w -> lined_up (set_clock t w).
Proof.
  intros Hq [Hu Ht] He [Bq Ba].
  constructor; cbn [queue action clock set_clock].
  - exact Hq.
  - exact Hu.
  - now apply idle_dates_apart.
  - rewrite He. constructor.
  - intros d Hd. apply Z.lt_le_incl, ms_lt. now apply Bq.
  - intros d r Hd Hs. exfalso.
    assert (Hw : In d (Queue.find_state Wait (queue w)))
      by (apply find_state_In; auto).
    rewrite He in Hw. contradiction.
Qed.

(** C1 (as the code has it).  A sequential [dequeue] on a store that has
    waiting entries answers the uri of the waiting entry with the least
    enqueue timestamp, and in the queue collection exactly that document
    changes, its state becoming ["scrape"], provided the unique indices
    admit the two writes of [dequeue]: no entry being scraped bears, to
    the millisecond, the timestamp of the entry taken, and no ["scrape"]
    record of its uri is stamped in the millisecond of the call (first
    part).  Hence uris enqueued one after the other, each in a later
    millisecond than the one before and than every date in the store,
    into a store where nothing waits, come back from as many sequential
    [dequeue] calls in exactly that order (second part). *)
Theorem dequeue_oldest_first :
  (forall w e,
      quiet w ->
      indexed (queue w) ->
      In e (queue w) -> QueueDoc.state e = Wait ->
      least e (Queue.find_state Wait (queue w)) ->
      (forall x, In x (queue w) -> QueueDoc.state x = Scrape ->
                 ms (QueueDoc.ts x) <> ms (QueueDoc.ts e)) ->
      (forall r, In r (action w) -> ActionDoc.uri r = QueueDoc.uri e ->
                 ActionDoc.act r = ActScrape ->
                 ms (ActionDoc.ts r) <> ms (clock w)) ->
      exists pre post w',
        dequeue w = (Return (Some (parse_url (QueueDoc.uri e))), w') /\
        queue w = pre ++ e :: post /\
        queue w' = pre ++ QueueDoc.with_state Scrape e :: post) /\
  (forall w plan,
      quiet w ->
      indexed (queue w) ->
      Queue.find_state Wait (queue w) = [] ->
      StronglySorted (fun t t' => ms t < ms t') (map fst plan) ->
      (forall t, In t (map fst plan) -> before_ms t w) ->
      NoDup (map snd plan) ->
      (forall u, In u (map snd plan) ->
                 ~ In u (map QueueDoc.uri (queue w))) ->
      fst (enqueue_each plan w) = map (fun _ => Return None) plan /\
      fst (dequeue_times (List.length plan) (snd (enqueue_each plan w))) =
        map (fun p => Return (Some (parse_url (snd p)))) plan).
Proof.
  split.
  - intros w e Hq Hi Hin Hst Hleast Hfree Ha.
    destruct (dequeue_takes_oldest w e Hq Hi Hin Hst Hleast) as
      (pre & post & w' & Hd & Hs & Hs' & _).
    + intros x Hx Hxs Heq. apply (Hfree x Hx Hxs). now rewrite Heq.
    + intros Hr. now apply (Ha _ Hr).
    + now exists pre, post, w'.
  - intros w plan Hq Hi Hempty Hs Hold Hn Hu.
    destruct plan as [|[t u] plan]; [split; reflexivity|].
    assert (L : lined_up (set_clock t w)).
    { apply lined_up_idle; auto. apply Hold. now left. }
    destruct (enqueue_each_lined_up ((t, u) :: plan) (set_clock t w) L)
      as (Hr & L' & Hw).
    + now apply StronglySorted_ms.
    + intros t' Ht'. exact (before_ms_older t' w (Hold t' Ht')).
    + exact Hn.
    + exact Hu.
    + change (enqueue_each ((t, u) :: plan) (set_clock t w))
        with (enqueue_each ((t, u) :: plan) w) in Hr, L', Hw.
      change (queue (set_clock t w)) with (queue w) in Hw.
      split; [exact Hr|].
      rewrite dequeue_times_fifo; [|exact L'|].
      * rewrite Hw, Hempty. cbn [app].
        rewrite firstn_all2 by (rewrite length_map; apply le_n).
        rewrite map_map. reflexivity.
      * rewrite Hw, Hempty. cbn [app]. rewrite length_map. apply le_n.
Qed.

Ltac distinct :=
  repeat (constructor; [simpl; intuition discriminate|]); constructor.

Lemma lined_up_fresh now : lined_up (fresh now).
Proof.
  constructor; simpl; try constructor; try reflexivity; try contradiction.
Qed.

Lemma dequeue_oldest_first_witness :
  (exists pre post w',
      dequeue working_store =
        (Return (Some (parse_url (QueueDoc.uri entry_r))), w') /\
      queue working_store = pre ++ entry_r :: post /\
      queue w' = pre ++ QueueDoc.with_state Scrape entry_r :: post) /\
  (fst (enqueue_each plan3 (fresh 0)) = map (fun _ => Return None) plan3 /\
   fst (dequeue_times (List.length plan3) (snd (enqueue_each plan3 (fresh 0)))) =
     map (fun p => Return (Some (parse_url (snd p)))) plan3).
Proof.
  split.
  - apply (proj1 dequeue_oldest_first working_store entry_r).
    + reflexivity.
    + split; distinct.
    + simpl. auto.
    + reflexivity.
    + intros x [<-|[<-|[]]]; simpl; lia.
    + intros x [<-|[<-|[<-|[]]]]; simpl; intros; discriminate.
    + intros r [<-|[<-|[<-|[<-|[]]]]]; simpl; intros; discriminate.
  - apply (proj2 dequeue_oldest_first (fresh 0) plan3).
    + reflexivity.
    + split; constructor.
    + reflexivity.
    + simpl. repeat constructor; vm_compute; reflexivity.
    + intros t _. split; intros ? [].
    + distinct.
    + intros u _ [].
Defined.

(** C1, as stated, fails.  On the store that [enqueue("a")], [dequeue()]
    and [enqueue("b")] leave when the clock has not moved in between,
    ["b"] waits and is the oldest waiting entry; a [dequeue] finds it,
    but ["a"], being scraped, bears the same timestamp and [idx_ts]
    refuses the flip: the call raises [DuplicateKeyError], returns no
    uri, leaves the entry waiting, and keeps the lock. *)
Lemma dequeue_finds_but_raises :
  Queue.find_state Wait (queue same_instant) =
    [QueueDoc.mk "b"%string 0 Wait] /\
  trace (snd (dequeue same_instant)) =
    trace same_instant ++ [EvAcquire true; EvFind true] /\
  fst (dequeue same_instant) = Raise DuplicateKeyError /\
  fst (dequeue same_instant) <> Return (Some (parse_url "b"%string)) /\
  queue (snd (dequeue same_instant)) = queue same_instant /\
  mutex (snd (dequeue same_instant)) = true.
Proof.
  vm_compute. repeat split; try reflexivity. discriminate.
Qed.

(** ** The three operations as functions of the store, sequentially *)

Lemma enqueue_quiet u w :
  quiet w ->
  enqueue u w =
  if (0 <? List.length (Queue.find_uri u (queue w)))%nat
  then (Return (Some false), w)
  else
    match Queue.insert_one (QueueDoc.mk u (clock w) Wait) (queue w) with
    | None => (Raise DuplicateKeyError, w)
    | Some q =>
        match Action.insert_one (ActionDoc.mk u (clock w) ActEnqueue)
                                (action w) with
        | None => (Raise DuplicateKeyError, set_queue q w)
        | Some a => (Return None, set_action a (set_queue q w))
        end
    end.
Proof.
  intros Hq. unfold enqueue, is_enqueued.
  unfold bind at 1. unfold bind at 1.
  rewrite (queue_count_uri_quiet u w Hq). unfold ret at 1.
  destruct (0 <? List.length (Queue.find_uri u (queue w)))%nat;
    [reflexivity|].
  unfold dt_now, queue_insert_one, action_insert_one.
  unfold bind at 1. unfold bind at 1.
  rewrite (round_trip_quiet _ w Hq).
  destruct (Queue.insert_one _ (queue w)) as [q|]; [|reflexivity].
  unfold bind at 1. rewrite round_trip_quiet by exact Hq. simpl.
  destruct (Action.insert_one _ (action w)); reflexivity.
Qed.

(** What a producer thread does at one of our round trips is what
    [enqueue] does when run on its own. *)
Lemma produce_is_enqueue u w :
  quiet w -> produce u w = snd (enqueue u w).
Proof.
  intros Hq. rewrite (enqueue_quiet u w Hq). unfold produce.
  destruct (0 <? List.length (Queue.find_uri u (queue w)))%nat;
    [reflexivity|].
  destruct (Queue.insert_one _ (queue w)); [|reflexivity].
  destruct (Action.insert_one _ (action w)); reflexivity.
Qed.

Lemma queue_delete_one_quiet u w :
  quiet w ->
  queue_delete_one u w =
  (Return tt, set_queue (Queue.delete_one u (queue w)) w).
Proof. intros Hq. unfold queue_delete_one. now rewrite round_trip_quiet. Qed.

Lemma dequeue_finish_quiet u w :
  quiet w ->
  dequeue_finish u w =
  match Action.insert_one (ActionDoc.mk u (clock w) ActFinish) (action w) with
  | None =>
      (Raise DuplicateKeyError, set_queue (Queue.delete_one u (queue w)) w)
  | Some a =>
      (Return tt, set_action a (set_queue (Queue.delete_one u (queue w)) w))
  end.
Proof.
  intros Hq. unfold dequeue_finish, dt_now.
  unfold bind at 1.
  unfold bind at 1. rewrite (queue_count_uri_quiet u w Hq).
  unfold bind at 1. rewrite (queue_delete_one_quiet u w Hq).
  assert (Hq' : quiet (set_queue (Queue.delete_one u (queue w)) w))
    by exact Hq.
  unfold bind at 1. rewrite (queue_count_uri_quiet u _ Hq').
  unfold bind at 1. unfold logger_info, ret at 1.
  rewrite (action_insert_one_quiet _ _ Hq'). simpl.
  destruct (Action.insert_one _ (action w)); reflexivity.
Qed.



(** C6 (as the code has it).  With the unique index on [uri] in force, a
    sequential [dequeue_finish] removes the entry of the uri whatever its
    state and leaves every other entry alone; without an entry for the
    uri the queue is left as it is; afterwards [is_enqueued] answers
    [False].  All this holds of the store it leaves whether it returns
    or raises.  It returns, with the ["finish"] record appended, when the
    audit log admits the record: no ["finish"] record of this uri is
    stamped in the millisecond of the call.  When the log holds that very
    record, the insert is refused and [DuplicateKeyError] reaches the
    caller, after the entry has been removed. *)
Theorem dequeue_finish_removes w u :
  quiet w ->
  NoDup (map QueueDoc.uri (queue w)) ->
  exists r w',
    dequeue_finish u w = (r, w') /\
    queue w' = filter (fun d => negb (Queue.same_uri u d)) (queue w) /\
    (forall d, In d (queue w') <-> In d (queue w) /\ QueueDoc.uri d <> u) /\
    (~ In u (map QueueDoc.uri (queue w)) -> queue w' = queue w) /\
    is_enqueued u w' = (Return false, w') /\
    ((forall x, In x (action w) -> ActionDoc.uri x = u ->
                ActionDoc.act x = ActFinish ->
                ms (ActionDoc.ts x) <> ms (clock w)) ->
     r = Return tt /\
     action w' = action w ++ [ActionDoc.mk u (clock w) ActFinish]) /\
    (In (ActionDoc.mk u (clock w) ActFinish) (action w) ->
     r = Raise DuplicateKeyError /\ action w' = action w).
Proof.
  intros Hq Hu.
  rewrite (dequeue_finish_quiet u w Hq).
  set (q' := Queue.delete_one u (queue w)).
  assert (Hq' : q' = filter (fun d => negb (Queue.same_uri u d)) (queue w))
    by now apply QueueWrites.delete_one_unique.
  assert (Hno : ~ In u (map QueueDoc.uri (queue w)) -> q' = queue w)
    by apply QueueWrites.delete_one_absent.
  assert (Hin : forall d, In d q' <-> In d (queue w) /\ QueueDoc.uri d <> u).
  { intros d. rewrite Hq', filter_In, negb_true_iff.
    now rewrite QueueWrites.same_uri_false. }
  assert (Hgone : forall w', quiet w' -> queue w' = q' ->
                             is_enqueued u w' = (Return false, w')).
  { intros w' Hw' E. rewrite (is_enqueued_quiet u w' Hw'), E, Hq'.
    now rewrite QueueWrites.find_uri_filter_out. }
  destruct (Action.insert_one (ActionDoc.mk u (clock w) ActFinish) (action w))
    as [a|] eqn:Hi.
  - assert (Ha : a = action w ++ [ActionDoc.mk u (clock w) ActFinish]).
    { unfold Action.insert_one in Hi.
      destruct (existsb _ (action w)); congruence. }
    subst a.
    eexists. eexists. split; [reflexivity|].
    split; [exact Hq'|]. split; [exact Hin|]. split; [exact Hno|].
    split; [now apply Hgone|].
    split; [intros _; split; reflexivity|].
    intros Hold. exfalso. unfold Action.insert_one in Hi.
    assert (E : existsb (ActionDoc.eqb (ActionDoc.mk u (clock w) ActFinish))
                        (action w) = true).
    { apply existsb_exists. eexists. split; [exact Hold|].
      now apply ActionDoc_eqb_eq. }
    rewrite E in Hi. discriminate.
  - eexists. eexists. split; [reflexivity|].
    split; [exact Hq'|]. split; [exact Hin|]. split; [exact Hno|].
    split; [now apply Hgone|].
    split; [|intros _; split; reflexivity].
    intros Hnew. exfalso.
    assert (Hold : ~ In (ActionDoc.mk u (clock w) ActFinish) (action w)).
    { intros Hold. now apply (Hnew _ Hold). }
    rewrite (action_insert_one_new _ _ Hold) in Hi. discriminate.
Qed.

Lemma dequeue_finish_removes_witness :
  exists r w',
    dequeue_finish "p"%string working_store = (r, w') /\
    queue w' =
      filter (fun d => negb (Queue.same_uri "p"%string d))
             (queue working_store) /\
    (forall d, In d (queue w') <->
               In d (queue working_store) /\ QueueDoc.uri d <> "p"%string) /\
    (~ In "p"%string (map QueueDoc.uri (queue working_store)) ->
     queue w' = queue working_store) /\
    is_enqueued "p"%string w' = (Return false, w') /\
    ((forall x, In x (action working_store) ->
                ActionDoc.uri x = "p"%string ->
                ActionDoc.act x = ActFinish ->
                ms (ActionDoc.ts x) <> ms (clock working_store)) ->
     r = Return tt /\
     action w' =
       action working_store ++
       [ActionDoc.mk "p"%string (clock working_store) ActFinish]) /\
    (In (ActionDoc.mk "p"%string (clock working_store) ActFinish)
        (action working_store) ->
     r = Raise DuplicateKeyError /\ action w' = action working_store).
Proof.
  apply (dequeue_finish_removes working_store "p"%string).
  - reflexivity.
  - distinct.
Defined.

(** C6, as stated, fails.  ["a"] has lived its whole life, [enqueue],
    [dequeue] and [dequeue_finish], within one clock reading, and has no
    entry any more: a second [dequeue_finish("a")] at that reading is not
    a no-op that succeeds, it raises [DuplicateKeyError], the audit log
    refusing a second copy of the ["finish"] record.  After ["a"] was
    enqueued again, the same call removes the new entry and raises all
    the same. *)
Lemma dequeue_finish_again_raises :
  ~ In "a"%string (map QueueDoc.uri (queue one_instant_life)) /\
  fst (dequeue_finish "a"%string one_instant_life) =
    Raise DuplicateKeyError /\
  fst (dequeue_finish "a"%string one_instant_life) <> Return tt /\
  queue one_instant_again = [QueueDoc.mk "a"%string 0 Wait] /\
  dequeue_finish "a"%string one_instant_again =
    (Raise DuplicateKeyError, one_instant_life).
Proof.
  vm_compute. repeat split; try reflexivity; try discriminate.
  intros [].
Qed.

Lemma dequeue_quiet w :
  quiet w ->
  dequeue w =
  match Queue.sort_ts (Queue.find_state Wait (queue w)) with
  | [] =>
      (match _logger w with
       | Some _ => Raise EmptyQueueException
       | None => Raise AttributeError
       end, after_empty w)
  | e :: _ =>
      let u := QueueDoc.uri e in
      let w1 := emit (EvFind true) (after_acquire w) in
      match Queue.update_one u Scrape (queue w) with
      | None => (Raise DuplicateKeyError, w1)
      | Some q =>
          let w2 := emit EvRelease
                      (set_mutex false
                         (emit (EvFlip u (clock w1)) (set_queue q w1))) in
          match Action.insert_one (ActionDoc.mk u (clock w) ActScrape)
                                  (action w) with
          | None => (Raise DuplicateKeyError, w2)
          | Some a => (Return (Some u), set_action a w2)
          end
      end
  end.
Proof.
  intros Hq.
  destruct (Queue.sort_ts (Queue.find_state Wait (queue w))) as [|e l] eqn:Hs.
  - apply QueueFacts.sort_ts_nil in Hs. now apply dequeue_miss_quiet.
  - cbv zeta. unfold dequeue, dt_now.
    unfold bind at 1.
    unfold bind at 1. rewrite (poll_hit_quiet 9 (clock w) w e l Hq Hs).
    pose proof (after_acquire_mutex w) as Hm.
    pose proof (after_acquire_schedule w) as Hsch.
    pose proof (after_acquire_queue w) as Hqu.
    pose proof (after_acquire_action w) as Hac.
    generalize dependent (after_acquire w). intros w0 Hm Hsch Hqu Hac.
    assert (Hq1 : quiet (emit (EvFind true) w0))
      by (unfold quiet; cbn; congruence).
    unfold bind at 1. rewrite (queue_update_one_quiet _ _ _ Hq1).
    cbn [queue emit]. rewrite Hqu.
    destruct (Queue.update_one (QueueDoc.uri e) Scrape (queue w)) as [q|];
      [|reflexivity].
    unfold bind at 1. rewrite mutex_release_locked by (cbn; exact Hm).
    unfold bind at 1. rewrite action_insert_one_quiet
      by (unfold quiet; cbn; congruence).
    cbn [action emit set_mutex set_queue]. rewrite Hac.
    destruct (Action.insert_one _ (action w)); reflexivity.
Qed.

Lemma after_empty_queue w : queue (after_empty w) = queue w.
Proof. unfold after_empty. cbn. apply after_misses_queue. Qed.

Lemma after_empty_action w : action (after_empty w) = action w.
Proof. unfold after_empty. cbn. apply after_misses_action. Qed.

Lemma after_empty_mutex w : mutex (after_empty w) = false.
Proof. reflexivity. Qed.

Lemma after_empty_schedule w : schedule (after_empty w) = schedule w.
Proof. unfold after_empty. cbn. apply after_misses_schedule. Qed.

Lemma after_empty_trace w :
  exists tr, trace (after_empty w) = trace w ++ tr /\
             attempts tr = 10%nat /\ misses tr = 10%nat /\
             (forall u x, ~ In (EvFlip u x) tr).
Proof.
  destruct (after_misses_trace 10 w) as (tr & Ht & Ha & Hm & Hr & Hf).
  exists (tr ++ [EvRelease; EvRecount 0]).
  unfold after_empty. cbn [trace emit set_mutex].
  rewrite Ht, <- !app_assoc. simpl.
  rewrite attempts_app, misses_app, Ha, Hm.
  repeat split; auto.
  intros u x Hin. apply in_app_iff in Hin.
  destruct Hin as [Hin|[Hin|[Hin|[]]]]; try discriminate.
  now apply (Hf u x).
Qed.

(** Where the logger does not matter: [enqueue] and [dequeue_finish]
    never touch [self._logger], and neither does a [dequeue] that finds
    an entry. *)
Lemma enqueue_ignores_logger u w l :
  quiet w ->
  enqueue u (setLogger l w) =
  (fst (enqueue u w), setLogger l (snd (enqueue u w))).
Proof.
  intros Hq. rewrite (enqueue_quiet u w Hq).
  rewrite (enqueue_quiet u (setLogger l w) Hq).
  change (queue (setLogger l w)) with (queue w).
  change (action (setLogger l w)) with (action w).
  change (clock (setLogger l w)) with (clock w).
  destruct (0 <? List.length (Queue.find_uri u (queue w)))%nat;
    [reflexivity|].
  destruct (Queue.insert_one _ (queue w)); [|reflexivity].
  destruct (Action.insert_one _ (action w)); reflexivity.
Qed.

Lemma dequeue_finish_ignores_logger u w l :
  quiet w ->
  dequeue_finish u (setLogger l w) =
  (fst (dequeue_finish u w), setLogger l (snd (dequeue_finish u w))).
Proof.
  intros Hq. rewrite (dequeue_finish_quiet u w Hq).
  rewrite (dequeue_finish_quiet u (setLogger l w) Hq).
  change (queue (setLogger l w)) with (queue w).
  change (action (setLogger l w)) with (action w).
  change (clock (setLogger l w)) with (clock w).
  destruct (Action.insert_one _ (action w)); reflexivity.
Qed.

Lemma dequeue_hit_ignores_logger w l :
  quiet w ->
  Queue.find_state Wait (queue w) <> [] ->
  dequeue (setLogger l w) =
  (fst (dequeue w), setLogger l (snd (dequeue w))).
Proof.
  intros Hq Hne. rewrite (dequeue_quiet w Hq).
  rewrite (dequeue_quiet (setLogger l w) Hq).
  change (queue (setLogger l w)) with (queue w).
  change (action (setLogger l w)) with (action w).
  change (clock (setLogger l w)) with (clock w).
  destruct (Queue.sort_ts (Queue.find_state Wait (queue w))) as [|e rest] eqn:E.
  - apply QueueFacts.sort_ts_nil in E. contradiction.
  - cbv zeta.
    destruct (Queue.update_one _ _ (queue w)); [|reflexivity].
    destruct (Action.insert_one _ (action w)); reflexivity.
Qed.

(** C8.  With no waiting entry, what a sequential [dequeue] raises
    depends on the logger: on a store whose [setLogger] was never called
    it fails with [AttributeError], raised by [self._logger.debug], and
    never reaches [raise EmptyQueueException]; once a logger is injected
    the same call fails with [EmptyQueueException].  The queue and the
    audit log end up the same either way. *)
Theorem dequeue_empty_depends_on_logger w l :
  quiet w ->
  Queue.find_state Wait (queue w) = [] ->
  _logger w = None ->
  fst (dequeue w) = Raise AttributeError /\
  fst (dequeue (setLogger l w)) = Raise EmptyQueueException /\
  queue (snd (dequeue w)) = queue (snd (dequeue (setLogger l w))) /\
  action (snd (dequeue w)) = action (snd (dequeue (setLogger l w))).
Proof.
  intros Hq He Hl.
  rewrite (dequeue_miss_quiet w Hq He), Hl.
  rewrite (dequeue_miss_quiet (setLogger l w) Hq He).
  simpl fst. simpl snd.
  rewrite !after_empty_queue, !after_empty_action.
  repeat split; reflexivity.
Qed.

Lemma dequeue_empty_depends_on_logger_witness :
  fst (dequeue (fresh 0)) = Raise AttributeError /\
  fst (dequeue (setLogger (LoggerHandle "crawler"%string) (fresh 0))) =
    Raise EmptyQueueException /\
  queue (snd (dequeue (fresh 0))) =
    queue (snd (dequeue (setLogger (LoggerHandle "crawler"%string) (fresh 0)))) /\
  action (snd (dequeue (fresh 0))) =
    action (snd (dequeue (setLogger (LoggerHandle "crawler"%string) (fresh 0)))).
Proof.
  apply (dequeue_empty_depends_on_logger (fresh 0) (LoggerHandle "crawler"%string));
    reflexivity.
Defined.

(** ** Runs among other clients *)

Lemma drift_refl w : drift w w.
Proof. constructor; try reflexivity; try lia. exists []. now rewrite app_nil_r. Qed.

Lemma drift_trans w1 w2 w3 : drift w1 w2 -> drift w2 w3 -> drift w1 w3.
Proof.
  intros [m1 t1 l1 c1 [a1 e1]] [m2 t2 l2 c2 [a2 e2]].
  constructor; try congruence; try lia.
  exists (a1 ++ a2). now rewrite e2, e1, app_assoc.
Qed.

Lemma produce_drift u w : drift w (produce u w).
Proof.
  unfold produce.
  destruct (0 <? List.length (Queue.find_uri u (queue w)))%nat;
    [apply drift_refl|].
  destruct (Queue.insert_one _ (queue w)) as [q|]; [|apply drift_refl].
  unfold Action.insert_one.
  destruct (existsb _ (action w)).
  - constructor; simpl; try reflexivity; try lia.
    exists []. now rewrite app_nil_r.
  - constructor; simpl; try reflexivity; try lia. eauto.
Qed.

Lemma interfere_drift i w : drift w (interfere i w).
Proof.
  destruct i as [d|u]; simpl; [|apply produce_drift].
  constructor; simpl; try reflexivity; try lia.
  exists []. now rewrite app_nil_r.
Qed.

Lemma round_trip_drift {A} (f : M A) w :
  exists w1, drift w w1 /\ (round_trip ;; f) w = f w1.
Proof.
  unfold bind, round_trip. destruct (schedule w) as [|i rest] eqn:E.
  - exists w. split; [apply drift_refl|reflexivity].
  - exists (interfere i (set_schedule rest w)). split; [|reflexivity].
    apply (drift_trans _ (set_schedule rest w)); [|apply interfere_drift].
    constructor; simpl; try reflexivity; try lia.
    exists []. now rewrite app_nil_r.
Qed.

Lemma find_oldest_wait_spec w :
  exists w1 entries,
    drift w w1 /\
    queue_find_oldest_wait w =
    (Return entries,
     emit (EvFind (match entries with [] => false | _ => true end)) w1).
Proof.
  unfold queue_find_oldest_wait.
  destruct (round_trip_drift
              (fun w0 =>
                 let entries :=
                   firstn 1 (Queue.sort_ts (Queue.find_state Wait (queue w0))) in
                 (Return entries,
                  emit (EvFind (match entries with [] => false | _ => true end))
                       w0)) w) as (w1 & Hd & He).
  exists w1. eexists. split; [exact Hd|]. exact He.
Qed.

(** The loop entered with the lock already taken. *)
Lemma poll_locked n : forall now w,
  mutex w = true ->
  exists k r w',
    dequeue_poll n now w = (Return (r, now + Z.of_nat k * second), w') /\
    trace w' = trace w ++ locked_poll_events k (found r) /\
    (k + (if found r then 1 else 0) <= n)%nat /\
    (found r = false -> k = n) /\
    mutex w' = true /\
    _logger w' = _logger w /\
    clock w + 3 * second * Z.of_nat (k + (if found r then 1 else 0)) <= clock w' /\
    (exists more, action w' = action w ++ more).
Proof.
  induction n as [|n IH]; intros now w Hm.
  - exists 0%nat, None, w. simpl. unfold ret, locked_poll_events. simpl.
    rewrite app_nil_r, Z.add_0_r. repeat split; auto; try lia.
    exists []. now rewrite app_nil_r.
  - rewrite dequeue_poll_S. unfold bind at 1.
    rewrite (mutex_acquire_eq w).
    assert (Hwa : mutex (after_acquire w) = true /\
                  trace (after_acquire w) = trace w ++ [EvAcquire false] /\
                  _logger (after_acquire w) = _logger w /\
                  clock (after_acquire w) = clock w + 3 * second /\
                  action (after_acquire w) = action w).
    { rewrite after_acquire_trace, after_acquire_clock, Hm.
      repeat split; reflexivity. }
    generalize dependent (after_acquire w). intros wa.
    intros (Hma & Hta & Hla & Hca & Haa).
    destruct (find_oldest_wait_spec wa) as (w1 & entries & Hd & Hf).
    unfold bind at 1. rewrite Hf.
    destruct Hd as [dm dt dl dc [more1 da]].
    destruct entries as [|e rest].
    + set (w2 := emit (EvFind false) w1).
      assert (Hw2 : mutex w2 = true /\ trace w2 = trace w1 ++ [EvFind false] /\
                    _logger w2 = _logger w1 /\ clock w2 = clock w1 /\
                    action w2 = action w1)
        by (repeat split; simpl; congruence).
      clearbody w2. destruct Hw2 as (Hm2 & Ht2 & Hl2 & Hc2 & Ha2).
      destruct (IH (now + 1 * second) w2 Hm2)
        as (k & r & w' & Hp & Ht & Hk & Hn & Hm' & Hl' & Hc' & more2 & Ha').
      exists (S k), r, w'. rewrite Hp.
      split; [do 3 f_equal; unfold second; lia|].
      split.
      { rewrite Ht, Ht2, dt, Hta. unfold locked_poll_events.
        rewrite <- !app_assoc. reflexivity. }
      split; [lia|]. split; [intros H; f_equal; auto|].
      split; [exact Hm'|]. split; [congruence|].
      split; [change (S k + (if found r then 1 else 0))%nat
                with (S (k + (if found r then 1 else 0))); lia|].
      exists (more1 ++ more2). rewrite Ha', Ha2, da, Haa.
      now rewrite app_assoc.
    + exists 0%nat, (Some e), (emit (EvFind true) w1). unfold ret.
      split; [do 3 f_equal; simpl; lia|].
      split.
      { simpl trace. rewrite dt, Hta. unfold locked_poll_events.
        rewrite <- !app_assoc. reflexivity. }
      simpl found. split; [lia|]. split; [discriminate|].
      split; [simpl; congruence|]. split; [simpl; congruence|].
      split; [simpl clock; simpl Z.of_nat; lia|].
      exists more1. simpl. congruence.
Qed.

Lemma poll_events_first locked k hit :
  EvAcquire (negb locked) :: EvFind false :: locked_poll_events k hit =
  poll_events locked (S k) hit.
Proof. reflexivity. Qed.

(** The loop as [dequeue] enters it, the lock free or not. *)
Lemma poll_spec n now w :
  exists k r w',
    dequeue_poll (S n) now w = (Return (r, now + Z.of_nat k * second), w') /\
    trace w' = trace w ++ poll_events (mutex w) k (found r) /\
    (k + (if found r then 1 else 0) <= S n)%nat /\
    (found r = false -> k = S n) /\
    mutex w' = true /\
    _logger w' = _logger w /\
    clock w + 3 * second * Z.of_nat (k + (if found r then 1 else 0) - 1)
      <= clock w' /\
    (exists more, action w' = action w ++ more).
Proof.
  rewrite dequeue_poll_S. unfold bind at 1.
  rewrite (mutex_acquire_eq w).
  pose proof (after_acquire_mutex w) as Hma.
  pose proof (after_acquire_trace w) as Hta.
  pose proof (after_acquire_logger w) as Hla.
  pose proof (after_acquire_action w) as Haa.
  assert (Hca : clock w <= clock (after_acquire w))
    by (rewrite after_acquire_clock; destruct (mutex w); unfold second; lia).
  generalize dependent (after_acquire w). intros wa Hma Hta Hla Haa Hca.
  destruct (find_oldest_wait_spec wa) as (w1 & entries & Hd & Hf).
  unfold bind at 1. rewrite Hf.
  destruct Hd as [dm dt dl dc [more1 da]].
  destruct entries as [|e rest].
  - set (w2 := emit (EvFind false) w1).
    assert (Hw2 : mutex w2 = true /\ trace w2 = trace w1 ++ [EvFind false] /\
                  _logger w2 = _logger w1 /\ clock w2 = clock w1 /\
                  action w2 = action w1)
      by (repeat split; simpl; congruence).
    clearbody w2. destruct Hw2 as (Hm2 & Ht2 & Hl2 & Hc2 & Ha2).
    destruct (poll_locked n (now + 1 * second) w2 Hm2)
      as (k & r & w' & Hp & Ht & Hk & Hn & Hm' & Hl' & Hc' & more2 & Ha').
    exists (S k), r, w'. rewrite Hp.
    split; [do 3 f_equal; unfold second; lia|].
    split.
    { rewrite Ht, Ht2, dt, Hta, <- poll_events_first.
      rewrite <- !app_assoc. reflexivity. }
    split; [lia|]. split; [intros H; f_equal; auto|].
    split; [exact Hm'|]. split; [congruence|].
    split.
    { replace (S k + (if found r then 1 else 0) - 1)%nat
        with (k + (if found r then 1 else 0))%nat by lia. lia. }
    exists (more1 ++ more2). rewrite Ha', Ha2, da, Haa.
    now rewrite app_assoc.
  - exists 0%nat, (Some e), (emit (EvFind true) w1). unfold ret.
    split; [do 3 f_equal; simpl; lia|].
    split.
    { simpl trace. rewrite dt, Hta. unfold poll_events, locked_poll_events.
      rewrite <- !app_assoc. reflexivity. }
    simpl found. split; [lia|]. split; [discriminate|].
    split; [simpl; congruence|]. split; [simpl; congruence|].
    split; [simpl clock; simpl Z.of_nat; lia|].
    exists more1. simpl. congruence.
Qed.

Lemma queue_update_one_spec u s w :
  exists w1, drift w w1 /\
    queue_update_one u s w =
    match Queue.update_one u s (queue w1) with
    | Some q => (Return tt, emit (EvFlip u (clock w1)) (set_queue q w1))
    | None => (Raise DuplicateKeyError, w1)
    end.
Proof. unfold queue_update_one. apply round_trip_drift. Qed.

Lemma queue_insert_one_spec d w :
  exists w1, drift w w1 /\
    queue_insert_one d w =
    match Queue.insert_one d (queue w1) with
    | Some q => (Return tt, set_queue q w1)
    | None => (Raise DuplicateKeyError, w1)
    end.
Proof. unfold queue_insert_one. apply round_trip_drift. Qed.

Lemma queue_delete_one_spec u w :
  exists w1, drift w w1 /\
    queue_delete_one u w =
    (Return tt, set_queue (Queue.delete_one u (queue w1)) w1).
Proof. unfold queue_delete_one. apply round_trip_drift. Qed.

Lemma action_insert_one_spec r w :
  exists w1, drift w w1 /\
    action_insert_one r w =
    match Action.insert_one r (action w1) with
    | Some a => (Return tt, set_action a w1)
    | None => (Raise DuplicateKeyError, w1)
    end.
Proof. unfold action_insert_one. apply round_trip_drift. Qed.

Lemma queue_count_wait_spec w :
  exists w1, drift w w1 /\
    queue_count_wait w =
    (Return (List.length (Queue.find_state Wait (queue w1))), w1).
Proof. unfold queue_count_wait. apply round_trip_drift. Qed.

Lemma queue_count_uri_spec u w :
  exists w1, drift w w1 /\
    queue_count_uri u w =
    (Return (List.length (Queue.find_uri u (queue w1))), w1).
Proof. unfold queue_count_uri. apply round_trip_drift. Qed.

Lemma queue_aggregate_states_spec w :
  exists w1 counts, drift w w1 /\
    queue_aggregate_states w = (Return counts, w1).
Proof.
  unfold queue_aggregate_states.
  destruct (round_trip_drift
              (fun w0 =>
                 (Return [(Wait, List.length (Queue.find_state Wait (queue w0)));
                          (Scrape, List.length (Queue.find_state Scrape (queue w0)))],
                  w0)) w) as (w1 & Hd & He).
  exists w1. eexists. split; [exact Hd|exact He].
Qed.

Lemma action_insert_one_Some r coll a :
  Action.insert_one r coll = Some a -> a = coll ++ [r].
Proof.
  unfold Action.insert_one. destruct (existsb _ coll); congruence.
Qed.

(** Every call of [dequeue] is one of the three runs. *)
Lemma dequeue_run w r w' : dequeue w = (r, w') -> DequeueRun w r w'.
Proof.
  unfold dequeue, dt_now. unfold bind at 1.
  destruct (poll_spec 9 (clock w) w)
    as (k & r0 & w1 & Hp & Ht1 & Hk & Hn & Hm1 & Hl1 & Hc1 & _).
  unfold bind at 1. rewrite Hp. clear Hp.
  destruct r0 as [e|]; cbn [found] in Ht1, Hk, Hn, Hc1;
    cbv iota in Hk, Hn, Hc1.
  - (* an iteration found [e] *)
    replace (k + 1 - 1)%nat with k in Hc1 by lia.
    destruct (queue_update_one_spec (QueueDoc.uri e) Scrape w1)
      as (w2 & [dm dt dl dc _] & Hu).
    unfold bind at 1. rewrite Hu. clear Hu.
    destruct (Queue.update_one _ _ (queue w2)) as [q|].
    + set (w3 := emit (EvFlip (QueueDoc.uri e) (clock w2)) (set_queue q w2)).
      assert (Hw3 : mutex w3 = true /\
                    trace w3 = trace w2 ++ [EvFlip (QueueDoc.uri e) (clock w2)] /\
                    clock w3 = clock w2)
        by (repeat split; simpl; congruence).
      clearbody w3. destruct Hw3 as (Hm3 & Ht3 & Hc3).
      unfold bind at 1. rewrite (mutex_release_locked w3 Hm3).
      set (w4 := emit EvRelease (set_mutex false w3)).
      assert (Hw4 : mutex w4 = false /\ trace w4 = trace w3 ++ [EvRelease] /\
                    clock w4 = clock w3)
        by (repeat split; reflexivity).
      clearbody w4. destruct Hw4 as (Hm4 & Ht4 & Hc4).
      destruct (action_insert_one_spec
                  (ActionDoc.mk (QueueDoc.uri e)
                     (clock w + Z.of_nat k * second) ActScrape) w4)
        as (w5 & [dm5 dt5 dl5 dc5 _] & Ha).
      unfold bind at 1. rewrite Ha. clear Ha.
      intros H.
      apply (run_flipped w r w' k (QueueDoc.uri e) (clock w2)); try lia.
      * destruct (Action.insert_one _ (action w5)); inversion H; subst;
          cbn [trace set_action]; rewrite dt5, Ht4, Ht3, dt, Ht1, <- !app_assoc;
          reflexivity.
      * destruct (Action.insert_one _ (action w5)); inversion H; subst;
          cbn [clock set_action]; lia.
      * destruct (Action.insert_one _ (action w5)); inversion H; subst;
          cbn [mutex set_action]; congruence.
      * destruct (Action.insert_one _ (action w5)) as [a|] eqn:Hi;
          inversion H; subst; [right|left; reflexivity].
        split; [reflexivity|]. exists (action w5). simpl.
        now apply action_insert_one_Some.
    + intros H. inversion H; subst.
      apply (run_flip_refused w _ w' k); try lia; try reflexivity;
        congruence.
  - (* ten iterations found nothing *)
    assert (k = 10%nat) by auto. subst k.
    unfold bind at 1. rewrite (mutex_release_locked w1 Hm1).
    set (w2 := emit EvRelease (set_mutex false w1)).
    assert (Hw2 : mutex w2 = false /\ trace w2 = trace w1 ++ [EvRelease] /\
                  _logger w2 = _logger w1 /\ clock w2 = clock w1)
      by (repeat split; reflexivity).
    clearbody w2. destruct Hw2 as (Hm2 & Ht2 & Hl2 & Hc2).
    destruct (queue_count_wait_spec w2) as (w3 & [dm3 dt3 dl3 dc3 _] & Hc).
    unfold bind at 1. rewrite Hc. clear Hc.
    set (n := List.length (Queue.find_state Wait (queue w3))).
    clearbody n.
    unfold bind at 1.
    set (w4 := emit (EvRecount n) w3).
    assert (Hw4 : mutex w4 = false /\ trace w4 = trace w3 ++ [EvRecount n] /\
                  _logger w4 = _logger w3 /\ clock w4 = clock w3)
      by (repeat split; simpl; congruence).
    clearbody w4. destruct Hw4 as (Hm4 & Ht4 & Hl4 & Hc4).
    destruct (queue_aggregate_states_spec w4)
      as (w5 & counts & [dm5 dt5 dl5 dc5 _] & Hg).
    unfold bind at 1. rewrite Hg. clear Hg.
    unfold bind, self_logger_debug.
    assert (Hl : _logger w5 = _logger w) by congruence.
    rewrite Hl. intros H.
    assert (Hclk : clock w + 3 * second * 9 <= clock w5)
      by (simpl Z.of_nat in Hc1; lia).
    apply (run_missed w r w' n).
    + destruct (_logger w); [destruct (n =? 0)%nat|]; inversion H; subst;
        rewrite dt5, Ht4, dt3, Ht2, Ht1, <- !app_assoc; reflexivity.
    + destruct (_logger w); [destruct (n =? 0)%nat|]; inversion H; subst;
        congruence.
    + destruct (_logger w); [destruct (n =? 0)%nat|]; inversion H; subst;
        exact Hclk.
    + destruct (_logger w); [destruct (n =? 0)%nat|]; inversion H; subst;
        reflexivity.
Qed.

(** ** Reading the trace of a run *)

Lemma miss_events_counts k :
  misses (miss_events k) = k /\ attempts (miss_events k) = k /\
  releases (miss_events k) = 0%nat /\
  ~ In (EvAcquire true) (miss_events k).
Proof.
  induction k as [|k (Hm & Ha & Hr & Hi)]; simpl.
  - repeat split; auto.
  - unfold misses, attempts, releases in *. simpl.
    rewrite Hm, Ha, Hr. repeat split; auto.
    intros [H|[H|H]]; try discriminate. contradiction.
Qed.

Lemma locked_poll_events_counts k hit :
  misses (locked_poll_events k hit) = k /\
  attempts (locked_poll_events k hit) = (k + (if hit then 1 else 0))%nat /\
  releases (locked_poll_events k hit) = 0%nat /\
  ~ In (EvAcquire true) (locked_poll_events k hit).
Proof.
  destruct (miss_events_counts k) as (Hm & Ha & Hr & Hi).
  unfold locked_poll_events.
  split; [|split; [|split]].
  - rewrite misses_app, Hm. destruct hit; unfold misses; simpl; lia.
  - rewrite attempts_app, Ha. destruct hit; unfold attempts; simpl; lia.
  - unfold releases in *. rewrite filter_app, length_app, Hr.
    now destruct hit.
  - intros H. apply in_app_iff in H. destruct H as [H|H]; [contradiction|].
    destruct hit; simpl in H; [|contradiction].
    destruct H as [H|[H|[]]]; discriminate.
Qed.

(** The loop's events begin with the first [mutex.acquire] and its
    search. *)
Lemma poll_events_head (locked : bool) (k : nat) (hit : bool) :
  (1 <= k + (if hit then 1 else 0))%nat ->
  exists b rest,
    locked_poll_events k hit = EvAcquire false :: EvFind b :: rest /\
    poll_events locked k hit = EvAcquire (negb locked) :: EvFind b :: rest.
Proof.
  intros H. destruct k as [|k].
  - destruct hit; [|simpl in H; lia]. now exists true, [].
  - exists false, (locked_poll_events k hit). split; reflexivity.
Qed.

Lemma poll_events_counts locked k hit :
  misses (poll_events locked k hit) = k /\
  attempts (poll_events locked k hit) = (k + (if hit then 1 else 0))%nat /\
  releases (poll_events locked k hit) = 0%nat.
Proof.
  destruct (locked_poll_events_counts k hit) as (Hm & Ha & Hr & _).
  destruct (Nat.eq_dec (k + (if hit then 1 else 0)) 0) as [Hz|Hz].
  - destruct k; [|lia]. destruct hit; [lia|]. repeat split.
  - destruct (poll_events_head locked k hit) as (b & rest & Hl & Hp); [lia|].
    rewrite Hl in Hm, Ha, Hr. rewrite Hp.
    unfold misses, attempts, releases in *. simpl in *. auto.
Qed.

Lemma guarded_locked_poll k hit rest :
  guarded true (locked_poll_events k hit ++ rest) = guarded true rest.
Proof.
  unfold locked_poll_events. rewrite <- app_assoc.
  induction k as [|k IH]; simpl.
  - destruct hit; reflexivity.
  - exact IH.
Qed.

(** Entered with the lock free, the loop holds the guard from its first
    search on. *)
Lemma guarded_poll_free (k : nat) (hit : bool) rest :
  (1 <= k + (if hit then 1 else 0))%nat ->
  guarded false (poll_events false k hit ++ rest) = guarded true rest.
Proof.
  intros H. destruct (poll_events_head false k hit H) as (b & tl & Hl & Hp).
  rewrite Hp. simpl.
  pose proof (guarded_locked_poll k hit rest) as G.
  rewrite Hl in G. simpl in G. exact G.
Qed.

(** Entered with the lock taken, the loop searches without the guard. *)
Lemma guarded_poll_taken (k : nat) (hit : bool) rest :
  (1 <= k + (if hit then 1 else 0))%nat ->
  guarded false (poll_events true k hit ++ rest) = false.
Proof.
  intros H. destruct (poll_events_head true k hit H) as (b & tl & Hl & Hp).
  rewrite Hp. reflexivity.
Qed.

Lemma poll_events_taken k hit :
  poll_events true k hit = locked_poll_events k hit.
Proof.
  destruct (Nat.eq_dec (k + (if hit then 1 else 0)) 0) as [Hz|Hz].
  - destruct k; [|lia]. destruct hit; [lia|]. reflexivity.
  - destruct (poll_events_head true k hit) as (b & rest & Hl & Hp); [lia|].
    now rewrite Hp, Hl.
Qed.


(** ** What one round trip lets through *)

Lemma produce_queue u w :
  exists more,
    queue (produce u w) = queue w ++ more /\
    Queue.find_state Wait more = more.
Proof.
  unfold produce.
  destruct (0 <? List.length (Queue.find_uri u (queue w)))%nat;
    [exists []; rewrite app_nil_r; auto|].
  destruct (Queue.insert_one _ (queue w)) as [q|] eqn:Hi;
    [|exists []; rewrite app_nil_r; auto].
  assert (Hq : q = queue w ++ [QueueDoc.mk u (clock w) Wait]).
  { unfold Queue.insert_one in Hi.
    destruct (existsb _ (queue w)); [discriminate|].
    destruct (existsb _ (queue w)); [discriminate|]. congruence. }
  exists [QueueDoc.mk u (clock w) Wait].
  destruct (Action.insert_one _ (action w)); simpl; auto.
Qed.

Lemma produce_schedule u w : schedule (produce u w) = schedule w.
Proof.
  unfold produce.
  destruct (0 <? List.length (Queue.find_uri u (queue w)))%nat;
    [reflexivity|].
  destruct (Queue.insert_one _ (queue w)); [|reflexivity].
  destruct (Action.insert_one _ (action w)); reflexivity.
Qed.

Lemma round_trip_stepped {A} (f : M A) w :
  exists w1, stepped w w1 /\ (round_trip ;; f) w = f w1.
Proof.
  unfold bind, round_trip. destruct (schedule w) as [|i rest] eqn:E.
  - exists w. split; [|reflexivity]. constructor.
    + apply drift_refl.
    + reflexivity.
    + now rewrite E.
    + exists []. rewrite app_nil_r. auto.
  - exists (interfere i (set_schedule rest w)). split; [|reflexivity].
    constructor.
    + apply (drift_trans _ (set_schedule rest w)); [|apply interfere_drift].
      constructor; simpl; try reflexivity; try lia.
      exists []. now rewrite app_nil_r.
    + unfold quiet. congruence.
    + rewrite E. destruct i as [d|u]; cbn [interfere tl];
        [|rewrite produce_schedule]; reflexivity.
    + destruct i as [d|u]; cbn [interfere].
      * exists []. rewrite app_nil_r. auto.
      * exact (produce_queue u (set_schedule rest w)).
Qed.

Lemma find_oldest_wait_stepped w :
  exists w1 entries,
    stepped w w1 /\
    queue_find_oldest_wait w =
    (Return entries,
     emit (EvFind (match entries with [] => false | _ => true end)) w1).
Proof.
  unfold queue_find_oldest_wait.
  destruct (round_trip_stepped
              (fun w0 =>
                 let entries :=
                   firstn 1 (Queue.sort_ts (Queue.find_state Wait (queue w0))) in
                 (Return entries,
                  emit (EvFind (match entries with [] => false | _ => true end))
                       w0)) w) as (w1 & Hs & He).
  exists w1. eexists. split; [exact Hs|]. exact He.
Qed.

Lemma queue_count_wait_stepped w :
  exists w1, stepped w w1 /\
    queue_count_wait w =
    (Return (List.length (Queue.find_state Wait (queue w1))), w1).
Proof. unfold queue_count_wait. apply round_trip_stepped. Qed.

Lemma queue_aggregate_states_stepped w :
  exists w1 counts, stepped w w1 /\
    queue_aggregate_states w = (Return counts, w1).
Proof.
  unfold queue_aggregate_states.
  destruct (round_trip_stepped
              (fun w0 =>
                 (Return [(Wait, List.length (Queue.find_state Wait (queue w0)));
                          (Scrape, List.length (Queue.find_state Scrape (queue w0)))],
                  w0)) w) as (w1 & Hs & He).
  exists w1. eexists. split; [exact Hs|exact He].
Qed.

Lemma tl_skipn {A} n : forall l : list A, tl (skipn n l) = skipn (S n) l.
Proof.
  induction n as [|n IH]; intros [|a l]; try reflexivity.
  exact (IH l).
Qed.

(** Each search of the loop is one round trip: a loop that comes back
    without an entry has used up as many items of the schedule as it had
    tries. *)
Lemma poll_none_schedule n : forall now w now' w1,
  dequeue_poll n now w = (Return (None, now'), w1) ->
  schedule w1 = skipn n (schedule w).
Proof.
  induction n as [|n IH]; intros now w now' w1 H.
  - inversion H; subst. reflexivity.
  - rewrite dequeue_poll_S in H. unfold bind at 1 in H.
    rewrite (mutex_acquire_eq w) in H.
    destruct (find_oldest_wait_stepped (after_acquire w))
      as (wf & entries & Hs & Hf).
    unfold bind at 1 in H. rewrite Hf in H.
    destruct entries as [|e rest]; [|inversion H].
    apply IH in H. rewrite H. cbn [schedule emit].
    rewrite (st_schedule _ _ Hs), after_acquire_schedule.
    destruct (schedule w) as [|i l]; [|reflexivity].
    cbn [tl]. now rewrite skipn_nil.
Qed.

Lemma miss_events_no_recount k n : ~ In (EvRecount n) (miss_events k).
Proof.
  induction k as [|k IH]; simpl; [tauto|].
  intros [H|[H|H]]; try discriminate. contradiction.
Qed.

Lemma poll_events_no_recount locked k hit n :
  ~ In (EvRecount n) (poll_events locked k hit).
Proof.
  assert (H : ~ In (EvRecount n) (locked_poll_events k hit)).
  { unfold locked_poll_events. intros H. apply in_app_iff in H.
    destruct H as [H|H]; [exact (miss_events_no_recount k n H)|].
    destruct hit; simpl in H; [|contradiction].
    destruct H as [H|[H|[]]]; discriminate. }
  unfold poll_events.
  destruct (locked_poll_events k hit) as [|[g|f|u t| |m] rest]; try exact H.
  intros [Hx|Hx]; [discriminate|]. apply H. now right.
Qed.

(** The recount of [dequeue] and the waiting entries of the store it
    leaves.  The count is taken at the eleventh round trip of the call,
    after its ten searches; one more round trip follows, at which
    producers may still add entries. *)
Lemma dequeue_recount w r w' tr n :
  dequeue w = (r, w') -> trace w' = trace w ++ tr ->
  In (EvRecount n) tr ->
  (n <= List.length (Queue.find_state Wait (queue w')))%nat /\
  ((List.length (schedule w) <= 11)%nat ->
   n = List.length (Queue.find_state Wait (queue w'))).
Proof.
  unfold dequeue, dt_now. unfold bind at 1.
  destruct (poll_spec 9 (clock w) w)
    as (k & r0 & w1 & Hp & Ht1 & Hk & Hn & Hm1 & Hl1 & Hc1 & _).
  pose proof Hp as Hsched.
  unfold bind at 1. rewrite Hp. clear Hp.
  destruct r0 as [e|]; cbn [found] in Ht1, Hk, Hn, Hc1.
  - (* an iteration found [e]: nothing is recounted *)
    clear Hsched.
    destruct (queue_update_one_spec (QueueDoc.uri e) Scrape w1)
      as (w2 & [dm dt dl dc _] & Hu).
    unfold bind at 1. rewrite Hu. clear Hu.
    destruct (Queue.update_one _ _ (queue w2)) as [q|].
    + set (w3 := emit (EvFlip (QueueDoc.uri e) (clock w2)) (set_queue q w2)).
      assert (Hw3 : mutex w3 = true /\
                    trace w3 = trace w2 ++ [EvFlip (QueueDoc.uri e) (clock w2)])
        by (repeat split; simpl; congruence).
      clearbody w3. destruct Hw3 as (Hm3 & Ht3).
      unfold bind at 1. rewrite (mutex_release_locked w3 Hm3).
      set (w4 := emit EvRelease (set_mutex false w3)).
      assert (Ht4 : trace w4 = trace w3 ++ [EvRelease]) by reflexivity.
      clearbody w4.
      destruct (action_insert_one_spec
                  (ActionDoc.mk (QueueDoc.uri e)
                     (clock w + Z.of_nat k * second) ActScrape) w4)
        as (w5 & [dm5 dt5 dl5 dc5 _] & Ha).
      unfold bind at 1. rewrite Ha. clear Ha.
      intros H Ht Hin. exfalso.
      assert (Hw' : trace w' = trace w5).
      { destruct (Action.insert_one _ (action w5)); inversion H; subst;
          reflexivity. }
      rewrite Hw', dt5, Ht4, Ht3, dt, Ht1, <- !app_assoc in Ht.
      apply app_inv_head in Ht. subst tr.
      apply in_app_iff in Hin.
      destruct Hin as [Hin|[Hin|[Hin|[]]]]; try discriminate.
      exact (poll_events_no_recount _ _ _ _ Hin).
    + intros H Ht Hin. exfalso. inversion H; subst.
      rewrite dt, Ht1 in Ht. apply app_inv_head in Ht. subst tr.
      exact (poll_events_no_recount _ _ _ _ Hin).
  - (* ten iterations found nothing *)
    assert (k = 10%nat) by auto. subst k.
    apply poll_none_schedule in Hsched.
    unfold bind at 1. rewrite (mutex_release_locked w1 Hm1).
    set (w2 := emit EvRelease (set_mutex false w1)).
    assert (Hw2 : trace w2 = trace w1 ++ [EvRelease] /\
                  schedule w2 = schedule w1 /\ _logger w2 = _logger w1)
      by (repeat split; reflexivity).
    clearbody w2. destruct Hw2 as (Ht2 & Hs2 & Hl2).
    destruct (queue_count_wait_stepped w2) as (w3 & S3 & Hc).
    unfold bind at 1. rewrite Hc. clear Hc.
    set (n0 := List.length (Queue.find_state Wait (queue w3))).
    unfold bind at 1.
    set (w4 := emit (EvRecount n0) w3).
    assert (Hw4 : trace w4 = trace w3 ++ [EvRecount n0] /\
                  schedule w4 = schedule w3 /\ queue w4 = queue w3)
      by (repeat split; reflexivity).
    clearbody w4. destruct Hw4 as (Ht4 & Hs4 & Hq4).
    destruct (queue_aggregate_states_stepped w4) as (w5 & counts & S5 & Hg).
    unfold bind at 1. rewrite Hg. clear Hg.
    unfold bind, self_logger_debug.
    intros H Ht Hin.
    assert (Hw' : w' = w5).
    { destruct (_logger w5); [destruct (n0 =? 0)%nat|]; inversion H;
        reflexivity. }
    subst w'.
    rewrite (drift_trace _ _ (st_drift _ _ S5)), Ht4,
      (drift_trace _ _ (st_drift _ _ S3)), Ht2, Ht1, <- !app_assoc in Ht.
    apply app_inv_head in Ht. subst tr.
    apply in_app_iff in Hin.
    destruct Hin as [Hin|[Hin|[Hin|[]]]]; try discriminate;
      [exfalso; exact (poll_events_no_recount _ _ _ _ Hin)|].
    inversion Hin; subst n. clear Hin.
    destruct (st_queue _ _ S5) as (more & Hq5 & Hwait).
    assert (Hcount : List.length (Queue.find_state Wait (queue w5)) =
                     (n0 + List.length more)%nat).
    { rewrite Hq5, Hq4. unfold Queue.find_state in *.
      rewrite filter_app, length_app, Hwait. reflexivity. }
    split; [lia|].
    intros Hshort.
    assert (Hquiet : quiet w4).
    { unfold quiet.
      rewrite Hs4, (st_schedule _ _ S3), Hs2, Hsched, tl_skipn.
      apply skipn_all2. exact Hshort. }
    rewrite (st_quiet _ _ S5 Hquiet), Hq4. reflexivity.
Qed.

(** C3 (first half, as the code has it).  With a logger injected, a
    sequential [dequeue] on a store without waiting entries makes its ten
    attempts, then fails with [EmptyQueueException]; no queue entry and no
    action record has changed.  (Second half, as the code has it.)
    Whatever producers do meanwhile, when all ten attempts found nothing
    the outcome is decided by the recount [n] of the waiting entries made
    after the lock is released: [EmptyQueueException] when it counts
    none, and otherwise no failure at all, the call returning [None].
    The recount is the number of entries that wait in the store when
    it is taken: no more than wait when the call ends, producers being
    the only other clients, and exactly as many when nothing is
    scheduled past the count, the eleventh round trip of the call. *)
Theorem dequeue_exhausted w :
  _logger w <> None ->
  (quiet w -> Queue.find_state Wait (queue w) = [] ->
   exists w' tr,
     dequeue w = (Raise EmptyQueueException, w') /\
     queue w' = queue w /\ action w' = action w /\
     trace w' = trace w ++ tr /\ attempts tr = 10%nat) /\
  (forall r w' tr,
      dequeue w = (r, w') -> trace w' = trace w ++ tr ->
      misses tr = 10%nat ->
      exists n,
        In (EvRecount n) tr /\
        r = (if (n =? 0)%nat then Raise EmptyQueueException
             else Return None) /\
        (n <= List.length (Queue.find_state Wait (queue w')))%nat /\
        ((List.length (schedule w) <= 11)%nat ->
         n = List.length (Queue.find_state Wait (queue w')))).
Proof.
  intros Hl. split.
  - intros Hq He. exists (after_empty w).
    destruct (after_empty_trace w) as (tr & Ht & Ha & _).
    exists tr. rewrite (dequeue_miss_quiet w Hq He).
    destruct (_logger w); [|contradiction].
    rewrite after_empty_queue, after_empty_action. auto.
  - intros r w' tr H Ht Hm. pose proof H as Hrun. apply dequeue_run in Hrun.
    destruct Hrun as [k Hk Ht' _ _ _|k u0 t Hk Ht' _ _ _ _|n Ht' _ _ Hr].
    + exfalso. rewrite Ht in Ht'. apply app_inv_head in Ht'. subst tr.
      destruct (poll_events_counts (mutex w) k true) as (Hc & _). lia.
    + exfalso. rewrite Ht in Ht'. apply app_inv_head in Ht'. subst tr.
      rewrite misses_app in Hm.
      destruct (poll_events_counts (mutex w) k true) as (Hc & _).
      unfold misses in *. simpl in Hm. lia.
    + rewrite Ht in Ht'. apply app_inv_head in Ht'.
      assert (Hin : In (EvRecount n) tr).
      { subst tr. apply in_app_iff. right. right. now left. }
      exists n. split; [exact Hin|].
      split; [destruct (_logger w); [exact Hr|contradiction]|].
      exact (dequeue_recount w r w' tr n H Ht Hin).
Qed.


Lemma dequeue_exhausted_witness :
  (exists w' tr,
      dequeue (setLogger (LoggerHandle "crawler"%string) (fresh 0)) =
        (Raise EmptyQueueException, w') /\
      queue w' = queue (setLogger (LoggerHandle "crawler"%string) (fresh 0)) /\
      action w' = action (setLogger (LoggerHandle "crawler"%string) (fresh 0)) /\
      trace w' = trace (setLogger (LoggerHandle "crawler"%string) (fresh 0)) ++ tr /\
      attempts tr = 10%nat) /\
  (exists n,
      In (EvRecount n) (trace (snd (dequeue late_producer))) /\
      fst (dequeue late_producer) =
        (if (n =? 0)%nat then Raise EmptyQueueException else Return None) /\
      (n <= List.length
              (Queue.find_state Wait (queue (snd (dequeue late_producer)))))%nat /\
      ((List.length (schedule late_producer) <= 11)%nat ->
       n = List.length
             (Queue.find_state Wait (queue (snd (dequeue late_producer)))))).
Proof.
  split.
  - apply (proj1 (dequeue_exhausted
                    (setLogger (LoggerHandle "crawler"%string) (fresh 0))
                    ltac:(discriminate))); reflexivity.
  - apply (proj2 (dequeue_exhausted late_producer ltac:(discriminate))
             (fst (dequeue late_producer)) (snd (dequeue late_producer))
             (trace (snd (dequeue late_producer)))).
    + apply surjective_pairing.
    + reflexivity.
    + vm_compute. reflexivity.
Defined.

(** C3, as stated, fails: the ten searches of this run all find nothing,
    an entry is waiting when [dequeue] recounts, and the call returns
    [None] instead of failing with [EmptyQueueException]. *)
Lemma dequeue_exhausted_returns_none :
  misses (trace (snd (dequeue late_producer))) = 10%nat /\
  Queue.find_state Wait (queue (snd (dequeue late_producer))) =
    [QueueDoc.mk "u9"%string 27000000 Wait] /\
  fst (dequeue late_producer) = Return None /\
  fst (dequeue late_producer) <> Raise EmptyQueueException.
Proof.
  vm_compute. repeat split; try reflexivity. discriminate.
Qed.

(** Entered with the lock free, a call of [dequeue] that ends with the
    lock released has searched and flipped under the guard, and has
    released it once. *)
Lemma dequeue_guarded_when_free w r w' tr :
  mutex w = false ->
  dequeue w = (r, w') -> trace w' = trace w ++ tr ->
  mutex w' = false ->
  guarded false tr = true /\ releases tr = 1%nat.
Proof.
  intros Hm H Ht Hm'. apply dequeue_run in H.
  destruct H as [k Hk Ht' _ Hx _|k u t Hk Ht' _ _ _ _|n Ht' _ _ _];
    [congruence| |];
    rewrite Hm, Ht in Ht'; apply app_inv_head in Ht'; subst tr.
  - rewrite guarded_poll_free by lia. split; [reflexivity|].
    unfold releases. rewrite filter_app, length_app.
    destruct (poll_events_counts false k true) as (_ & _ & Hr).
    unfold releases in Hr. rewrite Hr. reflexivity.
  - rewrite guarded_poll_free by lia. split; [reflexivity|].
    unfold releases. rewrite filter_app, length_app.
    destruct (poll_events_counts false 10 false) as (_ & _ & Hr).
    unfold releases in Hr. rewrite Hr. reflexivity.
Qed.

(** C4.  Entered while another thread holds the lock, [dequeue] never
    obtains it: each [mutex.acquire(blocking=True, timeout=3)] gives up
    after three seconds and its answer is ignored.  The search, and the
    state flip when an entry is found, are carried out without the
    guard, and unless the flip is refused the final [mutex.release()]
    releases the lock of the other thread. *)
Theorem dequeue_without_guard w r w' tr :
  mutex w = true ->
  dequeue w = (r, w') -> trace w' = trace w ++ tr ->
  ~ In (EvAcquire true) tr /\
  (1 <= attempts tr)%nat /\
  guarded false tr = false /\
  (r <> Raise DuplicateKeyError -> mutex w' = false).
Proof.
  intros Hm H Ht. apply dequeue_run in H.
  destruct H as [k Hk Ht' Hr Hx _|k u t Hk Ht' _ _ Hx _|n Ht' Hx _ _];
    rewrite Hm, Ht in Ht'; apply app_inv_head in Ht'; subst tr.
  - rewrite <- (app_nil_r (poll_events true k true)) at 3.
    rewrite guarded_poll_taken by lia.
    rewrite poll_events_taken.
    destruct (locked_poll_events_counts k true) as (_ & Ha & _ & Hi).
    rewrite Ha. repeat split; auto; try lia. congruence.
  - rewrite guarded_poll_taken by lia.
    rewrite attempts_app, poll_events_taken.
    destruct (locked_poll_events_counts k true) as (_ & Ha & _ & Hi).
    rewrite Ha. repeat split; auto; try lia.
    intros Hin. apply in_app_iff in Hin.
    destruct Hin as [Hin|[Hin|[Hin|[]]]]; try discriminate. contradiction.
  - rewrite guarded_poll_taken by lia.
    rewrite attempts_app, poll_events_taken.
    destruct (locked_poll_events_counts 10 false) as (_ & Ha & _ & Hi).
    rewrite Ha. repeat split; auto; try lia.
    intros Hin. apply in_app_iff in Hin.
    destruct Hin as [Hin|[Hin|[Hin|[]]]]; try discriminate. contradiction.
Qed.

Lemma dequeue_without_guard_witness :
  ~ In (EvAcquire true) (trace (snd (dequeue contended_store))) /\
  (1 <= attempts (trace (snd (dequeue contended_store))))%nat /\
  guarded false (trace (snd (dequeue contended_store))) = false /\
  (fst (dequeue contended_store) <> Raise DuplicateKeyError ->
   mutex (snd (dequeue contended_store)) = false).
Proof.
  apply (dequeue_without_guard contended_store).
  - reflexivity.
  - apply surjective_pairing.
  - reflexivity.
Defined.

(** What the other producer's [enqueue(u)] leaves in the queue refuses
    our own insert of [u]. *)
Lemma produce_blocks_insert u w :
  Queue.find_uri u (queue w) = [] ->
  Queue.insert_one (QueueDoc.mk u (clock w) Wait) (queue (produce u w)) = None.
Proof.
  intros Hf. unfold produce. rewrite Hf. simpl.
  destruct (Queue.insert_one (QueueDoc.mk u (clock w) Wait) (queue w))
    as [q|] eqn:Hi; [|exact Hi].
  assert (Hq : q = queue w ++ [QueueDoc.mk u (clock w) Wait]).
  { unfold Queue.insert_one in Hi.
    destruct (existsb _ (queue w)); [discriminate|].
    destruct (existsb _ (queue w)); [discriminate|]. congruence. }
  assert (Hq' : Queue.insert_one (QueueDoc.mk u (clock w) Wait) q = None).
  { apply QueueWrites.insert_one_dup. rewrite Hq, map_app. simpl.
    apply in_app_iff. right. now left. }
  destruct (Action.insert_one _ (action w)); exact Hq'.
Qed.

(** C5 (as the code has it).  When another producer's [enqueue(u)] lands
    between the presence check and the insert of our [enqueue(u)], the
    unique indices of the queue refuse our insert and [enqueue] lets the
    [DuplicateKeyError] through to its caller; the store is left as the
    other producer made it, our call having written nothing. *)
Theorem enqueue_race_raises w u d rest :
  schedule w = Elapse d :: Produce u :: rest ->
  ~ In u (map QueueDoc.uri (queue w)) ->
  enqueue u w =
  (Raise DuplicateKeyError,
   produce u (set_schedule rest (set_clock (clock w + Z.of_N d) w))).
Proof.
  intros Hs Hu. apply QueueWrites.find_uri_nil in Hu.
  unfold enqueue, is_enqueued, queue_count_uri.
  unfold bind at 1. unfold bind at 1. unfold bind at 1.
  unfold round_trip at 1. rewrite Hs. cbn [interfere].
  cbn [queue set_clock set_schedule]. rewrite Hu.
  unfold ret at 1. cbn [List.length Nat.ltb Nat.leb].
  unfold dt_now. unfold bind at 1.
  unfold queue_insert_one. unfold bind at 1. unfold bind at 1.
  unfold round_trip at 1. cbn [schedule set_clock set_schedule interfere].
  cbn [clock set_clock set_schedule].
  pose proof (produce_blocks_insert u
                (set_schedule rest (set_clock (clock w + Z.of_N d) w)) Hu)
    as Hb.
  cbn [clock set_clock set_schedule] in Hb.
  change (set_schedule rest
            (set_clock (clock w + Z.of_N d)
               (set_schedule (Produce u :: rest) w)))
    with (set_schedule rest (set_clock (clock w + Z.of_N d) w)).
  rewrite Hb. reflexivity.
Qed.

Lemma enqueue_race_raises_witness :
  enqueue "u1"%string duplicate_race =
  (Raise DuplicateKeyError,
   produce "u1"%string
     (set_schedule [] (set_clock (clock duplicate_race + Z.of_N 0)
                                 duplicate_race))).
Proof.
  apply (enqueue_race_raises duplicate_race "u1"%string 0%N []).
  - reflexivity.
  - intros [].
Defined.

(** C5, as stated, fails: in this race the second insert is refused, and
    the caller gets [DuplicateKeyError] instead of [False]; the entry and
    the record in the store are the other producer's. *)
Lemma enqueue_race_not_false :
  fst (enqueue "u1"%string duplicate_race) = Raise DuplicateKeyError /\
  fst (enqueue "u1"%string duplicate_race) <> Return (Some false) /\
  queue (snd (enqueue "u1"%string duplicate_race)) = [QueueDoc.mk "u1"%string 0 Wait] /\
  action (snd (enqueue "u1"%string duplicate_race)) =
    [ActionDoc.mk "u1"%string 0 ActEnqueue].
Proof.
  vm_compute. repeat split; try reflexivity. discriminate.
Qed.

(** ** The audit log only grows *)

Lemma grows_ret {A} (a : A) : grows (ret a).
Proof.
  intros w r w' H. inversion H. exists []. now rewrite app_nil_r.
Qed.

Lemma grows_raise {A} e : grows (@raise A e).
Proof.
  intros w r w' H. inversion H. exists []. now rewrite app_nil_r.
Qed.

Lemma grows_bind {A B} (c : M A) (k : A -> M B) :
  grows c -> (forall a, grows (k a)) -> grows (bind c k).
Proof.
  intros Hc Hk w r w' H. apply bind_inv in H.
  destruct H as [(a & w1 & H1 & H2)|(e & H1 & _)].
  - destruct (Hc _ _ _ H1) as (m1 & E1).
    destruct (Hk a _ _ _ H2) as (m2 & E2).
    exists (m1 ++ m2). now rewrite E2, E1, app_assoc.
  - eauto.
Qed.

Lemma grows_same {A} (c : M A) :
  (forall w r w', c w = (r, w') -> action w' = action w) -> grows c.
Proof.
  intros Hc w r w' H. exists []. rewrite app_nil_r. eauto.
Qed.

Lemma grows_round_trip : grows round_trip.
Proof.
  intros w r w' H.
  destruct (round_trip_drift (ret tt) w) as (w1 & Hd & He).
  unfold bind in He. destruct (round_trip w) as [[[]|e] w2] eqn:E.
  - unfold ret in He. inversion He; subst. inversion H; subst.
    exact (drift_action _ _ Hd).
  - unfold round_trip in E. destruct (schedule w); discriminate.
Qed.

Lemma grows_mutex_acquire t : grows (mutex_acquire t).
Proof.
  apply grows_same. intros w r w'. unfold mutex_acquire.
  destruct (mutex w); intros H; inversion H; reflexivity.
Qed.

Lemma grows_mutex_release : grows mutex_release.
Proof.
  apply grows_same. intros w r w'. unfold mutex_release.
  destruct (mutex w); intros H; inversion H; reflexivity.
Qed.

Lemma grows_action_insert_one r : grows (action_insert_one r).
Proof.
  apply grows_bind; [apply grows_round_trip|]. intros _ w r0 w'.
  destruct (Action.insert_one r (action w)) as [a|] eqn:E;
    intros H; inversion H; subst.
  - exists [r]. simpl. now apply action_insert_one_Some.
  - exists []. now rewrite app_nil_r.
Qed.

Ltac grows_queue_step :=
  apply grows_bind; [apply grows_round_trip|];
  intros _; apply grows_same; intros w r w';
  repeat match goal with
         | |- context [match ?x with _ => _ end] => destruct x
         end;
  intros H; inversion H; reflexivity.

Lemma grows_queue_count_uri u : grows (queue_count_uri u).
Proof. grows_queue_step. Qed.

Lemma grows_queue_count_wait : grows queue_count_wait.
Proof. grows_queue_step. Qed.

Lemma grows_queue_find_oldest_wait : grows queue_find_oldest_wait.
Proof. grows_queue_step. Qed.

Lemma grows_queue_insert_one d : grows (queue_insert_one d).
Proof. grows_queue_step. Qed.

Lemma grows_queue_update_one u s : grows (queue_update_one u s).
Proof. grows_queue_step. Qed.

Lemma grows_queue_delete_one u : grows (queue_delete_one u).
Proof. grows_queue_step. Qed.

Lemma grows_queue_aggregate_states : grows queue_aggregate_states.
Proof. grows_queue_step. Qed.

Lemma grows_self_logger_debug : grows self_logger_debug.
Proof.
  apply grows_same. intros w r w'. unfold self_logger_debug.
  destruct (_logger w); intros H; inversion H; reflexivity.
Qed.

Lemma grows_dt_now : grows dt_now.
Proof. apply grows_same. intros w r w' H. now inversion H. Qed.

Lemma grows_dequeue_poll n : forall now, grows (dequeue_poll n now).
Proof.
  induction n as [|n IH]; intros now; simpl.
  - apply grows_ret.
  - apply grows_bind; [apply grows_mutex_acquire|]. intros _.
    apply grows_bind; [apply grows_queue_find_oldest_wait|].
    intros [|e l]; [apply IH|apply grows_ret].
Qed.

Lemma grows_enqueue u : grows (enqueue u).
Proof.
  unfold enqueue, is_enqueued.
  apply grows_bind.
  - apply grows_bind; [apply grows_queue_count_uri|].
    intros n. apply grows_ret.
  - intros [|]; [apply grows_ret|].
    apply grows_bind; [apply grows_dt_now|]. intros now.
    apply grows_bind; [apply grows_queue_insert_one|]. intros _.
    apply grows_bind; [apply grows_action_insert_one|]. intros _.
    apply grows_ret.
Qed.

Lemma grows_dequeue : grows dequeue.
Proof.
  unfold dequeue.
  apply grows_bind; [apply grows_dt_now|]. intros now.
  apply grows_bind; [apply grows_dequeue_poll|]. intros [[e|] now'].
  - apply grows_bind; [apply grows_queue_update_one|]. intros _.
    apply grows_bind; [apply grows_mutex_release|]. intros _.
    apply grows_bind; [apply grows_action_insert_one|]. intros _.
    apply grows_ret.
  - apply grows_bind; [apply grows_mutex_release|]. intros _.
    apply grows_bind; [apply grows_queue_count_wait|]. intros n.
    apply grows_bind.
    { apply grows_same. intros w r w' H. now inversion H. }
    intros _.
    apply grows_bind; [apply grows_queue_aggregate_states|]. intros _.
    apply grows_bind; [apply grows_self_logger_debug|]. intros _.
    destruct (n =? 0)%nat; [apply grows_raise|apply grows_ret].
Qed.

Lemma grows_dequeue_finish u : grows (dequeue_finish u).
Proof.
  unfold dequeue_finish.
  apply grows_bind; [apply grows_dt_now|]. intros now.
  apply grows_bind; [apply grows_queue_count_uri|]. intros _.
  apply grows_bind; [apply grows_queue_delete_one|]. intros _.
  apply grows_bind; [apply grows_queue_count_uri|]. intros _.
  apply grows_bind; [apply grows_ret|]. intros _.
  apply grows_action_insert_one.
Qed.

(** ** The history of one uri *)

Lemma insert_chrono_snoc a s r :
  Action.before a r = true ->
  Action.insert_chrono a (s ++ [r]) = Action.insert_chrono a s ++ [r].
Proof.
  intros Hb. induction s as [|x s IH]; simpl.
  - now rewrite Hb.
  - destruct (Action.before a x); [reflexivity|]. now rewrite IH.
Qed.

Lemma sort_chrono_snoc l r :
  (forall x, In x l -> Action.before x r = true) ->
  Action.sort_chrono (l ++ [r]) = Action.sort_chrono l ++ [r].
Proof.
  induction l as [|a l IH]; intros H; simpl; [reflexivity|].
  rewrite IH by (intros x Hx; apply H; now right).
  apply insert_chrono_snoc. apply H. now left.
Qed.

Lemma before_earlier a r :
  ActionDoc.ts a < ActionDoc.ts r -> Action.before a r = true.
Proof.
  intros H. unfold Action.before. apply Z.ltb_lt in H. now rewrite H.
Qed.

(** A record of [u] stamped later than all records of [u] comes last in
    the history of [u]. *)
Lemma history_snoc u w w' r :
  action w' = action w ++ [r] ->
  ActionDoc.uri r = u ->
  (forall x, In x (action w) -> ActionDoc.uri x = u ->
             ActionDoc.ts x < ActionDoc.ts r) ->
  history u w' = history u w ++ [r].
Proof.
  intros Ha Hu Hlt. unfold history. rewrite Ha, filter_app. simpl.
  assert (E : String.eqb (ActionDoc.uri r) u = true)
    by now apply String.eqb_eq.
  rewrite E. apply sort_chrono_snoc.
  intros x Hx. apply filter_In in Hx. destruct Hx as [Hx Hxu].
  apply String.eqb_eq in Hxu. apply before_earlier. now apply Hlt.
Qed.

(** What a sequential call that succeeded has done to the audit log. *)
Lemma enqueue_success u w w' :
  quiet w -> enqueue u w = (Return None, w') ->
  action w' = action w ++ [ActionDoc.mk u (clock w) ActEnqueue] /\
  quiet w' /\ clock w' = clock w.
Proof.
  intros Hq. rewrite (enqueue_quiet u w Hq).
  destruct (0 <? List.length (Queue.find_uri u (queue w)))%nat;
    [discriminate|].
  destruct (Queue.insert_one _ (queue w)); [|discriminate].
  destruct (Action.insert_one _ (action w)) as [a|] eqn:E; [|discriminate].
  intros H. inversion H; subst. simpl.
  apply action_insert_one_Some in E. auto.
Qed.

Lemma dequeue_success u w w' :
  quiet w -> dequeue w = (Return (Some u), w') ->
  action w' = action w ++ [ActionDoc.mk u (clock w) ActScrape] /\
  quiet w' /\ clock w <= clock w'.
Proof.
  intros Hq. rewrite (dequeue_quiet w Hq).
  destruct (Queue.sort_ts (Queue.find_state Wait (queue w))) as [|e l].
  - destruct (_logger w); discriminate.
  - cbv zeta.
    destruct (Queue.update_one _ _ (queue w)); [|discriminate].
    destruct (Action.insert_one _ (action w)) as [a|] eqn:E; [|discriminate].
    intros H. inversion H; subst. unfold quiet. cbn.
    apply action_insert_one_Some in E.
    rewrite after_acquire_schedule, after_acquire_clock.
    repeat split; auto. destruct (mutex w); unfold second; lia.
Qed.

Lemma dequeue_finish_success u w w' :
  quiet w -> dequeue_finish u w = (Return tt, w') ->
  action w' = action w ++ [ActionDoc.mk u (clock w) ActFinish] /\
  quiet w' /\ clock w' = clock w.
Proof.
  intros Hq. rewrite (dequeue_finish_quiet u w Hq).
  destruct (Action.insert_one _ (action w)) as [a|] eqn:E; [|discriminate].
  intros H. inversion H; subst. simpl.
  apply action_insert_one_Some in E. auto.
Qed.

(** C7 (as the code has it).  A sequential [enqueue], [dequeue] or
    [dequeue_finish] that succeeds on a uri appends exactly one action
    record, of kind ["enqueue"], ["scrape"] and ["finish"] respectively,
    stamped with the clock reading at the call.  No call of the three,
    whatever its outcome and whatever producers do meanwhile, changes or
    removes a record that is in the audit log.  The history of a uri
    reads its records in the order of their stamps: a uri taken through
    [enqueue], [dequeue] and [dequeue_finish] one call after the other,
    each call in a later millisecond than the one before and than the
    earlier records of the uri, gets enqueue, scrape, finish added to
    its history in that order. *)
Theorem audit_trail w0 u w1 w2 w3 d1 d2 :
  quiet w0 ->
  (forall x, In x (action w0) -> ActionDoc.uri x = u ->
             ms (ActionDoc.ts x) < ms (clock w0)) ->
  enqueue u w0 = (Return None, w1) ->
  ms (clock w0) < ms (clock w0 + d1) ->
  dequeue (elapse d1 w1) = (Return (Some u), w2) ->
  ms (clock w2) < ms (clock w2 + d2) ->
  dequeue_finish u (elapse d2 w2) = (Return tt, w3) ->
  action w1 = action w0 ++ [ActionDoc.mk u (clock w0) ActEnqueue] /\
  action w2 = action w1 ++ [ActionDoc.mk u (clock w0 + d1) ActScrape] /\
  action w3 = action w2 ++ [ActionDoc.mk u (clock w2 + d2) ActFinish] /\
  map ActionDoc.act (history u w3) =
    map ActionDoc.act (history u w0) ++ [ActEnqueue; ActScrape; ActFinish] /\
  (forall id, grows (enqueue id)) /\ grows dequeue /\
  (forall id, grows (dequeue_finish id)).
Proof.
  intros Hq Hold He Hd1 Hd Hd2 Hf.
  destruct (enqueue_success u w0 w1 Hq He) as (A1 & Q1 & C1).
  destruct (dequeue_success u (elapse d1 w1) w2 Q1 Hd) as (A2 & Q2 & C2).
  destruct (dequeue_finish_success u (elapse d2 w2) w3 Q2 Hf) as (A3 & _ & _).
  simpl in A2, A3, C2. rewrite C1 in A2, C2.
  apply ms_lt in Hd1 as L1. apply ms_lt in Hd2 as L2.
  split; [exact A1|]. split; [exact A2|]. split; [exact A3|].
  split; [|split; [exact grows_enqueue|split;
                   [exact grows_dequeue|exact grows_dequeue_finish]]].
  assert (Hold' : forall x, In x (action w0) -> ActionDoc.uri x = u ->
                            ActionDoc.ts x < clock w0).
  { intros x Hx Hxu. apply ms_lt. now apply Hold. }
  assert (H1 : history u w1 =
               history u w0 ++ [ActionDoc.mk u (clock w0) ActEnqueue]).
  { apply history_snoc; auto. }
  assert (H2 : history u w2 =
               history u w1 ++ [ActionDoc.mk u (clock w0 + d1) ActScrape]).
  { apply history_snoc; auto. intros x Hx Hxu. simpl.
    rewrite A1 in Hx. apply in_app_iff in Hx.
    destruct Hx as [Hx|[<-|[]]]; [specialize (Hold' x Hx Hxu)|simpl]; lia. }
  assert (H3 : history u w3 =
               history u w2 ++ [ActionDoc.mk u (clock w2 + d2) ActFinish]).
  { apply history_snoc; auto. intros x Hx Hxu. simpl.
    rewrite A2 in Hx. apply in_app_iff in Hx.
    destruct Hx as [Hx|[<-|[]]]; [|simpl; lia].
    rewrite A1 in Hx. apply in_app_iff in Hx.
    destruct Hx as [Hx|[<-|[]]]; [specialize (Hold' x Hx Hxu)|simpl]; lia. }
  rewrite H3, H2, H1, !map_app, <- !app_assoc. reflexivity.
Qed.

Lemma audit_trail_witness :
  action life1 =
    action (fresh 0) ++ [ActionDoc.mk "u1"%string (clock (fresh 0)) ActEnqueue] /\
  action life2 =
    action life1 ++ [ActionDoc.mk "u1"%string (clock (fresh 0) + 5000) ActScrape] /\
  action life3 =
    action life2 ++ [ActionDoc.mk "u1"%string (clock life2 + 7000) ActFinish] /\
  map ActionDoc.act (history "u1"%string life3) =
    map ActionDoc.act (history "u1"%string (fresh 0)) ++
    [ActEnqueue; ActScrape; ActFinish] /\
  (forall id, grows (enqueue id)) /\ grows dequeue /\
  (forall id, grows (dequeue_finish id)).
Proof.
  apply (audit_trail (fresh 0) "u1"%string life1 life2 life3 5000 7000).
  - reflexivity.
  - intros x [].
  - reflexivity.
  - vm_compute. reflexivity.
  - reflexivity.
  - vm_compute. reflexivity.
  - reflexivity.
Defined.

(** C7, as stated, fails.  ["u9"] is enqueued by a producer while our
    [dequeue] is polling, three seconds after it began; the call then
    finds it and stamps the ["scrape"] record with its own [now], the
    time it began plus one second for its one empty search: the record
    written second bears the earlier date, in the history of ["u9"]
    scrape comes before enqueue, and after [dequeue_finish] the history
    reads scrape, enqueue, finish.  And when the three calls fall within
    one clock reading the records tie, and the history reads enqueue,
    finish, scrape. *)
Lemma history_out_of_order :
  fst (dequeue slow_producer) = Return (Some "u9"%string) /\
  action (snd (dequeue slow_producer)) =
    [ActionDoc.mk "u9"%string 3000000 ActEnqueue;
     ActionDoc.mk "u9"%string 1000000 ActScrape] /\
  history "u9"%string (snd (dequeue slow_producer)) =
    [ActionDoc.mk "u9"%string 1000000 ActScrape;
     ActionDoc.mk "u9"%string 3000000 ActEnqueue] /\
  fst (dequeue_finish "u9"%string (elapse 1000 (snd (dequeue slow_producer)))) =
    Return tt /\
  map ActionDoc.act
      (history "u9"%string
         (snd (dequeue_finish "u9"%string
                 (elapse 1000 (snd (dequeue slow_producer)))))) =
    [ActScrape; ActEnqueue; ActFinish] /\
  map ActionDoc.act (history "a"%string one_instant_life) =
    [ActEnqueue; ActFinish; ActScrape].
Proof.
  vm_compute. repeat split; reflexivity.
Qed.

(** The end-to-end scenario of the specification, as the code runs it
    with a logger injected and a millisecond between two calls: the
    first [enqueue] answers [None]. *)
Example end_to_end :
  let w0 := setLogger (LoggerHandle "crawler") (fresh 0) in
  let (r1, w1) := enqueue "u1"%string w0 in
  let (r2, w2) := enqueue "u1"%string (elapse 1000 w1) in
  let (r3, w3) := dequeue (elapse 1000 w2) in
  let (r4, w4) := dequeue (elapse 1000 w3) in
  let (r5, w5) := dequeue_finish "u1"%string (elapse 1000 w4) in
  let (r6, w6) := is_enqueued "u1"%string w5 in
  r1 = Return None /\ r2 = Return (Some false) /\
  r3 = Return (Some "u1"%string) /\ r4 = Raise EmptyQueueException /\
  r5 = Return tt /\ r6 = Return false /\
  map ActionDoc.act (history "u1"%string w6) =
    [ActEnqueue; ActScrape; ActFinish].
Proof. vm_compute. repeat split. Qed.

(** ** Polling among other consumers *)

Lemma bind_ext {A B} (c1 c2 : M A) (k1 k2 : A -> M B) w :
  c1 w = c2 w -> (forall a w', k1 a w' = k2 a w') ->
  bind c1 k1 w = bind c2 k2 w.
Proof.
  intros Hc Hk. unfold bind. rewrite Hc.
  destruct (c2 w) as [[a|e] w1]; auto.
Qed.

Lemma dequeue_poll_among_alone n : forall others now w,
  Forall (eq NoRelease) others ->
  dequeue_poll_among others n now w = dequeue_poll n now w.
Proof.
  induction n as [|n IH]; intros others now w Ho; [reflexivity|].
  cbn [dequeue_poll_among dequeue_poll].
  assert (Hc : hd NoRelease others = NoRelease)
    by (destruct Ho as [|c l <- _]; reflexivity).
  assert (Ht : Forall (eq NoRelease) (tl others))
    by (destruct Ho; [constructor|assumption]).
  rewrite Hc.
  apply bind_ext; [reflexivity|]. intros _ w1.
  apply bind_ext; [reflexivity|].
  intros [|e l] w2; [now apply IH|reflexivity].
Qed.

(** While no other consumer releases the lock, [dequeue_among] is
    [dequeue]. *)
Lemma dequeue_among_alone others w :
  Forall (eq NoRelease) others -> dequeue_among others w = dequeue w.
Proof.
  intros Ho. unfold dequeue_among, dequeue.
  apply bind_ext; [reflexivity|]. intros now w1.
  apply bind_ext; [now apply dequeue_poll_among_alone|]. reflexivity.
Qed.

Lemma mutex_acquire_among_eq c w :
  mutex_acquire_among c 3 w =
  (Return (acquired c (mutex w)),
   emit (EvAcquire (acquired c (mutex w)))
        (set_mutex true
           (set_clock (clock w + acquire_wait c (mutex w)) w))).
Proof.
  unfold mutex_acquire_among, mutex_acquire, acquired, acquire_wait.
  destruct c as [|d]; destruct (mutex w); try reflexivity.
  cbn [andb negb orb].
  destruct (Z.of_N d <? 3 * second) eqn:E.
  - apply Z.ltb_lt in E. rewrite Z.min_l by lia. reflexivity.
  - apply Z.ltb_ge in E. rewrite Z.min_r by lia. reflexivity.
Qed.

Lemma acquire_wait_bounds c locked :
  0 <= acquire_wait c locked <= 3 * second.
Proof.
  unfold acquire_wait, second.
  destruct locked; [|lia]. destruct c as [|d]; lia.
Qed.

Lemma acquire_waits_bounds n : forall others locked,
  0 <= acquire_waits others locked n <= 3 * second * Z.of_nat n.
Proof.
  induction n as [|n IH]; intros others locked.
  - simpl. lia.
  - cbn [acquire_waits].
    pose proof (acquire_wait_bounds (hd NoRelease others) locked).
    pose proof (IH (tl others) true). lia.
Qed.

(** While nobody releases the lock, each wait on the taken lock lasts
    the three seconds of the timeout. *)
Lemma acquire_waits_taken n : forall others,
  Forall (eq NoRelease) others ->
  acquire_waits others true n = 3 * second * Z.of_nat n.
Proof.
  induction n as [|n IH]; intros others Ho.
  - simpl. lia.
  - cbn [acquire_waits]. rewrite IH.
    + destruct Ho as [|c l <- _]; cbn [hd acquire_wait]; lia.
    + destruct Ho; [constructor|assumption].
Qed.

Lemma acquire_waits_alone n others locked :
  Forall (eq NoRelease) others ->
  3 * second * Z.of_nat (n - 1) <= acquire_waits others locked n.
Proof.
  intros Ho. destruct n as [|n]; [simpl; lia|].
  cbn [acquire_waits]. rewrite acquire_waits_taken.
  - pose proof (acquire_wait_bounds (hd NoRelease others) locked).
    replace (S n - 1)%nat with n by lia. lia.
  - destruct Ho; [constructor|assumption].
Qed.

Lemma settled_same tr w w' :
  trace w' = trace w ++ tr -> clock w' = clock w ->
  schedule w' = schedule w -> settled tr w w'.
Proof.
  intros Ht Hc Hs. split; [exact Ht|]. split; [lia|].
  unfold quiet. intros Hq. split; congruence.
Qed.

Lemma settled_trans a b w1 w2 w3 :
  settled a w1 w2 -> settled b w2 w3 -> settled (a ++ b) w1 w3.
Proof.
  intros (Ht1 & Hc1 & Hq1) (Ht2 & Hc2 & Hq2).
  split; [rewrite Ht2, Ht1; now rewrite app_assoc|].
  split; [lia|].
  intros Hq. destruct (Hq1 Hq) as (E1 & Q2).
  destruct (Hq2 Q2) as (E2 & Q3). split; [lia|exact Q3].
Qed.

Lemma stepped_settled w w1 : stepped w w1 -> settled [] w w1.
Proof.
  intros S. split.
  - rewrite app_nil_r. exact (drift_trace _ _ (st_drift _ _ S)).
  - split; [exact (drift_clock _ _ (st_drift _ _ S))|].
    intros Hq. rewrite (st_quiet _ _ S Hq). auto.
Qed.

Lemma queue_update_one_stepped u s w :
  exists w1, stepped w w1 /\
    queue_update_one u s w =
    match Queue.update_one u s (queue w1) with
    | Some q => (Return tt, emit (EvFlip u (clock w1)) (set_queue q w1))
    | None => (Raise DuplicateKeyError, w1)
    end.
Proof. unfold queue_update_one. apply round_trip_stepped. Qed.

Lemma action_insert_one_stepped r w :
  exists w1, stepped w w1 /\
    action_insert_one r w =
    match Action.insert_one r (action w1) with
    | Some a => (Return tt, set_action a w1)
    | None => (Raise DuplicateKeyError, w1)
    end.
Proof. unfold action_insert_one. apply round_trip_stepped. Qed.

(** The loop among other consumers: [k] iterations find nothing, then
    one finds an entry or the tries are used up; the time it takes is
    the time its calls of [mutex.acquire] wait. *)
Lemma poll_among_spec n : forall others now w,
  exists k r w1 tr,
    dequeue_poll_among others n now w =
      (Return (r, now + Z.of_nat k * second), w1) /\
    trace w1 = trace w ++ tr /\
    misses tr = k /\
    attempts tr = (k + (if found r then 1 else 0))%nat /\
    (attempts tr <= n)%nat /\
    (found r = false -> k = n) /\
    (n <> 0%nat -> mutex w1 = true) /\
    clock w + acquire_waits others (mutex w) (attempts tr) <= clock w1 /\
    (quiet w ->
     quiet w1 /\
     clock w1 = clock w + acquire_waits others (mutex w) (attempts tr)).
Proof.
  induction n as [|n IH]; intros others now w.
  - exists 0%nat, None, w, []. cbn [dequeue_poll_among]. unfold ret.
    rewrite app_nil_r, Z.add_0_r. cbn.
    repeat split; auto; try lia.
  - cbn [dequeue_poll_among]. unfold bind at 1.
    rewrite mutex_acquire_among_eq.
    set (c := hd NoRelease others).
    set (wa := emit (EvAcquire (acquired c (mutex w)))
                 (set_mutex true
                    (set_clock (clock w + acquire_wait c (mutex w)) w))).
    assert (Hwa : mutex wa = true /\
                  trace wa = trace w ++ [EvAcquire (acquired c (mutex w))] /\
                  clock wa = clock w + acquire_wait c (mutex w) /\
                  schedule wa = schedule w)
      by (repeat split; reflexivity).
    clearbody wa. destruct Hwa as (Hma & Hta & Hca & Hsa).
    destruct (find_oldest_wait_stepped wa) as (wf & entries & Hs & Hf).
    unfold bind at 1. rewrite Hf. clear Hf.
    pose proof (st_drift _ _ Hs) as [dm dt _ dc _].
    destruct entries as [|e rest].
    + set (w2 := emit (EvFind false) wf).
      assert (Hw2 : mutex w2 = true /\ trace w2 = trace wf ++ [EvFind false] /\
                    clock w2 = clock wf /\ schedule w2 = schedule wf)
        by (repeat split; simpl; congruence).
      clearbody w2. destruct Hw2 as (Hm2 & Ht2 & Hc2 & Hs2).
      destruct (IH (tl others) (now + 1 * second) w2)
        as (k & r & w1 & tr & Hp & Ht & Hmi & Hat & Hle & Hn & Hm & Hc & Hq).
      rewrite Hm2 in Hc, Hq.
      exists (S k), r, w1,
        (EvAcquire (acquired c (mutex w)) :: EvFind false :: tr).
      rewrite Hp.
      assert (Hmi' : misses (EvAcquire (acquired c (mutex w)) ::
                             EvFind false :: tr) = S k)
        by (unfold misses in *; simpl; now rewrite Hmi).
      assert (Hat' : attempts (EvAcquire (acquired c (mutex w)) ::
                               EvFind false :: tr) =
                     S (k + (if found r then 1 else 0)))
        by (unfold attempts in *; simpl; now rewrite Hat).
      rewrite Hat'. rewrite Hat in Hc, Hq, Hle.
      cbn [acquire_waits]. fold c.
      split; [do 3 f_equal; unfold second; lia|].
      split; [rewrite Ht, Ht2, dt, Hta, <- !app_assoc; reflexivity|].
      split; [exact Hmi'|]. split; [reflexivity|].
      split; [lia|]. split; [intros H; f_equal; auto|].
      split.
      { intros _. destruct n as [|n']; [|apply Hm; discriminate].
        assert (k = 0%nat) by lia. subst k.
        destruct r; cbn [found] in Hle; [lia|].
        cbn [dequeue_poll_among] in Hp. inversion Hp; subst. exact Hm2. }
      split; [lia|].
      intros Hq0.
      assert (Hqa : quiet wa) by (unfold quiet in *; congruence).
      rewrite (st_quiet _ _ Hs Hqa) in Hs2, Hc2.
      assert (Hq2 : quiet w2) by (unfold quiet in *; congruence).
      destruct (Hq Hq2) as (Q1 & E1). split; [exact Q1|lia].
    + exists 0%nat, (Some e), (emit (EvFind true) wf),
        [EvAcquire (acquired c (mutex w)); EvFind true].
      unfold ret. cbn [found Nat.add acquire_waits]. fold c.
      split; [do 3 f_equal; simpl; lia|].
      split; [cbn [trace emit]; rewrite dt, Hta, <- !app_assoc; reflexivity|].
      split; [reflexivity|]. split; [reflexivity|].
      change (attempts [EvAcquire (acquired c (mutex w)); EvFind true])
        with 1%nat.
      cbn [acquire_waits]. fold c.
      split; [lia|]. split; [discriminate|].
      split; [intros _; cbn [mutex emit]; congruence|].
      split; [cbn [clock emit]; lia|].
      intros Hq0.
      assert (Hqa : quiet wa) by (unfold quiet in *; congruence).
      rewrite (st_quiet _ _ Hs Hqa).
      split; [exact Hqa|]. cbn [clock emit]. lia.
Qed.

(** Every call of [dequeue] among other consumers: its searches, the
    time it takes, and the stamp of its record. *)
Lemma dequeue_among_run others w r w' :
  dequeue_among others w = (r, w') ->
  exists tr (hit : bool),
    trace w' = trace w ++ tr /\
    attempts tr = (misses tr + (if hit then 1 else 0))%nat /\
    (attempts tr <= 10)%nat /\
    (hit = false -> misses tr = 10%nat) /\
    (hit = true ->
     r = Raise DuplicateKeyError \/ exists u, r = Return (Some u)) /\
    (hit = false ->
     r <> Raise DuplicateKeyError /\ forall u, r <> Return (Some u)) /\
    clock w + acquire_waits others (mutex w) (attempts tr) <= clock w' /\
    (quiet w ->
     clock w' = clock w + acquire_waits others (mutex w) (attempts tr)) /\
    (forall u, r = Return (Some u) ->
       exists earlier,
         action w' =
         earlier ++
         [ActionDoc.mk u (clock w + Z.of_nat (misses tr) * second) ActScrape]).
Proof.
  unfold dequeue_among, dt_now. unfold bind at 1.
  destruct (poll_among_spec 10 others (clock w) w)
    as (k & r0 & w1 & tr1 & Hp & Ht1 & Hmi & Hat & Hle & Hn & Hm1 & Hc1 & Hq1).
  specialize (Hm1 ltac:(discriminate)).
  unfold bind at 1. rewrite Hp. clear Hp.
  assert (Hend : forall tl w',
             settled tl w1 w' -> attempts tl = 0%nat -> misses tl = 0%nat ->
             trace w' = trace w ++ tr1 ++ tl /\
             attempts (tr1 ++ tl) = attempts tr1 /\
             misses (tr1 ++ tl) = k /\
             clock w + acquire_waits others (mutex w) (attempts tr1)
               <= clock w' /\
             (quiet w ->
              clock w' =
              clock w + acquire_waits others (mutex w) (attempts tr1))).
  { intros tl w2 (Ht & Hc & Hq) Ha Hm.
    split; [rewrite Ht, Ht1; now rewrite app_assoc|].
    split; [rewrite attempts_app; lia|].
    split; [rewrite misses_app; lia|].
    split; [lia|].
    intros Hq0. destruct (Hq1 Hq0) as (Q1 & E1).
    destruct (Hq Q1) as (E2 & _). lia. }
  destruct r0 as [e|]; cbn [found] in Hat, Hn.
  - (* an iteration found [e] *)
    destruct (queue_update_one_stepped (QueueDoc.uri e) Scrape w1)
      as (w2 & S2 & Hu).
    unfold bind at 1. rewrite Hu. clear Hu.
    pose proof (stepped_settled _ _ S2) as T2.
    pose proof (drift_mutex _ _ (st_drift _ _ S2)) as Hm2.
    destruct (Queue.update_one _ _ (queue w2)) as [q|].
    + set (w3 := emit (EvFlip (QueueDoc.uri e) (clock w2)) (set_queue q w2)).
      assert (T3 : settled [EvFlip (QueueDoc.uri e) (clock w2)] w2 w3)
        by (apply settled_same; reflexivity).
      assert (Hm3 : mutex w3 = true) by (simpl; congruence).
      clearbody w3.
      unfold bind at 1. rewrite (mutex_release_locked w3 Hm3).
      set (w4 := emit EvRelease (set_mutex false w3)).
      assert (T4 : settled [EvRelease] w3 w4)
        by (apply settled_same; reflexivity).
      clearbody w4.
      destruct (action_insert_one_stepped
                  (ActionDoc.mk (QueueDoc.uri e)
                     (clock w + Z.of_nat k * second) ActScrape) w4)
        as (w5 & S5 & Ha).
      unfold bind at 1. rewrite Ha. clear Ha.
      pose proof (stepped_settled _ _ S5) as T5.
      pose proof (settled_trans _ _ _ _ _
                    (settled_trans _ _ _ _ _
                       (settled_trans _ _ _ _ _ T2 T3) T4) T5) as T.
      cbn [app] in T.
      intros H.
      exists (tr1 ++ [EvFlip (QueueDoc.uri e) (clock w2); EvRelease]), true.
      destruct (Action.insert_one _ (action w5)) as [a|] eqn:Hi;
        inversion H; subst r w'; clear H.
      * assert (T' : settled [EvFlip (QueueDoc.uri e) (clock w2); EvRelease]
                             w1 (set_action a w5)).
        { destruct T as (A & B & C). split; [exact A|].
          split; [exact B|exact C]. }
        destruct (Hend _ _ T' eq_refl eq_refl) as (E1 & E2 & E3 & E4 & E5).
        rewrite E2, E3.
        split; [exact E1|]. split; [exact Hat|]. split; [lia|].
        split; [discriminate|].
        split; [intros _; right; eauto|]. split; [discriminate|].
        split; [exact E4|]. split; [exact E5|].
        intros u Hu. inversion Hu; subst u.
        exists (action w5). cbn [action set_action].
        now apply action_insert_one_Some.
      * destruct (Hend _ _ T eq_refl eq_refl) as (E1 & E2 & E3 & E4 & E5).
        rewrite E2, E3.
        split; [exact E1|]. split; [exact Hat|]. split; [lia|].
        split; [discriminate|].
        split; [intros _; now left|]. split; [discriminate|].
        split; [exact E4|]. split; [exact E5|]. discriminate.
    + intros H. inversion H; subst r w'; clear H.
      exists (tr1 ++ []), true.
      destruct (Hend _ _ T2 eq_refl eq_refl) as (E1 & E2 & E3 & E4 & E5).
      rewrite E2, E3.
      split; [exact E1|]. split; [exact Hat|]. split; [lia|].
      split; [discriminate|].
      split; [intros _; now left|]. split; [discriminate|].
      split; [exact E4|]. split; [exact E5|]. discriminate.
  - (* ten iterations found nothing *)
    assert (Hk : k = 10%nat) by auto.
    unfold bind at 1. rewrite (mutex_release_locked w1 Hm1).
    set (w2 := emit EvRelease (set_mutex false w1)).
    assert (T2 : settled [EvRelease] w1 w2)
      by (apply settled_same; reflexivity).
    clearbody w2.
    destruct (queue_count_wait_stepped w2) as (w3 & S3 & Hc).
    unfold bind at 1. rewrite Hc. clear Hc.
    pose proof (stepped_settled _ _ S3) as T3.
    set (n0 := List.length (Queue.find_state Wait (queue w3))).
    unfold bind at 1.
    set (w4 := emit (EvRecount n0) w3).
    assert (T4 : settled [EvRecount n0] w3 w4)
      by (apply settled_same; reflexivity).
    clearbody w4.
    destruct (queue_aggregate_states_stepped w4) as (w5 & counts & S5 & Hg).
    unfold bind at 1. rewrite Hg. clear Hg.
    pose proof (stepped_settled _ _ S5) as T5.
    pose proof (settled_trans _ _ _ _ _
                  (settled_trans _ _ _ _ _
                     (settled_trans _ _ _ _ _ T2 T3) T4) T5) as T.
    cbn [app] in T.
    unfold bind, self_logger_debug. intros Hrun.
    assert (Hw' : w' = w5 /\ r <> Raise DuplicateKeyError /\
                  forall u, r <> Return (Some u)).
    { destruct (_logger w5); [destruct (n0 =? 0)%nat|]; inversion Hrun;
        repeat split; discriminate. }
    destruct Hw' as (-> & Hr1 & Hr2).
    exists (tr1 ++ [EvRelease; EvRecount n0]), false.
    destruct (Hend _ _ T eq_refl eq_refl) as (E1 & E2 & E3 & E4 & E5).
    rewrite E2, E3.
    split; [exact E1|]. split; [exact Hat|]. split; [lia|].
    split; [intros _; exact Hk|]. split; [discriminate|].
    split; [intros _; split; assumption|].
    split; [exact E4|]. split; [exact E5|].
    intros u Hu. exfalso. exact (Hr2 u Hu).
Qed.

(** C9 (as the code has it).  One call of [dequeue] makes at least one
    and at most ten searches, ten when none finds an entry.  Its loop
    holds no delay of its own: an iteration that finds nothing moves the
    local [now] by one second, which shows in the stamp of the
    ["scrape"] record and in nothing else, and goes on to the next
    [mutex.acquire(blocking=True, timeout=3)].  The time the call takes
    is, producers and the passing of time apart, the time these calls of
    [acquire] wait: none on a free lock, on a taken lock the time until
    another consumer releases it, and three seconds at most.  So while
    no other consumer releases the lock, which is when [dequeue_among]
    is [dequeue], each further search comes three seconds after the one
    before, the lock being taken by this very call if by no other; among
    consumers that release it, searches follow each other with less
    delay, down to none. *)
Theorem polling_waits_for_the_lock others w r w' tr :
  dequeue_among others w = (r, w') -> trace w' = trace w ++ tr ->
  (1 <= attempts tr <= 10)%nat /\
  (r <> Raise DuplicateKeyError -> (forall u, r <> Return (Some u)) ->
   misses tr = 10%nat /\ attempts tr = 10%nat) /\
  (forall u, r = Return (Some u) ->
     exists earlier,
       action w' =
       earlier ++
       [ActionDoc.mk u (clock w + Z.of_nat (misses tr) * second) ActScrape]) /\
  clock w + acquire_waits others (mutex w) (attempts tr) <= clock w' /\
  (quiet w ->
   clock w' = clock w + acquire_waits others (mutex w) (attempts tr) /\
   clock w' <= clock w + 3 * second * Z.of_nat (attempts tr)) /\
  (Forall (eq NoRelease) others ->
   dequeue w = (r, w') /\
   clock w + 3 * second * Z.of_nat (attempts tr - 1) <= clock w').
Proof.
  intros H Ht. pose proof H as Hrun. apply dequeue_among_run in Hrun.
  destruct Hrun as (tr0 & hit & Ht0 & Hat & Hle & Hmiss & Hhit & Hnohit &
                    Hc & Hq & Hstamp).
  rewrite Ht in Ht0. apply app_inv_head in Ht0. subst tr0.
  pose proof (acquire_waits_bounds (attempts tr) others (mutex w)) as Hb.
  split.
  { destruct hit; [lia|]. rewrite Hat, (Hmiss eq_refl). lia. }
  split.
  { intros Hr1 Hr2. destruct hit.
    - exfalso. destruct (Hhit eq_refl) as [E|[u E]];
        [exact (Hr1 E)|exact (Hr2 u E)].
    - rewrite Hat, (Hmiss eq_refl). auto. }
  split; [exact Hstamp|].
  split; [exact Hc|].
  split; [intros Hq0; specialize (Hq Hq0); lia|].
  intros Ho. split.
  - rewrite <- (dequeue_among_alone others w Ho). exact H.
  - pose proof (acquire_waits_alone (attempts tr) others (mutex w) Ho). lia.
Qed.

Lemma polling_waits_for_the_lock_witness :
  ((1 <= attempts (trace (snd (dequeue_among [] idle_store))) <= 10)%nat /\
   (fst (dequeue_among [] idle_store) <> Raise DuplicateKeyError ->
    (forall u, fst (dequeue_among [] idle_store) <> Return (Some u)) ->
    misses (trace (snd (dequeue_among [] idle_store))) = 10%nat /\
    attempts (trace (snd (dequeue_among [] idle_store))) = 10%nat) /\
   (forall u, fst (dequeue_among [] idle_store) = Return (Some u) ->
      exists earlier,
        action (snd (dequeue_among [] idle_store)) =
        earlier ++
        [ActionDoc.mk u
           (clock idle_store +
            Z.of_nat (misses (trace (snd (dequeue_among [] idle_store)))) * second)
           ActScrape]) /\
   clock idle_store +
     acquire_waits [] (mutex idle_store)
       (attempts (trace (snd (dequeue_among [] idle_store))))
     <= clock (snd (dequeue_among [] idle_store)) /\
   (quiet idle_store ->
    clock (snd (dequeue_among [] idle_store)) =
      clock idle_store +
      acquire_waits [] (mutex idle_store)
        (attempts (trace (snd (dequeue_among [] idle_store)))) /\
    clock (snd (dequeue_among [] idle_store)) <=
      clock idle_store +
      3 * second * Z.of_nat (attempts (trace (snd (dequeue_among [] idle_store))))) /\
   (Forall (eq NoRelease) [] ->
    dequeue idle_store = (fst (dequeue_among [] idle_store), snd (dequeue_among [] idle_store)) /\
    clock idle_store +
      3 * second * Z.of_nat (attempts (trace (snd (dequeue_among [] idle_store))) - 1)
      <= clock (snd (dequeue_among [] idle_store)))) /\
  ((1 <= attempts (trace (snd (dequeue_among one_release idle_store))) <= 10)%nat /\
   (fst (dequeue_among one_release idle_store) <> Raise DuplicateKeyError ->
    (forall u, fst (dequeue_among one_release idle_store) <> Return (Some u)) ->
    misses (trace (snd (dequeue_among one_release idle_store))) = 10%nat /\
    attempts (trace (snd (dequeue_among one_release idle_store))) = 10%nat) /\
   (forall u, fst (dequeue_among one_release idle_store) = Return (Some u) ->
      exists earlier,
        action (snd (dequeue_among one_release idle_store)) =
        earlier ++
        [ActionDoc.mk u
           (clock idle_store +
            Z.of_nat (misses (trace (snd (dequeue_among one_release idle_store)))) * second)
           ActScrape]) /\
   clock idle_store +
     acquire_waits one_release (mutex idle_store)
       (attempts (trace (snd (dequeue_among one_release idle_store))))
     <= clock (snd (dequeue_among one_release idle_store)) /\
   (quiet idle_store ->
    clock (snd (dequeue_among one_release idle_store)) =
      clock idle_store +
      acquire_waits one_release (mutex idle_store)
        (attempts (trace (snd (dequeue_among one_release idle_store)))) /\
    clock (snd (dequeue_among one_release idle_store)) <=
      clock idle_store +
      3 * second * Z.of_nat (attempts (trace (snd (dequeue_among one_release idle_store))))) /\
   (Forall (eq NoRelease) one_release ->
    dequeue idle_store = (fst (dequeue_among one_release idle_store), snd (dequeue_among one_release idle_store)) /\
    clock idle_store +
      3 * second * Z.of_nat (attempts (trace (snd (dequeue_among one_release idle_store))) - 1)
      <= clock (snd (dequeue_among one_release idle_store)))).
Proof.
  split.
  - apply (polling_waits_for_the_lock [] idle_store
             (fst (dequeue_among [] idle_store))).
    + apply surjective_pairing.
    + reflexivity.
  - apply (polling_waits_for_the_lock one_release idle_store
             (fst (dequeue_among one_release idle_store))).
    + apply surjective_pairing.
    + reflexivity.
Defined.

(** C9, as stated, fails.  The queue is empty.  When another consumer
    releases the lock while our call makes its first search, the second
    [mutex.acquire] of the loop returns at once and the second search is
    made at the clock reading of the first.  When that happens at each
    search, the ten searches are made at one and the same clock reading,
    with no delay at all between two of them, before the call fails with
    [EmptyQueueException]. *)
Lemma polling_without_delay :
  attempts (trace (snd (dequeue_poll_among [NoRelease; ReleaseAfter 0] 2 0
                          idle_store))) = 2%nat /\
  clock (snd (dequeue_poll_among [NoRelease; ReleaseAfter 0] 2 0
                idle_store)) = clock idle_store /\
  fst (dequeue_among eager_consumers idle_store) =
    Raise EmptyQueueException /\
  attempts (trace (snd (dequeue_among eager_consumers idle_store))) =
    10%nat /\
  misses (trace (snd (dequeue_among eager_consumers idle_store))) =
    10%nat /\
  clock (snd (dequeue_among eager_consumers idle_store)) =
    clock idle_store.
Proof.
  vm_compute. repeat split; reflexivity.
Qed.

(** * Further properties of the queue operations *)

(** ** Two entries enqueued at the same instant *)

(** X1.  A uri that has no entry is refused all the same when a waiting
    entry already bears the current clock reading: [idx_ts] is unique on
    [(state, ts)], so the insert of [enqueue] fails, the
    [DuplicateKeyError] reaches the caller, and neither the queue nor the
    audit log has changed. *)
Theorem enqueue_same_instant_refused w u d :
  quiet w ->
  ~ In u (map QueueDoc.uri (queue w)) ->
  In d (queue w) -> QueueDoc.state d = Wait -> QueueDoc.ts d = clock w ->
  enqueue u w = (Raise DuplicateKeyError, w).
Proof.
  intros Hq Hu Hd Hs Ht. rewrite (enqueue_quiet u w Hq).
  apply QueueWrites.find_uri_nil in Hu as E. rewrite E. simpl.
  unfold Queue.insert_one. cbn [QueueDoc.uri QueueDoc.state QueueDoc.ts].
  apply QueueWrites.existsb_same_uri in Hu. rewrite Hu.
  assert (Hx : existsb (Queue.same_state_ts Wait (clock w)) (queue w) = true).
  { apply existsb_exists. exists d. split; [exact Hd|].
    unfold Queue.same_state_ts. rewrite Hs, Ht, Z.eqb_refl. reflexivity. }
  now rewrite Hx.
Qed.

Lemma enqueue_same_instant_refused_witness :
  enqueue "u2"%string life1 = (Raise DuplicateKeyError, life1).
Proof.
  apply (enqueue_same_instant_refused life1 "u2"%string
           (QueueDoc.mk "u1"%string 0 Wait)).
  - reflexivity.
  - simpl. intuition discriminate.
  - simpl. now left.
  - reflexivity.
  - reflexivity.
Defined.

(** ** A flip that [idx_ts] refuses *)

Lemma dequeue_refused_once w e x :
  quiet w -> indexed (queue w) ->
  In e (queue w) -> QueueDoc.state e = Wait ->
  least e (Queue.find_state Wait (queue w)) ->
  In x (queue w) -> QueueDoc.state x = Scrape ->
  QueueDoc.ts x = QueueDoc.ts e ->
  dequeue w = (Raise DuplicateKeyError, emit (EvFind true) (after_acquire w)).
Proof.
  intros Hq [Hu Ht] Hin Hst Hmin Hx Hxs Hxt.
  rewrite (dequeue_quiet w Hq).
  destruct (oldest_first _ _ Ht Hin Hst Hmin) as (l & ->). cbv zeta.
  unfold Queue.update_one. rewrite (QueueWrites.find_unique e _ Hu Hin).
  rewrite Hst. cbn [state_eqb].
  assert (E : existsb (Queue.same_state_ts Scrape (QueueDoc.ts e)) (queue w)
              = true).
  { apply existsb_exists. exists x. split; [exact Hx|].
    unfold Queue.same_state_ts. rewrite Hxs, Hxt, Z.eqb_refl. reflexivity. }
  now rewrite E.
Qed.

(** X2.  When the oldest waiting entry bears the timestamp of an entry
    that is being scraped, [idx_ts] refuses the flip to ["scrape"]: a
    sequential [dequeue] fails with [DuplicateKeyError] after its first
    search, having changed neither the queue nor the audit log, and
    without reaching [mutex.release()], so the lock stays taken.  The
    entry is still the oldest one waiting, so every later [dequeue] fails
    in the same way: the queue is stuck. *)
Theorem dequeue_stuck_on_refused_flip w e x :
  quiet w -> indexed (queue w) ->
  In e (queue w) -> QueueDoc.state e = Wait ->
  least e (Queue.find_state Wait (queue w)) ->
  In x (queue w) -> QueueDoc.state x = Scrape ->
  QueueDoc.ts x = QueueDoc.ts e ->
  (exists w',
      dequeue w = (Raise DuplicateKeyError, w') /\
      queue w' = queue w /\ action w' = action w /\
      trace w' = trace w ++ [EvAcquire (negb (mutex w)); EvFind true] /\
      mutex w' = true) /\
  (forall n, fst (dequeue_times n w) = repeat (Raise DuplicateKeyError) n).
Proof.
  intros Hq Hi Hin Hst Hmin Hx Hxs Hxt. split.
  - exists (emit (EvFind true) (after_acquire w)).
    split; [now apply (dequeue_refused_once w e x)|].
    cbn [queue action trace mutex emit].
    rewrite after_acquire_queue, after_acquire_action, after_acquire_trace,
      after_acquire_mutex, <- app_assoc.
    repeat split; reflexivity.
  - intros n. revert w Hq Hi Hin Hmin Hx.
    induction n as [|n IH]; intros w Hq Hi Hin Hmin Hx; [reflexivity|].
    cbn [dequeue_times].
    rewrite (dequeue_refused_once w e x Hq Hi Hin Hst Hmin Hx Hxs Hxt).
    specialize (IH (emit (EvFind true) (after_acquire w))).
    destruct (dequeue_times n (emit (EvFind true) (after_acquire w)))
      as [rs w2].
    cbn [fst repeat]. f_equal. apply IH; assumption.
Qed.

Lemma dequeue_stuck_on_refused_flip_witness :
  (exists w',
      dequeue same_instant = (Raise DuplicateKeyError, w') /\
      queue w' = queue same_instant /\ action w' = action same_instant /\
      trace w' =
        trace same_instant ++ [EvAcquire (negb (mutex same_instant)); EvFind true] /\
      mutex w' = true) /\
  (forall n, fst (dequeue_times n same_instant) =
             repeat (Raise DuplicateKeyError) n).
Proof.
  apply (dequeue_stuck_on_refused_flip same_instant
           (QueueDoc.mk "b"%string 0 Wait) (QueueDoc.mk "a"%string 0 Scrape)).
  - reflexivity.
  - split; distinct.
  - simpl. auto.
  - reflexivity.
  - intros y [<-|[]]. simpl. lia.
  - simpl. auto.
  - reflexivity.
  - reflexivity.
Defined.

(** ** How long a call of [dequeue] takes *)

Lemma after_misses_S n w : after_misses (S n) w = after_misses n (after_miss w).
Proof. reflexivity. Qed.

Lemma after_misses_clock n : forall w,
  mutex w = true ->
  clock (after_misses n w) = clock w + 3 * second * Z.of_nat n.
Proof.
  induction n as [|n IH]; intros w Hm.
  - change (after_misses 0 w) with w. simpl. lia.
  - rewrite after_misses_S, IH by apply after_miss_mutex.
    change (clock (after_miss w)) with (clock (after_acquire w)).
    rewrite after_acquire_clock, Hm. lia.
Qed.

(** X3.  What a sequential [dequeue] costs its caller in wall-clock time.
    With an entry waiting it comes back at once when the lock is free and
    after the three seconds of one timed-out [mutex.acquire] when another
    thread holds the lock.  With nothing waiting it blocks for 27 seconds
    before it fails (the nine acquisitions after the first time out on
    the lock the call itself holds), and for 30 seconds when another
    thread holds the lock. *)
Theorem dequeue_duration w :
  quiet w ->
  clock (snd (dequeue w)) =
  clock w +
  match Queue.find_state Wait (queue w) with
  | _ :: _ => if mutex w then 3 * second else 0
  | [] => if mutex w then 30 * second else 27 * second
  end.
Proof.
  intros Hq. rewrite (dequeue_quiet w Hq).
  destruct (Queue.sort_ts (Queue.find_state Wait (queue w))) as [|e l] eqn:Hs.
  - apply QueueFacts.sort_ts_nil in Hs. rewrite Hs.
    cbn [snd]. unfold after_empty. cbn [clock emit set_mutex].
    rewrite after_misses_S, after_misses_clock by apply after_miss_mutex.
    change (clock (after_miss w)) with (clock (after_acquire w)).
    rewrite after_acquire_clock.
    destruct (mutex w); unfold second; simpl; lia.
  - destruct (Queue.find_state Wait (queue w)) as [|d rest]; [discriminate|].
    cbv zeta.
    assert (Hc : clock (after_acquire w) =
                 clock w + (if mutex w then 3 * second else 0))
      by (rewrite after_acquire_clock; destruct (mutex w); lia).
    destruct (Queue.update_one _ _ (queue w)); [|exact Hc].
    destruct (Action.insert_one _ (action w)); exact Hc.
Qed.

Lemma dequeue_duration_witness :
  clock (snd (dequeue (fresh 0))) =
  clock (fresh 0) +
  match Queue.find_state Wait (queue (fresh 0)) with
  | _ :: _ => if mutex (fresh 0) then 3 * second else 0
  | [] => if mutex (fresh 0) then 30 * second else 27 * second
  end.
Proof. apply (dequeue_duration (fresh 0)). reflexivity. Defined.

(** ** The guard, entered with the lock free *)

Lemma poll_events_free (k : nat) (hit : bool) :
  (1 <= k + (if hit then 1 else 0))%nat ->
  exists rest,
    poll_events false k hit = EvAcquire true :: rest /\
    ~ In (EvAcquire true) rest.
Proof.
  intros H. destruct (poll_events_head false k hit H) as (b & tl & Hl & Hp).
  exists (EvFind b :: tl). split; [exact Hp|].
  destruct (locked_poll_events_counts k hit) as (_ & _ & _ & Hi).
  rewrite Hl in Hi. intros Hin. apply Hi. now right.
Qed.

(** X4.  Whatever producers do meanwhile, a call of [dequeue] entered
    with the lock free takes the lock at its first [mutex.acquire] and at
    no later one.  When the call ends with the lock free, every search
    and the state flip were made under the guard and the lock was
    released exactly once.  The call ends with the lock still taken only
    when [idx_ts] refused the flip: it then fails with
    [DuplicateKeyError] and has released nothing. *)
Theorem dequeue_guard_from_free_lock w r w' tr :
  mutex w = false ->
  dequeue w = (r, w') -> trace w' = trace w ++ tr ->
  (exists rest, tr = EvAcquire true :: rest /\ ~ In (EvAcquire true) rest) /\
  (mutex w' = false -> guarded false tr = true /\ releases tr = 1%nat) /\
  (mutex w' = true -> r = Raise DuplicateKeyError /\ releases tr = 0%nat).
Proof.
  intros Hm H Ht. apply dequeue_run in H.
  destruct H as [k Hk Ht' Hr Hx _|k u t Hk Ht' _ _ Hx _|n Ht' Hx _ _];
    rewrite Hm, Ht in Ht'; apply app_inv_head in Ht'; subst tr.
  - split; [|split].
    + apply poll_events_free. lia.
    + congruence.
    + intros _. split; [exact Hr|].
      now destruct (poll_events_counts false k true) as (_ & _ & ->).
  - split; [|split].
    + destruct (poll_events_free k true) as (rest & -> & Hi); [lia|].
      exists (rest ++ [EvFlip u t; EvRelease]). split; [reflexivity|].
      intros Hin. apply in_app_iff in Hin.
      destruct Hin as [Hin|[Hin|[Hin|[]]]]; try discriminate. contradiction.
    + intros _. rewrite guarded_poll_free by lia. split; [reflexivity|].
      unfold releases. rewrite filter_app, length_app.
      destruct (poll_events_counts false k true) as (_ & _ & Hr).
      unfold releases in Hr. rewrite Hr. reflexivity.
    + congruence.
  - split; [|split].
    + destruct (poll_events_free 10 false) as (rest & -> & Hi); [simpl; lia|].
      exists (rest ++ [EvRelease; EvRecount n]). split; [reflexivity|].
      intros Hin. apply in_app_iff in Hin.
      destruct Hin as [Hin|[Hin|[Hin|[]]]]; try discriminate. contradiction.
    + intros _. rewrite guarded_poll_free by (simpl; lia).
      split; [reflexivity|].
      unfold releases. rewrite filter_app, length_app.
      destruct (poll_events_counts false 10 false) as (_ & _ & Hr).
      unfold releases in Hr. rewrite Hr. reflexivity.
    + congruence.
Qed.

Lemma dequeue_guard_from_free_lock_witness :
  (exists rest,
      trace (snd (dequeue slow_producer)) = EvAcquire true :: rest /\
      ~ In (EvAcquire true) rest) /\
  (mutex (snd (dequeue slow_producer)) = false ->
   guarded false (trace (snd (dequeue slow_producer))) = true /\
   releases (trace (snd (dequeue slow_producer))) = 1%nat) /\
  (mutex (snd (dequeue slow_producer)) = true ->
   fst (dequeue slow_producer) = Raise DuplicateKeyError /\
   releases (trace (snd (dequeue slow_producer))) = 0%nat).
Proof.
  apply (dequeue_guard_from_free_lock slow_producer).
  - reflexivity.
  - apply surjective_pairing.
  - reflexivity.
Defined.

(** ** Where the logger is consulted *)

Lemma logger_blind_ret {A} (a : A) : logger_blind (ret a).
Proof. intros l w. reflexivity. Qed.

Lemma logger_blind_bind {A B} (c : M A) (k : A -> M B) :
  logger_blind c -> (forall a, logger_blind (k a)) -> logger_blind (bind c k).
Proof.
  intros Hc Hk l w. unfold bind. rewrite (Hc l w).
  destruct (c w) as [[a|e] w1]; cbn [fst snd]; [apply Hk|reflexivity].
Qed.

Lemma produce_setLogger l u w :
  produce u (setLogger l w) = setLogger l (produce u w).
Proof.
  unfold produce.
  change (queue (setLogger l w)) with (queue w).
  change (action (setLogger l w)) with (action w).
  change (clock (setLogger l w)) with (clock w).
  destruct (0 <? List.length (Queue.find_uri u (queue w)))%nat;
    [reflexivity|].
  destruct (Queue.insert_one _ (queue w)); [|reflexivity].
  destruct (Action.insert_one _ (action w)); reflexivity.
Qed.

Lemma logger_blind_round_trip : logger_blind round_trip.
Proof.
  intros l w. unfold round_trip.
  change (schedule (setLogger l w)) with (schedule w).
  destruct (schedule w) as [|[d|u] rest]; try reflexivity.
  cbn [interfere fst snd].
  change (set_schedule rest (setLogger l w))
    with (setLogger l (set_schedule rest w)).
  now rewrite produce_setLogger.
Qed.

Lemma bind_setLogger {A B} (c : M A) (k : A -> M B) l w :
  logger_blind c ->
  bind c k (setLogger l w) =
  match c w with
  | (Return a, w1) => k a (setLogger l w1)
  | (Raise e, w1) => (Raise e, setLogger l w1)
  end.
Proof.
  intros Hc. unfold bind. rewrite (Hc l w).
  destruct (c w) as [[a|e] w1]; reflexivity.
Qed.

(** A step that reads and writes the store without looking at the
    logger, after its round trip. *)
Lemma logger_blind_step {A} (f : M A) :
  logger_blind f -> logger_blind (round_trip ;; f).
Proof.
  intros Hf. apply logger_blind_bind; [apply logger_blind_round_trip|].
  intros _. exact Hf.
Qed.

Lemma logger_blind_queue_count_uri u : logger_blind (queue_count_uri u).
Proof. apply logger_blind_step. intros l w. reflexivity. Qed.

Lemma logger_blind_queue_insert_one d : logger_blind (queue_insert_one d).
Proof.
  apply logger_blind_step. intros l w.
  change (queue (setLogger l w)) with (queue w).
  destruct (Queue.insert_one d (queue w)); reflexivity.
Qed.

Lemma logger_blind_queue_update_one u s : logger_blind (queue_update_one u s).
Proof.
  apply logger_blind_step. intros l w.
  change (queue (setLogger l w)) with (queue w).
  destruct (Queue.update_one u s (queue w)); reflexivity.
Qed.

Lemma logger_blind_queue_delete_one u : logger_blind (queue_delete_one u).
Proof. apply logger_blind_step. intros l w. reflexivity. Qed.

Lemma logger_blind_action_insert_one r : logger_blind (action_insert_one r).
Proof.
  apply logger_blind_step. intros l w.
  change (action (setLogger l w)) with (action w).
  destruct (Action.insert_one r (action w)); reflexivity.
Qed.

Lemma logger_blind_queue_find_oldest_wait : logger_blind queue_find_oldest_wait.
Proof. apply logger_blind_step. intros l w. reflexivity. Qed.

Lemma logger_blind_mutex_acquire t : logger_blind (mutex_acquire t).
Proof. intros l w. reflexivity. Qed.

Lemma logger_blind_mutex_release : logger_blind mutex_release.
Proof.
  intros l w. unfold mutex_release.
  change (mutex (setLogger l w)) with (mutex w).
  destruct (mutex w); reflexivity.
Qed.

Lemma logger_blind_dt_now : logger_blind dt_now.
Proof. intros l w. reflexivity. Qed.

Lemma logger_blind_is_enqueued u : logger_blind (is_enqueued u).
Proof.
  apply logger_blind_bind; [apply logger_blind_queue_count_uri|].
  intros n. apply logger_blind_ret.
Qed.

Lemma logger_blind_enqueue u : logger_blind (enqueue u).
Proof.
  apply logger_blind_bind; [apply logger_blind_is_enqueued|].
  intros [|]; [apply logger_blind_ret|].
  apply logger_blind_bind; [apply logger_blind_dt_now|]. intros now.
  apply logger_blind_bind; [apply logger_blind_queue_insert_one|]. intros _.
  apply logger_blind_bind; [apply logger_blind_action_insert_one|]. intros _.
  apply logger_blind_ret.
Qed.

Lemma logger_blind_dequeue_finish u : logger_blind (dequeue_finish u).
Proof.
  apply logger_blind_bind; [apply logger_blind_dt_now|]. intros now.
  apply logger_blind_bind; [apply logger_blind_queue_count_uri|]. intros _.
  apply logger_blind_bind; [apply logger_blind_queue_delete_one|]. intros _.
  apply logger_blind_bind; [apply logger_blind_queue_count_uri|]. intros _.
  apply logger_blind_bind; [apply logger_blind_ret|]. intros _.
  apply logger_blind_action_insert_one.
Qed.

Lemma logger_blind_dequeue_poll n : forall now,
  logger_blind (dequeue_poll n now).
Proof.
  induction n as [|n IH]; intros now; [apply logger_blind_ret|].
  rewrite dequeue_poll_S.
  apply logger_blind_bind; [apply logger_blind_mutex_acquire|]. intros _.
  apply logger_blind_bind; [apply logger_blind_queue_find_oldest_wait|].
  intros [|e rest]; [apply IH|apply logger_blind_ret].
Qed.

(** The branch of [dequeue] taken when the loop found nothing never
    answers a uri. *)
Lemma dequeue_miss_branch_no_uri w (r : option Url) w' :
  (mutex_release ;;
   queue_size <- queue_count_wait ;;
   (fun w => (Return tt, emit (EvRecount queue_size) w)) ;;
   queue_status <- queue_aggregate_states ;;
   self_logger_debug ;;
   if (queue_size =? 0)%nat then raise EmptyQueueException else ret None) w
  = (Return r, w') -> r = None.
Proof.
  intros H.
  apply bind_inv in H. destruct H as [(? & ? & _ & H)|(e & _ & H)];
    [|discriminate].
  apply bind_inv in H. destruct H as [(n & ? & _ & H)|(e & _ & H)];
    [|discriminate].
  do 3 (apply bind_inv in H;
        destruct H as [(? & ? & _ & H)|(e & _ & H)]; [|discriminate]).
  destruct (n =? 0)%nat; inversion H. reflexivity.
Qed.

(** X5.  Whatever producers do meanwhile, [is_enqueued], [enqueue] and
    [dequeue_finish] never consult [self._logger]: with another logger,
    or with none, they answer the same and leave the same store
    ([dequeue_finish] logs through the module-level logger).  So does a
    call of [dequeue] that answers a uri: the logger is consulted on the
    path of a miss only. *)
Theorem logger_consulted_on_a_miss_only :
  (forall u, logger_blind (is_enqueued u)) /\
  (forall u, logger_blind (enqueue u)) /\
  (forall u, logger_blind (dequeue_finish u)) /\
  (forall w u w' l,
      dequeue w = (Return (Some u), w') ->
      dequeue (setLogger l w) = (Return (Some u), setLogger l w')).
Proof.
  split; [exact logger_blind_is_enqueued|].
  split; [exact logger_blind_enqueue|].
  split; [exact logger_blind_dequeue_finish|].
  intros w u w' l. unfold dequeue.
  rewrite (bind_setLogger _ _ l w logger_blind_dt_now).
  unfold bind at 2. unfold dt_now at 1 2.
  rewrite (bind_setLogger _ _ l w (logger_blind_dequeue_poll 10 (clock w))).
  unfold bind at 1.
  destruct (dequeue_poll 10 (clock w) w) as [[[entry now]|e] w1];
    [|discriminate].
  destruct entry as [entry|].
  - intros H.
    assert (B : logger_blind
                  (queue_update_one (QueueDoc.uri entry) Scrape ;;
                   mutex_release ;;
                   action_insert_one
                     (ActionDoc.mk (QueueDoc.uri entry) now ActScrape) ;;
                   ret (Some (parse_url (QueueDoc.uri entry))))).
    { apply logger_blind_bind; [apply logger_blind_queue_update_one|].
      intros _.
      apply logger_blind_bind; [apply logger_blind_mutex_release|]. intros _.
      apply logger_blind_bind; [apply logger_blind_action_insert_one|].
      intros _. apply logger_blind_ret. }
    rewrite (B l w1), H. reflexivity.
  - intros H. apply dequeue_miss_branch_no_uri in H. discriminate.
Qed.

Lemma logger_consulted_on_a_miss_only_witness :
  enqueue "u9"%string
    (setLogger (LoggerHandle "crawler"%string) third_trip_producer) =
    (fst (enqueue "u9"%string third_trip_producer),
     setLogger (LoggerHandle "crawler"%string)
       (snd (enqueue "u9"%string third_trip_producer))) /\
  dequeue (setLogger (LoggerHandle "crawler"%string) slow_producer) =
    (Return (Some "u9"%string),
     setLogger (LoggerHandle "crawler"%string) (snd (dequeue slow_producer))).
Proof.
  split.
  - apply (proj1 (proj2 logger_consulted_on_a_miss_only) "u9"%string).
  - apply (proj2 (proj2 (proj2 logger_consulted_on_a_miss_only))
             slow_producer "u9"%string).
    reflexivity.
Defined.

(** ** An entry that exists blocks its uri *)

(** What [dequeue_finish] and a second [enqueue] do when the indices
    admit their three writes. *)
Lemma enqueue_again_admitted w u d :
  quiet w ->
  NoDup (map QueueDoc.uri (queue w)) ->
  In u (map QueueDoc.uri (queue w)) ->
  ~ In (ActionDoc.mk u (clock w) ActFinish) (action w) ->
  (forall x, In x (queue w) -> QueueDoc.state x = Wait ->
             QueueDoc.ts x <> clock w + d) ->
  ~ In (ActionDoc.mk u (clock w + d) ActEnqueue) (action w) ->
  enqueue u w = (Return (Some false), w) /\
  exists w1 w2,
    dequeue_finish u w = (Return tt, w1) /\
    enqueue u (elapse d w1) = (Return None, w2) /\
    queue w2 =
      filter (fun x => negb (Queue.same_uri u x)) (queue w) ++
      [QueueDoc.mk u (clock w + d) Wait] /\
    action w2 =
      action w ++ [ActionDoc.mk u (clock w) ActFinish;
                   ActionDoc.mk u (clock w + d) ActEnqueue].
Proof.
  intros Hq Hn Hu Hf Ht He.
  split; [now apply enqueue_present|].
  set (q1 := filter (fun x => negb (Queue.same_uri u x)) (queue w)).
  set (a1 := action w ++ [ActionDoc.mk u (clock w) ActFinish]).
  set (w1 := set_action a1 (set_queue (Queue.delete_one u (queue w)) w)).
  assert (Hq1 : queue w1 = q1)
    by (apply QueueWrites.delete_one_unique; exact Hn).
  exists w1.
  exists (set_action (a1 ++ [ActionDoc.mk u (clock w + d) ActEnqueue])
            (set_queue (q1 ++ [QueueDoc.mk u (clock w + d) Wait])
               (elapse d w1))).
  split.
  { rewrite (dequeue_finish_quiet u w Hq).
    now rewrite (action_insert_one_new _ _ Hf). }
  split.
  { assert (E : enqueue u (elapse d w1) =
                (Return None,
                 set_action
                   (action (elapse d w1) ++
                    [ActionDoc.mk u (clock (elapse d w1)) ActEnqueue])
                   (set_queue
                      (queue (elapse d w1) ++
                       [QueueDoc.mk u (clock (elapse d w1)) Wait])
                      (elapse d w1)))).
    { apply enqueue_absent.
      - exact Hq.
      - change (queue (elapse d w1)) with (queue w1). rewrite Hq1.
        apply QueueWrites.find_uri_nil. apply QueueWrites.find_uri_filter_out.
      - change (queue (elapse d w1)) with (queue w1). rewrite Hq1.
        intros x Hx. apply filter_In in Hx. destruct Hx as [Hx _].
        now apply Ht.
      - change (action (elapse d w1)) with a1.
        change (clock (elapse d w1)) with (clock w + d).
        unfold a1. intros Hin. apply in_app_iff in Hin.
        destruct Hin as [Hin|[Hin|[]]]; [contradiction|discriminate]. }
    rewrite E.
    change (queue (elapse d w1)) with (queue w1). rewrite Hq1. reflexivity. }
  split; [reflexivity|].
  cbn [action set_action]. unfold a1. now rewrite <- app_assoc.
Qed.

(** X6.  On a store whose dates all lie in milliseconds before that of
    the call, and with the unique index on [uri] in force: while a uri
    has an entry, waiting or being scraped, a sequential [enqueue] of it
    answers [False] and changes nothing; once [dequeue_finish] has
    removed the entry, an [enqueue] of the uri in a later millisecond
    succeeds, and the new entry goes to the back of the queue with the
    clock reading of the new call, in state ["wait"]; the ["finish"] and
    ["enqueue"] records are appended to the audit log. *)
Theorem enqueue_again_after_finish w u d :
  quiet w ->
  NoDup (map QueueDoc.uri (queue w)) ->
  In u (map QueueDoc.uri (queue w)) ->
  before_ms (clock w) w ->
  ms (clock w) < ms (clock w + d) ->
  enqueue u w = (Return (Some false), w) /\
  exists w1 w2,
    dequeue_finish u w = (Return tt, w1) /\
    enqueue u (elapse d w1) = (Return None, w2) /\
    queue w2 =
      filter (fun x => negb (Queue.same_uri u x)) (queue w) ++
      [QueueDoc.mk u (clock w + d) Wait] /\
    action w2 =
      action w ++ [ActionDoc.mk u (clock w) ActFinish;
                   ActionDoc.mk u (clock w + d) ActEnqueue].
Proof.
  intros Hq Hn Hu [Bq Ba] Hd.
  apply enqueue_again_admitted; auto.
  - intros Hin. specialize (Ba _ Hin). cbn [ActionDoc.ts] in Ba. lia.
  - intros x Hx _ E. specialize (Bq x Hx). rewrite E in Bq. lia.
  - intros Hin. specialize (Ba _ Hin). cbn [ActionDoc.ts] in Ba. lia.
Qed.

Lemma enqueue_again_after_finish_witness :
  enqueue "p"%string working_store = (Return (Some false), working_store) /\
  exists w1 w2,
    dequeue_finish "p"%string working_store = (Return tt, w1) /\
    enqueue "p"%string (elapse 1000 w1) = (Return None, w2) /\
    queue w2 =
      filter (fun x => negb (Queue.same_uri "p"%string x))
             (queue working_store) ++
      [QueueDoc.mk "p"%string (clock working_store + 1000) Wait] /\
    action w2 =
      action working_store ++
      [ActionDoc.mk "p"%string (clock working_store) ActFinish;
       ActionDoc.mk "p"%string (clock working_store + 1000) ActEnqueue].
Proof.
  apply (enqueue_again_after_finish working_store "p"%string 1000).
  - reflexivity.
  - distinct.
  - simpl. now left.
  - split.
    + intros x [<-|[<-|[<-|[]]]]; vm_compute; reflexivity.
    + intros x [<-|[<-|[<-|[<-|[]]]]]; vm_compute; reflexivity.
  - vm_compute. reflexivity.
Defined.

(** ** Writes that the unique indices of the queue admit *)

Lemma existsb_same_state_ts_false s x coll :
  existsb (Queue.same_state_ts s x) coll = false ->
  ~ In (s, x) (map idx_ts_key coll).
Proof.
  intros E Hin. apply in_map_iff in Hin. destruct Hin as (d & Hk & Hd).
  assert (X : existsb (Queue.same_state_ts s x) coll = true).
  { apply existsb_exists. exists d. split; [exact Hd|].
    unfold idx_ts_key in Hk. inversion Hk; subst.
    unfold Queue.same_state_ts. rewrite Z.eqb_refl.
    now destruct (QueueDoc.state d). }
  congruence.
Qed.

(** Taking documents out of a collection breaks no unique index. *)
Lemma filter_keeps_index {K} (key : QueueDoc.t -> K) keep :
  forall coll, NoDup (map key coll) -> NoDup (map key (filter keep coll)).
Proof.
  induction coll as [|d coll IH]; intros Hn; [exact Hn|].
  inversion Hn as [|k ks Hk Hks]; subst. simpl.
  destruct (keep d); [|now apply IH].
  simpl. constructor; [|now apply IH].
  intros Hin. apply in_map_iff in Hin. destruct Hin as (x & Hx & Hin).
  apply filter_In in Hin. apply Hk. rewrite <- Hx. apply in_map. tauto.
Qed.

Lemma update_one_indexed u s coll q :
  indexed coll -> Queue.update_one u s coll = Some q -> indexed q.
Proof.
  intros [Hu Ht]. unfold Queue.update_one.
  destruct (find (Queue.same_uri u) coll) as [d|] eqn:F;
    [|intros H; inversion H; subst; now split].
  destruct (state_eqb (QueueDoc.state d) s);
    [intros H; inversion H; subst; now split|].
  destruct (existsb (Queue.same_state_ts s (QueueDoc.ts d)) coll) eqn:E;
    [discriminate|].
  intros H. inversion H; subst q. clear H.
  apply find_some in F. destruct F as [Hin Hd].
  apply QueueWrites.same_uri_true in Hd. subst u.
  destruct (QueueWrites.set_first_unique d s coll Hu Hin)
    as (pre & post & Hc & ->).
  apply existsb_same_state_ts_false in E.
  rewrite Hc in Hu, Ht, E. unfold indexed.
  rewrite !map_app in *. simpl map in *.
  split; [exact Hu|].
  change (idx_ts_key (QueueDoc.with_state s d)) with (s, QueueDoc.ts d).
  apply (proj2 (NoDup_Add (Add_app _ _ _))).
  split; [apply (NoDup_remove_1 _ _ _ Ht)|].
  intros X. apply E. apply in_app_iff in X. apply in_app_iff.
  destruct X as [X|X]; [now left|right; now right].
Qed.

(** ** Writes that are not taken back *)

Lemma action_insert_one_dup r coll :
  In r coll -> Action.insert_one r coll = None.
Proof.
  intros H. unfold Action.insert_one.
  assert (E : existsb (ActionDoc.eqb r) coll = true).
  { apply existsb_exists. exists r. split; [exact H|].
    now apply ActionDoc_eqb_eq. }
  now rewrite E.
Qed.

(** X8.  [dequeue] writes the state flip before the ["scrape"] record
    and takes nothing back: when the audit log refuses the record (it
    holds a ["scrape"] record of this uri with the same timestamp
    already), the sequential call fails with [DuplicateKeyError] after
    the flip and the release.  The entry is left in state ["scrape"]
    although no caller was given its uri, the audit log is as it was,
    and the lock is free. *)
Theorem dequeue_refused_record_keeps_flip w e :
  quiet w ->
  indexed (queue w) ->
  In e (queue w) -> QueueDoc.state e = Wait ->
  least e (Queue.find_state Wait (queue w)) ->
  (forall x, In x (queue w) -> QueueDoc.state x = Scrape ->
             QueueDoc.ts x <> QueueDoc.ts e) ->
  In (ActionDoc.mk (QueueDoc.uri e) (clock w) ActScrape) (action w) ->
  exists pre post w',
    dequeue w = (Raise DuplicateKeyError, w') /\
    queue w = pre ++ e :: post /\
    queue w' = pre ++ QueueDoc.with_state Scrape e :: post /\
    action w' = action w /\
    mutex w' = false.
Proof.
  intros Hq [Hu Ht] Hin Hst Hmin Hfree Ha.
  destruct (oldest_first _ _ Ht Hin Hst Hmin) as (l & Hs).
  destruct (QueueWrites.set_first_unique e Scrape _ Hu Hin)
    as (pre & post & Hsplit & Hset).
  assert (Hup : Queue.update_one (QueueDoc.uri e) Scrape (queue w) =
                Some (pre ++ QueueDoc.with_state Scrape e :: post)).
  { rewrite <- Hset. apply QueueWrites.update_one_flip; auto.
    rewrite Hst. discriminate. }
  exists pre, post. eexists.
  rewrite (dequeue_quiet w Hq), Hs. cbv zeta.
  rewrite Hup, (action_insert_one_dup _ _ Ha).
  split; [reflexivity|]. split; [exact Hsplit|].
  cbn [queue action mutex emit set_mutex set_queue].
  rewrite after_acquire_action. auto.
Qed.

Lemma dequeue_refused_record_keeps_flip_witness :
  exists pre post w',
    dequeue one_instant_again = (Raise DuplicateKeyError, w') /\
    queue one_instant_again = pre ++ QueueDoc.mk "a"%string 0 Wait :: post /\
    queue w' =
      pre ++ QueueDoc.with_state Scrape (QueueDoc.mk "a"%string 0 Wait) :: post /\
    action w' = action one_instant_again /\
    mutex w' = false.
Proof.
  apply (dequeue_refused_record_keeps_flip one_instant_again
           (QueueDoc.mk "a"%string 0 Wait)).
  - reflexivity.
  - split; distinct.
  - simpl. auto.
  - reflexivity.
  - intros y [<-|[]]. simpl. lia.
  - intros x [<-|[]]. discriminate.
  - simpl. auto.
Defined.

(** X9.  [enqueue] writes the queue entry before the ["enqueue"] record
    and takes nothing back: for a uri without entry whose ["enqueue"]
    record with the current clock reading is in the audit log already,
    the sequential call inserts the waiting entry and then fails with
    [DuplicateKeyError].  The uri is enqueued all the same: a further
    [enqueue] answers [False]. *)
Theorem enqueue_refused_record_keeps_entry w u :
  quiet w ->
  ~ In u (map QueueDoc.uri (queue w)) ->
  (forall d, In d (queue w) -> QueueDoc.state d = Wait ->
             QueueDoc.ts d <> clock w) ->
  In (ActionDoc.mk u (clock w) ActEnqueue) (action w) ->
  exists w',
    enqueue u w = (Raise DuplicateKeyError, w') /\
    queue w' = queue w ++ [QueueDoc.mk u (clock w) Wait] /\
    action w' = action w /\
    enqueue u w' = (Return (Some false), w').
Proof.
  intros Hq Hu Ht Ha.
  exists (set_queue (queue w ++ [QueueDoc.mk u (clock w) Wait]) w).
  split.
  { rewrite (enqueue_quiet u w Hq).
    apply QueueWrites.find_uri_nil in Hu as E. rewrite E. simpl.
    rewrite QueueWrites.insert_one_new by (simpl; auto).
    now rewrite (action_insert_one_dup _ _ Ha). }
  split; [reflexivity|]. split; [reflexivity|].
  apply enqueue_present; [exact Hq|].
  cbn [queue set_queue]. rewrite map_app. apply in_app_iff. right. now left.
Qed.

Lemma enqueue_refused_record_keeps_entry_witness :
  exists w',
    enqueue "a"%string one_instant_life = (Raise DuplicateKeyError, w') /\
    queue w' =
      queue one_instant_life ++
      [QueueDoc.mk "a"%string (clock one_instant_life) Wait] /\
    action w' = action one_instant_life /\
    enqueue "a"%string w' = (Return (Some false), w').
Proof.
  apply (enqueue_refused_record_keeps_entry one_instant_life "a"%string).
  - reflexivity.
  - intros [].
  - intros d [].
  - simpl. auto.
Defined.

(** ** What a call that returned has achieved, among other clients *)

Lemma produced_refl w : produced w w.
Proof. split; [apply drift_refl|]. exists []. now rewrite app_nil_r. Qed.

Lemma produced_trans w1 w2 w3 :
  produced w1 w2 -> produced w2 w3 -> produced w1 w3.
Proof.
  intros [D1 [m1 E1]] [D2 [m2 E2]]. split; [exact (drift_trans _ _ _ D1 D2)|].
  exists (m1 ++ m2). now rewrite E2, E1, app_assoc.
Qed.

Lemma produce_produced u w : produced w (produce u w).
Proof.
  split; [apply produce_drift|]. unfold produce.
  destruct (0 <? List.length (Queue.find_uri u (queue w)))%nat;
    [exists []; now rewrite app_nil_r|].
  destruct (Queue.insert_one _ (queue w)) as [q|] eqn:E;
    [|exists []; now rewrite app_nil_r].
  assert (Hq : q = queue w ++ [QueueDoc.mk u (clock w) Wait]).
  { unfold Queue.insert_one in E.
    destruct (existsb _ (queue w)); [discriminate|].
    destruct (existsb _ (queue w)); [discriminate|]. congruence. }
  exists [QueueDoc.mk u (clock w) Wait].
  destruct (Action.insert_one _ (action w)); exact Hq.
Qed.

Lemma round_trip_produced {A} (f : M A) w :
  exists w1, produced w w1 /\ (round_trip ;; f) w = f w1.
Proof.
  unfold bind, round_trip. destruct (schedule w) as [|[d|u] rest] eqn:E.
  - exists w. split; [apply produced_refl|reflexivity].
  - eexists. split; [|reflexivity]. split.
    + constructor; simpl; try reflexivity; try lia.
      exists []. now rewrite app_nil_r.
    + exists []. now rewrite app_nil_r.
  - eexists. split; [|reflexivity]. cbn [interfere].
    apply (produced_trans _ (set_schedule rest w)); [|apply produce_produced].
    split.
    + constructor; simpl; try reflexivity; try lia.
      exists []. now rewrite app_nil_r.
    + exists []. now rewrite app_nil_r.
Qed.

Lemma produced_In w w1 d : produced w w1 -> In d (queue w) -> In d (queue w1).
Proof.
  intros [_ [more E]] H. rewrite E. apply in_app_iff. now left.
Qed.

Lemma insert_one_Some d coll q :
  Queue.insert_one d coll = Some q -> q = coll ++ [d].
Proof.
  unfold Queue.insert_one.
  destruct (existsb _ coll); [discriminate|].
  destruct (existsb _ coll); [discriminate|]. congruence.
Qed.

(** X10.  Whatever producers do meanwhile, a call of [enqueue] that
    returns leaves the uri enqueued: the final queue holds an entry of
    it.  When the call answers [None] (it ran to its end), the queue
    holds the waiting entry it inserted and the audit log the
    ["enqueue"] record, both stamped with one reading of the clock taken
    during the call. *)
Theorem enqueue_returns_enqueued u w r w' :
  enqueue u w = (Return r, w') ->
  In u (map QueueDoc.uri (queue w')) /\
  (r = None ->
   exists t,
     clock w <= t <= clock w' /\
     In (QueueDoc.mk u t Wait) (queue w') /\
     In (ActionDoc.mk u t ActEnqueue) (action w')).
Proof.
  unfold enqueue, is_enqueued, queue_count_uri.
  destruct (round_trip_produced
              (fun w0 => (Return (List.length (Queue.find_uri u (queue w0))), w0))
              w) as (w1 & [D1 _] & H1).
  unfold bind at 1. unfold bind at 1. rewrite H1. clear H1. unfold ret at 1.
  destruct (Queue.find_uri u (queue w1)) as [|d l] eqn:E.
  - cbn [List.length Nat.ltb Nat.leb]. unfold dt_now. unfold bind at 1.
    unfold queue_insert_one.
    destruct (round_trip_produced
                (fun w0 =>
                   match Queue.insert_one (QueueDoc.mk u (clock w1) Wait)
                                          (queue w0) with
                   | Some q => (Return tt, set_queue q w0)
                   | None => (Raise DuplicateKeyError, w0)
                   end) w1) as (w2 & [D2 _] & H2).
    unfold bind at 1. rewrite H2. clear H2.
    destruct (Queue.insert_one _ (queue w2)) as [q|] eqn:Hi; [|discriminate].
    apply insert_one_Some in Hi.
    unfold action_insert_one.
    destruct (round_trip_produced
                (fun w0 =>
                   match Action.insert_one (ActionDoc.mk u (clock w1) ActEnqueue)
                                           (action w0) with
                   | Some a => (Return tt, set_action a w0)
                   | None => (Raise DuplicateKeyError, w0)
                   end) (set_queue q w2)) as (w3 & P3 & H3).
    unfold bind at 1. rewrite H3. clear H3.
    destruct (Action.insert_one _ (action w3)) as [a|] eqn:Ha; [|discriminate].
    apply action_insert_one_Some in Ha.
    unfold ret. intros H. inversion H; subst r w'. clear H.
    assert (Hin : In (QueueDoc.mk u (clock w1) Wait) (queue w3)).
    { apply (produced_In _ _ _ P3). cbn [queue set_queue]. rewrite Hi.
      apply in_app_iff. right. now left. }
    split.
    + cbn [queue set_action].
      apply (in_map QueueDoc.uri) in Hin. exact Hin.
    + intros _. exists (clock w1). split; [|split].
      * cbn [clock set_action]. destruct P3 as [D3 _].
        pose proof (drift_clock _ _ D1). pose proof (drift_clock _ _ D2).
        pose proof (drift_clock _ _ D3). cbn [clock set_queue] in *. lia.
      * exact Hin.
      * cbn [action set_action]. rewrite Ha. apply in_app_iff. right. now left.
  - cbn [List.length Nat.ltb Nat.leb]. intros H. inversion H; subst r w'.
    split; [|discriminate].
    assert (Hd : In d (Queue.find_uri u (queue w1))) by (rewrite E; now left).
    unfold Queue.find_uri in Hd. apply filter_In in Hd. destruct Hd as [Hd Hu].
    apply QueueWrites.same_uri_true in Hu. rewrite <- Hu. now apply in_map.
Qed.

Lemma enqueue_returns_enqueued_witness :
  In "u9"%string
     (map QueueDoc.uri (queue (snd (enqueue "u9"%string third_trip_producer)))) /\
  (@None bool = None ->
   exists t,
     clock third_trip_producer <= t
       <= clock (snd (enqueue "u9"%string third_trip_producer)) /\
     In (QueueDoc.mk "u9"%string t Wait)
        (queue (snd (enqueue "u9"%string third_trip_producer))) /\
     In (ActionDoc.mk "u9"%string t ActEnqueue)
        (action (snd (enqueue "u9"%string third_trip_producer)))).
Proof.
  apply (enqueue_returns_enqueued "u9"%string third_trip_producer None).
  reflexivity.
Defined.

Lemma find_oldest_wait_found w :
  exists w1 entries,
    queue_find_oldest_wait w =
    (Return entries,
     emit (EvFind (match entries with [] => false | _ => true end)) w1) /\
    (forall e, In e entries -> In e (queue w1)).
Proof.
  unfold queue_find_oldest_wait.
  destruct (round_trip_produced
              (fun w0 =>
                 let entries :=
                   firstn 1 (Queue.sort_ts (Queue.find_state Wait (queue w0))) in
                 (Return entries,
                  emit (EvFind (match entries with [] => false | _ => true end))
                       w0)) w) as (w1 & _ & He).
  exists w1. eexists. split; [exact He|].
  intros e Hin.
  assert (Hs : In e (Queue.sort_ts (Queue.find_state Wait (queue w1)))).
  { destruct (Queue.sort_ts (Queue.find_state Wait (queue w1))) as [|x l];
      [destruct Hin|].
    destruct Hin as [<-|[]]. now left. }
  apply (proj1 (QueueFacts.sort_ts_In _ _)) in Hs.
  apply (proj1 (find_state_In _ _ _)) in Hs. tauto.
Qed.

(** The entry that the polling loop hands back was found in the
    queue. *)
Lemma poll_found n : forall now w e now' w1,
  dequeue_poll n now w = (Return (Some e, now'), w1) ->
  In e (queue w1).
Proof.
  induction n as [|n IH]; intros now w e now' w1; [discriminate|].
  rewrite dequeue_poll_S. unfold bind at 1. rewrite mutex_acquire_eq.
  destruct (find_oldest_wait_found (after_acquire w))
    as (w0 & entries & Hf & Hin).
  unfold bind at 1. rewrite Hf. clear Hf.
  destruct entries as [|x l].
  - apply IH.
  - unfold ret. intros H. inversion H; subst x now' w1.
    cbn [queue emit]. apply Hin. now left.
Qed.

Lemma set_first_In u s d coll :
  find (Queue.same_uri u) coll = Some d ->
  In (QueueDoc.with_state s d) (Queue.set_first u s coll).
Proof.
  induction coll as [|x coll IH]; simpl; [discriminate|].
  destruct (Queue.same_uri u x).
  - intros H. inversion H. now left.
  - intros H. right. now apply IH.
Qed.

(** After an [update_one] to ["scrape"] that the store accepted, an entry
    of the uri, if there is one, is in state ["scrape"]. *)
Lemma update_one_scrape u coll q :
  Queue.update_one u Scrape coll = Some q ->
  In u (map QueueDoc.uri coll) ->
  exists d, In d q /\ QueueDoc.uri d = u /\ QueueDoc.state d = Scrape.
Proof.
  unfold Queue.update_one. intros H Hin.
  destruct (find (Queue.same_uri u) coll) as [d|] eqn:F.
  - pose proof (find_some _ _ F) as [Hd Hu].
    apply QueueWrites.same_uri_true in Hu.
    destruct (state_eqb (QueueDoc.state d) Scrape) eqn:S.
    + inversion H; subst q. apply state_eqb_eq in S. now exists d.
    + destruct (existsb _ coll); [discriminate|]. inversion H; subst q.
      exists (QueueDoc.with_state Scrape d).
      split; [now apply set_first_In|]. now split.
  - exfalso. apply in_map_iff in Hin. destruct Hin as (x & Hx & Hin).
    apply (find_none _ _ F) in Hin.
    apply QueueWrites.same_uri_false in Hin. contradiction.
Qed.

(** X11.  Whatever producers do meanwhile, the uri that a call of
    [dequeue] answers belongs to an entry that the call leaves in state
    ["scrape"]: no later search for waiting entries finds it. *)
Theorem dequeue_returns_scraping u w w' :
  dequeue w = (Return (Some u), w') ->
  exists d,
    In d (queue w') /\ QueueDoc.uri d = u /\ QueueDoc.state d = Scrape /\
    ~ In d (Queue.find_state Wait (queue w')).
Proof.
  intros H. unfold dequeue in H.
  apply bind_inv in H. destruct H as [(now & w0 & H0 & H)|(x & _ & H)];
    [|discriminate].
  unfold dt_now in H0. inversion H0; subst now w0. clear H0.
  apply bind_inv in H. destruct H as [([entry now] & w1 & Hp & H)|(x & _ & H)];
    [|discriminate].
  destruct entry as [e|];
    [|apply dequeue_miss_branch_no_uri in H; discriminate].
  apply poll_found in Hp.
  unfold queue_update_one in H.
  destruct (round_trip_produced
              (fun w0 =>
                 match Queue.update_one (QueueDoc.uri e) Scrape (queue w0) with
                 | Some q =>
                     (Return tt,
                      emit (EvFlip (QueueDoc.uri e) (clock w0)) (set_queue q w0))
                 | None => (Raise DuplicateKeyError, w0)
                 end) w1) as (w2 & P2 & H2).
  unfold bind at 1 in H. rewrite H2 in H. clear H2.
  destruct (Queue.update_one _ _ (queue w2)) as [q|] eqn:Hu; [|discriminate].
  apply update_one_scrape in Hu;
    [|apply in_map; exact (produced_In _ _ _ P2 Hp)].
  destruct Hu as (d & Hd & Hdu & Hds).
  apply bind_inv in H. destruct H as [(? & w3 & Hr & H)|(x & _ & H)];
    [|discriminate].
  assert (Hq3 : queue w3 = q).
  { unfold mutex_release in Hr. cbn [mutex emit set_queue] in Hr.
    destruct (mutex w2); inversion Hr; reflexivity. }
  unfold action_insert_one in H.
  destruct (round_trip_produced
              (fun w0 =>
                 match Action.insert_one
                         (ActionDoc.mk (QueueDoc.uri e) now ActScrape)
                         (action w0) with
                 | Some a => (Return tt, set_action a w0)
                 | None => (Raise DuplicateKeyError, w0)
                 end) w3) as (w4 & P4 & H4).
  unfold bind at 1 in H. rewrite H4 in H. clear H4.
  destruct (Action.insert_one _ (action w4)); [|discriminate].
  unfold ret in H. inversion H; subst u w'. cbn [queue set_action].
  exists d. split; [apply (produced_In _ _ _ P4); now rewrite Hq3|].
  split; [exact Hdu|]. split; [exact Hds|].
  intros Hw. apply find_state_In in Hw. destruct Hw as [_ Hw]. congruence.
Qed.

Lemma dequeue_returns_scraping_witness :
  exists d,
    In d (queue (snd (dequeue slow_producer))) /\
    QueueDoc.uri d = "u9"%string /\ QueueDoc.state d = Scrape /\
    ~ In d (Queue.find_state Wait (queue (snd (dequeue slow_producer)))).
Proof.
  apply (dequeue_returns_scraping "u9"%string slow_producer).
  reflexivity.
Defined.

(** ** No entry is handed out twice *)

Lemma find_state_app s (a b : list QueueDoc.t) :
  Queue.find_state s (a ++ b) = Queue.find_state s a ++ Queue.find_state s b.
Proof. unfold Queue.find_state. apply filter_app. Qed.

(** One sequential call of [dequeue]: the indices stay, no entry starts
    to wait, and the entry of a uri that is answered waited before and
    waits no longer. *)
Lemma dequeue_step w r w1 :
  quiet w -> indexed (queue w) ->
  dequeue w = (r, w1) ->
  quiet w1 /\ indexed (queue w1) /\
  incl (waiting w1) (waiting w) /\
  (forall u, r = Return (Some u) -> In u (waiting w) /\ ~ In u (waiting w1)).
Proof.
  intros Hq Hi. rewrite (dequeue_quiet w Hq).
  destruct (Queue.sort_ts (Queue.find_state Wait (queue w))) as [|e l] eqn:Hs.
  - intros H. inversion H; subst r w1. unfold quiet, waiting.
    rewrite after_empty_schedule, after_empty_queue.
    split; [exact Hq|]. split; [exact Hi|]. split; [apply incl_refl|].
    intros u Hu. destruct (_logger w); discriminate.
  - cbv zeta.
    assert (He : In e (queue w) /\ QueueDoc.state e = Wait).
    { apply find_state_In. apply QueueFacts.sort_ts_In. rewrite Hs. now left. }
    destruct He as [Hin Hst]. destruct Hi as [Hu Ht].
    destruct (QueueWrites.set_first_unique e Scrape _ Hu Hin)
      as (pre & post & Hsplit & Hset).
    unfold Queue.update_one. rewrite (QueueWrites.find_unique e _ Hu Hin).
    rewrite Hst. cbn [state_eqb].
    destruct (existsb (Queue.same_state_ts Scrape (QueueDoc.ts e)) (queue w))
      eqn:Ex.
    + intros H. inversion H; subst r w1. unfold quiet, waiting.
      cbn [schedule queue emit].
      rewrite after_acquire_schedule, after_acquire_queue.
      split; [exact Hq|]. split; [now split|]. split; [apply incl_refl|].
      discriminate.
    + assert (Hi' : indexed (Queue.set_first (QueueDoc.uri e) Scrape (queue w))).
      { apply (update_one_indexed (QueueDoc.uri e) Scrape (queue w));
          [now split|].
        unfold Queue.update_one. rewrite (QueueWrites.find_unique e _ Hu Hin).
        rewrite Hst. cbn [state_eqb]. now rewrite Ex. }
      assert (Hw : waiting w =
                   map QueueDoc.uri (Queue.find_state Wait pre) ++
                   QueueDoc.uri e ::
                   map QueueDoc.uri (Queue.find_state Wait post)).
      { unfold waiting. rewrite Hsplit, find_state_app, map_app.
        unfold Queue.find_state at 2. simpl. rewrite Hst. reflexivity. }
      assert (Hw' : map QueueDoc.uri
                      (Queue.find_state Wait
                         (Queue.set_first (QueueDoc.uri e) Scrape (queue w))) =
                    map QueueDoc.uri (Queue.find_state Wait pre) ++
                    map QueueDoc.uri (Queue.find_state Wait post)).
      { rewrite Hset, find_state_app, map_app.
        unfold Queue.find_state at 2. simpl. reflexivity. }
      assert (Hnd : NoDup (waiting w)).
      { unfold waiting, Queue.find_state. now apply filter_keeps_index. }
      rewrite Hw in Hnd. apply NoDup_remove_2 in Hnd.
      assert (Hall :
        forall r' w', queue w' =
                      Queue.set_first (QueueDoc.uri e) Scrape (queue w) ->
                      schedule w' = schedule w ->
                      (forall u, r' = Return (Some u) -> u = QueueDoc.uri e) ->
          quiet w' /\ indexed (queue w') /\
          incl (waiting w') (waiting w) /\
          (forall u, r' = Return (Some u) ->
                     In u (waiting w) /\ ~ In u (waiting w'))).
      { intros r' w' Hq' Hs' Hr'.
        assert (Hww : waiting w' =
                      map QueueDoc.uri (Queue.find_state Wait pre) ++
                      map QueueDoc.uri (Queue.find_state Wait post))
          by (unfold waiting; rewrite Hq'; exact Hw').
        unfold quiet. rewrite Hww, Hq', Hs', Hw.
        split; [exact Hq|]. split; [exact Hi'|]. split.
        - intros x Hx. apply in_app_iff in Hx. apply in_app_iff.
          destruct Hx; [now left|right; now right].
        - intros u Hu'. rewrite (Hr' u Hu'). split; [|exact Hnd].
          apply in_app_iff. right. now left. }
      destruct (Action.insert_one _ (action w)); intros H;
        inversion H; subst r w1; apply Hall;
        try reflexivity;
        try (cbn [schedule emit set_mutex set_queue set_action];
             apply after_acquire_schedule);
        intros u Hu'; inversion Hu'; reflexivity.
Qed.

(** X12.  In sequential use and under the indices of the queue, a run of
    calls of [dequeue] hands out no uri twice, and hands out only uris of
    entries that waited when the run began, whatever the calls of the
    run that failed. *)
Theorem dequeue_delivers_once n : forall w,
  quiet w -> indexed (queue w) ->
  NoDup (delivered (fst (dequeue_times n w))) /\
  incl (delivered (fst (dequeue_times n w))) (waiting w).
Proof.
  induction n as [|n IH]; intros w Hq Hi.
  - split; [constructor|intros x []].
  - cbn [dequeue_times].
    destruct (dequeue w) as [r w1] eqn:Hd.
    destruct (dequeue_step w r w1 Hq Hi Hd) as (Hq1 & Hi1 & Hinc & Hr).
    destruct (IH w1 Hq1 Hi1) as [Hn Hsub].
    destruct (dequeue_times n w1) as [rs w2]. cbn [fst] in *.
    unfold delivered in *. cbn [flat_map].
    destruct r as [[u|]|ex]; cbn [app].
    + destruct (Hr u eq_refl) as [Hu Hu1]. split.
      * constructor; [|exact Hn]. intros Hin. apply Hu1. now apply Hsub.
      * intros x [<-|Hx]; [exact Hu|]. apply Hinc. now apply Hsub.
    + split; [exact Hn|]. intros x Hx. apply Hinc. now apply Hsub.
    + split; [exact Hn|]. intros x Hx. apply Hinc. now apply Hsub.
Qed.

Lemma dequeue_delivers_once_witness :
  NoDup (delivered (fst (dequeue_times 3 busy_store))) /\
  incl (delivered (fst (dequeue_times 3 busy_store))) (waiting busy_store).
Proof.
  apply (dequeue_delivers_once 3 busy_store).
  - reflexivity.
  - split; distinct.
Defined.

(** ** The audit log accounts for the queue *)

Lemma accounted_for_incl a b d :
  incl a b -> accounted_for a d -> accounted_for b d.
Proof.
  intros Hi [He Hs]. split; [now apply Hi|].
  intros H. destruct (Hs H) as (t & Ht). exists t. now apply Hi.
Qed.

Lemma covered_grows due w w' :
  queue w' = queue w -> (exists more, action w' = action w ++ more) ->
  covered due w -> covered due w'.
Proof.
  intros Hq [more Ha] H d Hd. rewrite Hq in Hd.
  apply (accounted_for_incl (due ++ action w)); [|now apply H].
  rewrite Ha. intros x Hx. apply in_app_iff in Hx. apply in_app_iff.
  destruct Hx as [Hx|Hx]; [now left|right]. apply in_app_iff. now left.
Qed.

Lemma action_insert_one_None r coll :
  Action.insert_one r coll = None -> In r coll.
Proof.
  unfold Action.insert_one.
  destruct (existsb (ActionDoc.eqb r) coll) eqn:E; [|discriminate].
  intros _. apply existsb_exists in E. destruct E as (x & Hx & E).
  apply ActionDoc_eqb_eq in E. now subst x.
Qed.

(** What a producer adds to the queue it accounts for. *)
Lemma produce_covered due u w : covered due w -> covered due (produce u w).
Proof.
  intros H. unfold produce.
  destruct (0 <? List.length (Queue.find_uri u (queue w)))%nat; [exact H|].
  destruct (Queue.insert_one _ (queue w)) as [q|] eqn:Eq; [|exact H].
  apply insert_one_Some in Eq. subst q.
  assert (Hnew : forall a,
             In (ActionDoc.mk u (clock w) ActEnqueue) a ->
             accounted_for (due ++ a) (QueueDoc.mk u (clock w) Wait)).
  { intros a Ha. split; [apply in_app_iff; now right|discriminate]. }
  destruct (Action.insert_one _ (action w)) as [a|] eqn:Ea.
  - apply action_insert_one_Some in Ea. subst a.
    intros d Hd. cbn [queue action set_queue set_action] in *.
    apply in_app_iff in Hd. destruct Hd as [Hd|[<-|[]]].
    + apply (accounted_for_incl (due ++ action w)); [|now apply H].
      intros x Hx. apply in_app_iff in Hx. apply in_app_iff.
      destruct Hx as [Hx|Hx]; [now left|right]. apply in_app_iff. now left.
    + apply Hnew. apply in_app_iff. right. now left.
  - apply action_insert_one_None in Ea.
    intros d Hd. cbn [queue action set_queue] in *.
    apply in_app_iff in Hd. destruct Hd as [Hd|[<-|[]]]; [now apply H|].
    now apply Hnew.
Qed.

Lemma triple_bind {A B} (c : M A) (k : A -> M B) pre mid post exc :
  triple pre c mid exc -> (forall a, triple mid (k a) post exc) ->
  triple pre (bind c k) post exc.
Proof.
  intros Hc Hk w r w' Hp H. apply bind_inv in H.
  destruct H as [(a & w1 & H1 & H2)|(e & H1 & ->)].
  - apply (Hk a w1 r w'); [|exact H2]. exact (Hc w (Return a) w1 Hp H1).
  - exact (Hc w (Raise e) w' Hp H1).
Qed.

Lemma triple_round_trip due :
  triple (covered due) round_trip (covered due) (covered due).
Proof.
  intros w r w' Hc H. unfold round_trip in H.
  destruct (schedule w) as [|[d|u] rest]; inversion H; subst; try exact Hc.
  cbn [interfere]. now apply produce_covered.
Qed.

(** A step after its round trip. *)
Lemma triple_step {A} (f : M A) due post exc :
  triple (covered due) f post exc ->
  triple (covered due) (round_trip ;; f) post exc.
Proof.
  intros Hf w r w' Hc H. apply bind_inv in H.
  destruct H as [(a & w1 & H1 & H2)|(e & H1 & ->)].
  - apply (Hf w1 r w'); [|exact H2].
    exact (triple_round_trip due w (Return a) w1 Hc H1).
  - unfold round_trip in H1. destruct (schedule w); discriminate.
Qed.

(** A step that leaves the queue as it is and only adds to the log. *)
Lemma triple_reader {A} (c : M A) due :
  (forall w r w', c w = (r, w') ->
                  queue w' = queue w /\
                  exists more, action w' = action w ++ more) ->
  triple (covered due) c (covered due) (covered due).
Proof.
  intros Hc w r w' Hp H. destruct (Hc w r w' H) as [Hq Ha].
  destruct r; now apply (covered_grows due w w').
Qed.

Ltac same_store :=
  split; [reflexivity|exists []; now rewrite app_nil_r].

Ltac reader :=
  apply triple_reader;
  let H := fresh in
  intros ? ? ? H; injection H as <- <-; same_store.

Lemma triple_ret {A} (a : A) due :
  triple (covered due) (ret a) (covered due) (covered due).
Proof. reader. Qed.

Lemma triple_raise {A} e due :
  triple (covered due) (@raise A e) (covered due) (covered due).
Proof. reader. Qed.

Lemma triple_dt_now due :
  triple (covered due) dt_now (covered due) (covered due).
Proof. reader. Qed.

Lemma triple_mutex_acquire t due :
  triple (covered due) (mutex_acquire t) (covered due) (covered due).
Proof. reader. Qed.

Lemma triple_mutex_release due :
  triple (covered due) mutex_release (covered due) (covered due).
Proof.
  apply triple_reader. intros w r w'. unfold mutex_release.
  destruct (mutex w); intros H; injection H as <- <-; same_store.
Qed.

Lemma triple_self_logger_debug due :
  triple (covered due) self_logger_debug (covered due) (covered due).
Proof.
  apply triple_reader. intros w r w'. unfold self_logger_debug.
  destruct (_logger w); intros H; injection H as <- <-; same_store.
Qed.

Lemma triple_queue_count_uri u due :
  triple (covered due) (queue_count_uri u) (covered due) (covered due).
Proof. apply triple_step. reader. Qed.

Lemma triple_queue_count_wait due :
  triple (covered due) queue_count_wait (covered due) (covered due).
Proof. apply triple_step. reader. Qed.

Lemma triple_queue_aggregate_states due :
  triple (covered due) queue_aggregate_states (covered due) (covered due).
Proof. apply triple_step. reader. Qed.

Lemma triple_queue_find_oldest_wait due :
  triple (covered due) queue_find_oldest_wait (covered due) (covered due).
Proof. apply triple_step. reader. Qed.

Lemma delete_one_In u x coll :
  In x (Queue.delete_one u coll) -> In x coll.
Proof.
  induction coll as [|d coll IH]; simpl; [tauto|].
  destruct (Queue.same_uri u d); simpl; intuition.
Qed.

Lemma triple_queue_delete_one u due :
  triple (covered due) (queue_delete_one u) (covered due) (covered due).
Proof.
  apply triple_step. intros w r w' Hc H. injection H as <- <-.
  intros d Hd. cbn [queue action set_queue] in *.
  apply Hc. now apply (delete_one_In u).
Qed.

(** Writing a record: the log grows. *)
Lemma triple_action_insert_one r due :
  triple (covered due) (action_insert_one r) (covered due) (covered due).
Proof.
  apply triple_step. apply triple_reader. intros w x w'.
  destruct (Action.insert_one r (action w)) as [a|] eqn:E;
    intros H; injection H as <- <-.
  - apply action_insert_one_Some in E. split; [reflexivity|].
    exists [r]. exact E.
  - same_store.
Qed.

(** Once the record that was due is written, or found written, nothing
    is due any more. *)
Lemma triple_settle r :
  triple (covered [r]) (action_insert_one r) accounted accounted.
Proof.
  apply triple_step. intros w x w' Hc.
  destruct (Action.insert_one r (action w)) as [a|] eqn:E;
    intros H; injection H as <- <-; intros d Hd;
    cbn [queue action set_action] in *;
    apply (accounted_for_incl ([r] ++ action w)); try now apply Hc.
  - apply action_insert_one_Some in E. subst a.
    unfold incl. simpl.
    intros y [<-|Hy]; apply in_app_iff; [right; now left|now left].
  - apply action_insert_one_None in E.
    unfold incl. simpl. intros y [<-|Hy]; assumption.
Qed.

(** The entry that [enqueue] inserts is accounted for once its record is
    written. *)
Lemma triple_queue_insert_one u now :
  triple accounted (queue_insert_one (QueueDoc.mk u now Wait))
         (covered [ActionDoc.mk u now ActEnqueue]) accounted.
Proof.
  apply (triple_step _ []). intros w x w' Hc.
  destruct (Queue.insert_one _ (queue w)) as [q|] eqn:E;
    intros H; injection H as <- <-; [|exact Hc].
  apply insert_one_Some in E. subst q.
  intros d Hd. cbn [queue action set_queue] in *.
  apply in_app_iff in Hd. destruct Hd as [Hd|[<-|[]]].
  - apply (accounted_for_incl ([] ++ action w)); [|now apply Hc].
    intros y Hy. now right.
  - split; [now left|discriminate].
Qed.

Lemma set_first_from u s coll x :
  In x (Queue.set_first u s coll) ->
  In x coll \/ exists d, In d coll /\ QueueDoc.uri d = u /\
                         x = QueueDoc.with_state s d.
Proof.
  induction coll as [|d coll IH]; simpl; [tauto|].
  destruct (Queue.same_uri u d) eqn:E; simpl.
  - intros [<-|H]; [|tauto]. right. exists d.
    apply QueueWrites.same_uri_true in E. auto.
  - intros [<-|H]; [tauto|]. destruct (IH H) as [H'|(d' & Hd' & Hu & ->)];
      [tauto|]. right. exists d'. auto.
Qed.

(** The entry that [dequeue] flips is accounted for once its record is
    written. *)
Lemma triple_queue_update_one u now :
  triple accounted (queue_update_one u Scrape)
         (covered [ActionDoc.mk u now ActScrape]) accounted.
Proof.
  apply (triple_step _ []). intros w x w' Hc.
  assert (Hold : forall y, In y (queue w) ->
                           accounted_for
                             ([ActionDoc.mk u now ActScrape] ++ action w) y).
  { intros y Hy. apply (accounted_for_incl ([] ++ action w)); [|now apply Hc].
    intros z Hz. now right. }
  destruct (Queue.update_one u Scrape (queue w)) as [q|] eqn:E;
    intros H; injection H as <- <-; [|exact Hc].
  intros d Hd. cbn [queue action emit set_queue] in *.
  unfold Queue.update_one in E.
  destruct (find (Queue.same_uri u) (queue w)) as [d0|];
    [|injection E as <-; now apply Hold].
  destruct (state_eqb (QueueDoc.state d0) Scrape);
    [injection E as <-; now apply Hold|].
  destruct (existsb _ (queue w)); [discriminate|]. injection E as <-.
  apply set_first_from in Hd. destruct Hd as [Hd|(d1 & Hd1 & Hu & ->)];
    [now apply Hold|].
  destruct (Hold d1 Hd1) as [He _]. split; [exact He|].
  intros _. exists now. left. cbn. now rewrite Hu.
Qed.

Lemma keeps_accounted_dequeue_poll n : forall now,
  triple accounted (dequeue_poll n now) accounted accounted.
Proof.
  induction n as [|n IH]; intros now; [apply (triple_ret _ [])|].
  rewrite dequeue_poll_S.
  apply (triple_bind _ _ _ accounted); [apply (triple_mutex_acquire _ [])|].
  intros _.
  apply (triple_bind _ _ _ accounted);
    [apply (triple_queue_find_oldest_wait [])|].
  intros [|e rest]; [apply IH|apply (triple_ret _ [])].
Qed.

Lemma triple_keeps {A} (c : M A) :
  triple accounted c accounted accounted -> keeps_accounted c.
Proof.
  intros T w r w' Hc H. specialize (T w r w' Hc H). now destruct r.
Qed.

Lemma keeps_accounted_enqueue u : keeps_accounted (enqueue u).
Proof.
  apply triple_keeps. unfold enqueue, is_enqueued.
  apply (triple_bind _ _ _ accounted).
  { apply (triple_bind _ _ _ accounted);
      [apply (triple_queue_count_uri u [])|].
    intros n. apply (triple_ret _ []). }
  intros [|]; [apply (triple_ret _ [])|].
  apply (triple_bind _ _ _ accounted); [apply (triple_dt_now [])|].
  intros now.
  apply (triple_bind _ _ _ (covered [ActionDoc.mk u now ActEnqueue]));
    [apply triple_queue_insert_one|].
  intros _.
  apply (triple_bind _ _ _ accounted); [apply triple_settle|].
  intros _. apply (triple_ret _ []).
Qed.

Lemma keeps_accounted_dequeue_finish u : keeps_accounted (dequeue_finish u).
Proof.
  apply triple_keeps. unfold dequeue_finish.
  apply (triple_bind _ _ _ accounted); [apply (triple_dt_now [])|].
  intros now.
  apply (triple_bind _ _ _ accounted); [apply (triple_queue_count_uri u [])|].
  intros _.
  apply (triple_bind _ _ _ accounted); [apply (triple_queue_delete_one u [])|].
  intros _.
  apply (triple_bind _ _ _ accounted); [apply (triple_queue_count_uri u [])|].
  intros _.
  apply (triple_bind _ _ _ accounted); [apply (triple_ret _ [])|].
  intros _. apply (triple_action_insert_one _ []).
Qed.

(** The branch of [dequeue] for an entry found: entered with the lock
    taken, as the loop leaves it, it releases the lock between the flip
    and the record. *)
Lemma keeps_accounted_hit (x : option Url) u now :
  triple (fun w => accounted w /\ mutex w = true)
         (queue_update_one u Scrape ;;
          mutex_release ;;
          action_insert_one (ActionDoc.mk u now ActScrape) ;;
          ret x)
         accounted accounted.
Proof.
  intros w r w' [Hc Hm] H.
  destruct (queue_update_one_spec u Scrape w) as (w1 & D1 & Hu).
  pose proof (triple_queue_update_one u now w) as T.
  unfold bind at 1 in H. rewrite Hu in H, T.
  destruct (Queue.update_one u Scrape (queue w1)) as [q|].
  - specialize (T _ _ Hc eq_refl). cbn iota in T.
    set (w2 := emit (EvFlip u (clock w1)) (set_queue q w1)) in *.
    assert (Hm2 : mutex w2 = true)
      by (cbn [w2 mutex emit set_queue]; rewrite (drift_mutex _ _ D1); exact Hm).
    unfold bind at 1 in H. rewrite (mutex_release_locked w2 Hm2) in H.
    assert (T3 : covered [ActionDoc.mk u now ActScrape]
                         (emit EvRelease (set_mutex false w2))) by exact T.
    revert H. generalize (emit EvRelease (set_mutex false w2)) T3.
    intros w3 T3' H.
    exact (triple_bind _ _ _ accounted _ _ (triple_settle _)
             (fun _ => triple_ret x []) w3 r w' T3' H).
  - injection H as <- <-. exact (T _ _ Hc eq_refl).
Qed.

Lemma keeps_accounted_dequeue : keeps_accounted dequeue.
Proof.
  apply triple_keeps. intros w r w' Hc H. unfold dequeue in H.
  apply bind_inv in H. destruct H as [(now & w0 & H0 & H)|(e & H0 & _)];
    [|discriminate].
  unfold dt_now in H0. injection H0 as <- <-.
  destruct (poll_spec 9 (clock w) w)
    as (k & found_entry & w1 & Hp & _ & _ & _ & Hm1 & _).
  pose proof (keeps_accounted_dequeue_poll 10 (clock w) w _ _ Hc Hp) as Hc1.
  cbn iota in Hc1.
  unfold bind at 1 in H. rewrite Hp in H.
  destruct found_entry as [entry|].
  - exact (keeps_accounted_hit _ _ _ w1 r w' (conj Hc1 Hm1) H).
  - revert H. revert w1 r w' Hc1 Hm1 Hp.
    assert (T : triple accounted
                  (mutex_release ;;
                   queue_size <- queue_count_wait ;;
                   (fun w => (Return tt, emit (EvRecount queue_size) w)) ;;
                   queue_status <- queue_aggregate_states ;;
                   self_logger_debug ;;
                   if (queue_size =? 0)%nat then raise EmptyQueueException
                   else ret (@None Url))
                  accounted accounted).
    { apply (triple_bind _ _ _ accounted); [apply (triple_mutex_release [])|].
      intros _.
      apply (triple_bind _ _ _ accounted); [apply (triple_queue_count_wait [])|].
      intros n.
      apply (triple_bind _ _ _ accounted); [unfold accounted; reader|].
      intros _.
      apply (triple_bind _ _ _ accounted);
        [apply (triple_queue_aggregate_states [])|].
      intros _.
      apply (triple_bind _ _ _ accounted);
        [apply (triple_self_logger_debug [])|].
      intros _.
      destruct (n =? 0)%nat; [apply (triple_raise _ [])|apply (triple_ret _ [])]. }
    intros w1 r w' Hc1 _ _ H. exact (T w1 r w' Hc1 H).
Qed.

(** X13.  In sequential use and whatever the outcome of the call,
    [enqueue], [dequeue] and [dequeue_finish] keep the audit log in step
    with the queue, even when an index refuses one of their writes
    halfway: when the log held, for every entry of the queue, the
    ["enqueue"] record with its uri and timestamp and, for every entry
    being scraped, a ["scrape"] record of its uri, then it does so after
    the call. *)
Theorem audit_log_accounts_for_queue w :
  quiet w -> accounted w ->
  (forall u, accounted (snd (enqueue u w))) /\
  accounted (snd (dequeue w)) /\
  (forall u, accounted (snd (dequeue_finish u w))).
Proof.
  intros _ Ha. split; [|split].
  - intros u.
    exact (keeps_accounted_enqueue u w _ _ Ha (surjective_pairing _)).
  - exact (keeps_accounted_dequeue w _ _ Ha (surjective_pairing _)).
  - intros u.
    exact (keeps_accounted_dequeue_finish u w _ _ Ha (surjective_pairing _)).
Qed.

Lemma audit_log_accounts_for_queue_witness :
  (forall u, accounted (snd (enqueue u one_instant_again))) /\
  accounted (snd (dequeue one_instant_again)) /\
  (forall u, accounted (snd (dequeue_finish u one_instant_again))).
Proof.
  apply (audit_log_accounts_for_queue one_instant_again).
  - reflexivity.
  - intros d [<-|[]]. split; [simpl; tauto|discriminate].
Defined.

(** * Recipes *)

(** ** The [recipe] collection under its indices *)

Module RecipeFacts.
Import RecipeDoc Recipe.

Lemma key_eqb_eq a b : key_eqb a b = true <-> a = b.
Proof.
  destruct a as [x|], b as [y|]; simpl; try (split; congruence).
  rewrite String.eqb_eq. split; congruence.
Qed.

Lemma same_url_true u d : same_url u d = true <-> canonical_url d = Some u.
Proof. unfold same_url. apply key_eqb_eq. Qed.

Lemma same_url_false u d : same_url u d = false <-> canonical_url d <> Some u.
Proof.
  rewrite <- same_url_true. destruct (same_url u d); split; congruence.
Qed.

Lemma find_url_nil u coll :
  find_url u coll = [] <-> ~ In (Some u) (map canonical_url coll).
Proof.
  unfold find_url. induction coll as [|d coll IH]; simpl; [tauto|].
  destruct (same_url u d) eqn:E.
  - apply same_url_true in E. split; [discriminate|]. tauto.
  - apply same_url_false in E. rewrite IH. tauto.
Qed.

Lemma existsb_same_url u coll :
  existsb (same_url u) coll =
  negb (List.length (find_url u coll) =? 0)%nat.
Proof.
  unfold find_url. induction coll as [|d coll IH]; simpl; [reflexivity|].
  destruct (same_url u d); simpl; [reflexivity|exact IH].
Qed.

Lemma find_none u coll :
  ~ In (Some u) (map canonical_url coll) -> find (same_url u) coll = None.
Proof.
  induction coll as [|d coll IH]; simpl; intros H; [reflexivity|].
  assert (E : same_url u d = false) by (apply same_url_false; tauto).
  rewrite E. apply IH. tauto.
Qed.

(** A document whose url no document of [coll] bears clashes with
    none. *)
Lemma no_clash r coll :
  ~ In (canonical_url r) (map canonical_url coll) ->
  existsb (clashes r) coll = false.
Proof.
  induction coll as [|d coll IH]; simpl; intros H; [reflexivity|].
  rewrite IH by tauto. unfold clashes.
  assert (E : key_eqb (canonical_url r) (canonical_url d) = false).
  { destruct (key_eqb (canonical_url r) (canonical_url d)) eqn:E;
      [|reflexivity].
    apply key_eqb_eq in E. exfalso. apply H. now left. }
  rewrite E, andb_false_r. reflexivity.
Qed.

(** With [idx_uri] in force the document of a url stands alone. *)
Lemma unique_split u r d coll :
  NoDup (map canonical_url coll) -> In d coll -> canonical_url d = Some u ->
  exists pre post,
    coll = pre ++ d :: post /\
    ~ In (Some u) (map canonical_url (pre ++ post)) /\
    find (same_url u) coll = Some d /\
    replace_first u r coll = pre ++ r :: post /\
    others u coll = pre ++ post /\
    find_url u coll = [d].
Proof.
  induction coll as [|x coll IH]; simpl; intros Hn Hin Hd; [contradiction|].
  inversion Hn as [|? ? Hx Hn']; subst.
  destruct Hin as [->|Hin].
  - exists [], coll. simpl.
    assert (E : same_url u d = true) by now apply same_url_true.
    unfold find_url. simpl. rewrite E. rewrite Hd in Hx.
    apply find_url_nil in Hx as F. unfold find_url in F. rewrite F.
    repeat split; auto.
  - assert (E : same_url u x = false).
    { apply same_url_false. intros Hxu. apply Hx. rewrite Hxu, <- Hd.
      now apply in_map. }
    destruct (IH Hn' Hin Hd) as (pre & post & -> & Hno & Hf & Hr & Ho & Hfu).
    exists (x :: pre), post. unfold find_url in *. simpl. rewrite E, Hf, Hr, Ho, Hfu.
    repeat split; auto.
    intros [H|H]; [|contradiction].
    apply same_url_false in E. congruence.
Qed.

Lemma NoDup_pair {A B C} (f : A -> B) (g : A -> C) (l : list A) :
  NoDup (map f l) -> NoDup (map (fun d => (g d, f d)) l).
Proof.
  induction l as [|a l IH]; simpl; intros H; constructor;
    inversion H as [|? ? Ha Hl]; subst; auto.
  intros Hin. apply Ha. apply in_map_iff in Hin.
  destruct Hin as (x & Hx & Hin). injection Hx as Hg Hf.
  rewrite <- Hf. now apply in_map.
Qed.

Lemma indexed_of_urls coll :
  NoDup (map canonical_url coll) -> recipe_indexed coll.
Proof. intros H. split; [exact H|now apply NoDup_pair]. Qed.

(** A new url is inserted at the end. *)
Lemma replace_one_new u r coll :
  canonical_url r = Some u ->
  ~ In (Some u) (map canonical_url coll) ->
  replace_one u r coll = Some (coll ++ [r], mkResult 0 true).
Proof.
  intros Hr Hu. unfold replace_one.
  rewrite (find_none u coll Hu), no_clash by (rewrite Hr; exact Hu).
  reflexivity.
Qed.

(** A known url has its document replaced where it stands. *)
Lemma replace_one_known u r d pre post :
  canonical_url r = Some u -> canonical_url d = Some u ->
  NoDup (map canonical_url (pre ++ d :: post)) ->
  replace_one u r (pre ++ d :: post) =
  Some (pre ++ r :: post, mkResult 1 false).
Proof.
  intros Hr Hd Hn.
  destruct (unique_split u r d (pre ++ d :: post) Hn) as
    (pre' & post' & Hs & Hno & Hf & Hrep & Ho & _);
    [apply in_elt|exact Hd|].
  assert (Hsplit : pre' = pre /\ post' = post).
  { clear -Hs Hn Hd Hno. revert pre' Hs Hno.
    induction pre as [|x pre IH]; intros pre' Hs Hno.
    - destruct pre' as [|y pre']; simpl in *.
      + inversion Hs. auto.
      + inversion Hs; subst. exfalso. apply Hno. simpl. now left.
    - destruct pre' as [|y pre']; simpl in *.
      + inversion Hs; subst. inversion Hn as [|? ? Hx _]; subst.
        exfalso. apply Hx. rewrite map_app. simpl.
        apply in_app_iff. right. now left.
      + inversion Hs; subst. inversion Hn as [|? ? _ Hn']; subst.
        destruct (IH Hn' pre' H1) as [-> ->]; [tauto|auto]. }
  destruct Hsplit as [-> ->].
  unfold replace_one. rewrite Hf, Ho, Hrep.
  rewrite no_clash by (rewrite Hr; exact Hno). reflexivity.
Qed.
End RecipeFacts.

(** ** Steps of the process *)

Lemma lift_round_trip p :
  exists w1, drift (world p) w1 /\
             lift round_trip p = (Returns tt, set_world w1 p).
Proof.
  unfold lift, round_trip. destruct (schedule (world p)) as [|i rest] eqn:E.
  - exists (world p). split; [apply drift_refl|reflexivity].
  - exists (interfere i (set_schedule rest (world p))). split; [|reflexivity].
    apply (drift_trans _ (set_schedule rest (world p))); [|apply interfere_drift].
    constructor; simpl; try reflexivity; try lia.
    exists []. now rewrite app_nil_r.
Qed.

Lemma recipe_step {A} (f : P A) p :
  exists w1, drift (world p) w1 /\
             pbind (lift round_trip) (fun _ => f) p = f (set_world w1 p).
Proof.
  destruct (lift_round_trip p) as (w1 & Hd & H).
  exists w1. split; [exact Hd|]. unfold pbind. now rewrite H.
Qed.

Lemma self_logger_warning_eq p :
  self_logger_warning p =
  match _logger (world p) with
  | Some _ => (Returns tt, p)
  | None => (Raises (Err AttributeError), p)
  end.
Proof.
  unfold self_logger_warning, lift, self_logger_debug.
  destruct (_logger (world p)); reflexivity.
Qed.

(** ** [have_recipe] *)

(** Every run of [have_recipe]: what it answers is decided by the number
    of stored documents of the url, and the logger matters when there is
    more than one. *)
Lemma have_recipe_run u p :
  exists w1,
    drift (world p) w1 /\
    have_recipe u p =
    (let n := List.length (Recipe.find_url u (recipe p)) in
     if (n =? 0)%nat then Returns false
     else if (1 <? n)%nat
          then match _logger (world p) with
               | Some _ => Returns true
               | None => Raises (Err AttributeError)
               end
          else Returns true,
     set_world w1 p).
Proof.
  unfold have_recipe, recipe_count_url.
  destruct (recipe_step
              (fun p0 => (Returns (List.length (Recipe.find_url u (recipe p0))), p0))
              p) as (w1 & Hd1 & H1).
  unfold pbind at 1. rewrite H1. clear H1.
  change (recipe (set_world w1 p)) with (recipe p). cbv zeta.
  destruct (List.length (Recipe.find_url u (recipe p)) =? 0)%nat.
  - exists w1. split; [exact Hd1|reflexivity].
  - destruct (recipe_step
                (fun p0 => (Returns (List.length (Recipe.find_url u (recipe p0))), p0))
                (set_world w1 p)) as (w2 & Hd2 & H2).
    unfold pbind at 1. rewrite H2. clear H2.
    change (recipe (set_world w2 (set_world w1 p))) with (recipe p).
    change (set_world w2 (set_world w1 p)) with (set_world w2 p).
    change (world (set_world w1 p)) with w1 in Hd2.
    exists w2. split; [exact (drift_trans _ _ _ Hd1 Hd2)|].
    assert (Hl : _logger w2 = _logger (world p)).
    { rewrite (drift_logger _ _ Hd2). apply (drift_logger _ _ Hd1). }
    destruct (1 <? List.length (Recipe.find_url u (recipe p)))%nat.
    + unfold pbind. rewrite self_logger_warning_eq.
      change (_logger (world (set_world w2 p))) with (_logger w2).
      rewrite Hl. destruct (_logger (world p)); reflexivity.
    + reflexivity.
Qed.

Lemma find_url_at_most_one u coll :
  recipe_indexed coll -> (List.length (Recipe.find_url u coll) <= 1)%nat.
Proof.
  intros [Hn _].
  destruct (Recipe.find_url u coll) as [|d l] eqn:E; [simpl; lia|].
  assert (Hd : In d (Recipe.find_url u coll)) by (rewrite E; now left).
  unfold Recipe.find_url in Hd. apply filter_In in Hd. destruct Hd as [Hd Hu].
  apply RecipeFacts.same_url_true in Hu.
  destruct (RecipeFacts.unique_split u d d coll Hn Hd Hu)
    as (_ & _ & _ & _ & _ & _ & _ & F).
  rewrite F in E. inversion E. simpl. lia.
Qed.

Lemma have_recipe_indexed u p :
  recipe_indexed (recipe p) ->
  exists p',
    have_recipe u p =
      (Returns (existsb (Recipe.same_url u) (recipe p)), p') /\
    recipe p' = recipe p.
Proof.
  intros Hi. destruct (have_recipe_run u p) as (w1 & _ & H). cbv zeta in H.
  exists (set_world w1 p). split; [|reflexivity].
  rewrite H, RecipeFacts.existsb_same_url.
  pose proof (find_url_at_most_one u (recipe p) Hi) as Hle.
  destruct (List.length (Recipe.find_url u (recipe p))) as [|[|n]];
    [reflexivity|reflexivity|lia].
Qed.

(** X14.  With the unique index on [canonical_url] in force, and
    whatever producers do meanwhile, [have_recipe] answers whether a
    recipe of that url is stored, never fails and leaves the recipes as
    they are, with or without a logger: the warning for more than one
    match is out of reach.  Were two recipes of that url stored, a store
    without logger would fail with [AttributeError]. *)
Theorem have_recipe_answers u p :
  (recipe_indexed (recipe p) ->
   exists p',
     have_recipe u p =
       (Returns (existsb (Recipe.same_url u) (recipe p)), p') /\
     recipe p' = recipe p) /\
  ((1 < List.length (Recipe.find_url u (recipe p)))%nat ->
   _logger (world p) = None ->
   fst (have_recipe u p) = Raises (Err AttributeError)).
Proof.
  split; [apply have_recipe_indexed|].
  destruct (have_recipe_run u p) as (w1 & _ & H). cbv zeta in H.
  intros Hn Hl. rewrite H, Hl.
  destruct (List.length (Recipe.find_url u (recipe p))) as [|[|n]];
    [lia|lia|reflexivity].
Qed.

Lemma have_recipe_answers_witness :
  (exists p',
      have_recipe "http://cook.example/soup"%string kitchen =
        (Returns (existsb (Recipe.same_url "http://cook.example/soup"%string)
                          (recipe kitchen)), p') /\
      recipe p' = recipe kitchen) /\
  fst (have_recipe "http://cook.example/soup"%string unindexed_kitchen) =
    Raises (Err AttributeError).
Proof.
  split.
  - apply (proj1 (have_recipe_answers "http://cook.example/soup"%string kitchen)).
    split; distinct.
  - apply (proj2 (have_recipe_answers "http://cook.example/soup"%string
                    unindexed_kitchen)).
    + simpl. lia.
    + reflexivity.
Defined.

(** ** [upsert_recipe] *)

Lemma recipe_replace_one_run u r p :
  exists w1,
    drift (world p) w1 /\
    recipe_replace_one u r p =
    match Recipe.replace_one u r (recipe p) with
    | Some (c, result) => (Returns result, set_recipe c (set_world w1 p))
    | None => (Raises (Err DuplicateKeyError), set_world w1 p)
    end.
Proof.
  unfold recipe_replace_one.
  destruct (recipe_step
              (fun p0 =>
                 match Recipe.replace_one u r (recipe p0) with
                 | Some (c, result) => (Returns result, set_recipe c p0)
                 | None => (Raises (Err DuplicateKeyError), p0)
                 end) p) as (w1 & Hd & H).
  exists w1. split; [exact Hd|]. exact H.
Qed.

(** On a store without logger. *)
Lemma upsert_recipe_no_logger r u p :
  RecipeDoc.canonical_url r = Some u ->
  _logger (world p) = None ->
  exists w1,
    drift (world p) w1 /\
    upsert_recipe r p =
    (Raises (Err AttributeError),
     if existsb (Recipe.same_url u) (recipe p)
     then set_world w1 p
     else set_recipe (recipe p ++ [r]) (set_world w1 p)).
Proof.
  intros Hr Hl. unfold upsert_recipe. rewrite Hr.
  destruct (have_recipe_run u p) as (w1 & Hd1 & H1). cbv zeta in H1.
  unfold pbind at 1. rewrite H1, Hl. clear H1.
  rewrite RecipeFacts.existsb_same_url.
  assert (Hl1 : _logger w1 = None)
    by (rewrite (drift_logger _ _ Hd1); exact Hl).
  destruct (List.length (Recipe.find_url u (recipe p))) as [|n] eqn:En.
  - cbn [Nat.eqb negb]. unfold pbind at 1. unfold pret at 1.
    destruct (recipe_replace_one_run u r (set_world w1 p))
      as (w2 & Hd2 & H2).
    unfold pbind at 1. rewrite H2. clear H2.
    change (recipe (set_world w1 p)) with (recipe p).
    change (world (set_world w1 p)) with w1 in Hd2.
    apply length_zero_iff_nil in En. apply RecipeFacts.find_url_nil in En.
    rewrite (RecipeFacts.replace_one_new u r _ Hr En).
    exists w2. split; [exact (drift_trans _ _ _ Hd1 Hd2)|].
    unfold pbind, self_logger_info, lift, self_logger_debug.
    cbn [world set_recipe set_world].
    rewrite (drift_logger _ _ Hd2), Hl1. reflexivity.
  - cbn [Nat.eqb negb]. exists w1. split; [exact Hd1|].
    destruct (1 <? S n)%nat; [reflexivity|].
    unfold pbind. rewrite self_logger_warning_eq.
    cbn [world set_world]. rewrite Hl1. reflexivity.
Qed.

(** On a store with a logger, under the indices. *)
Lemma upsert_recipe_logged_eq r u l p :
  RecipeDoc.canonical_url r = Some u ->
  _logger (world p) = Some l ->
  recipe_indexed (recipe p) ->
  exists w1,
    drift (world p) w1 /\
    upsert_recipe r p =
    match Recipe.find_url u (recipe p) with
    | [] =>
        (Returns (Recipe.mkResult 0 true),
         set_recipe (recipe p ++ [r]) (set_world w1 p))
    | _ :: _ =>
        (Returns (Recipe.mkResult 1 false),
         set_recipe (Recipe.replace_first u r (recipe p)) (set_world w1 p))
    end.
Proof.
  intros Hr Hl [Hn _]. unfold upsert_recipe. rewrite Hr.
  destruct (have_recipe_run u p) as (w1 & Hd1 & H1). cbv zeta in H1.
  unfold pbind at 1. rewrite H1, Hl. clear H1.
  assert (Hl1 : _logger w1 = Some l)
    by (rewrite (drift_logger _ _ Hd1); exact Hl).
  destruct (recipe_replace_one_run u r (set_world w1 p)) as (w2 & Hd2 & H2).
  change (recipe (set_world w1 p)) with (recipe p) in H2.
  change (world (set_world w1 p)) with w1 in Hd2.
  change (set_world w2 (set_world w1 p)) with (set_world w2 p) in H2.
  assert (Hl2 : _logger w2 = Some l)
    by (rewrite (drift_logger _ _ Hd2); exact Hl1).
  exists w2. split; [exact (drift_trans _ _ _ Hd1 Hd2)|].
  destruct (Recipe.find_url u (recipe p)) as [|d rest] eqn:E.
  - apply RecipeFacts.find_url_nil in E.
    cbn [List.length Nat.eqb]. unfold pbind at 1. unfold pret at 1.
    unfold pbind at 1. rewrite H2.
    rewrite (RecipeFacts.replace_one_new u r _ Hr E).
    unfold pbind, self_logger_info, lift, self_logger_debug.
    cbn [world set_recipe set_world]. rewrite Hl2. reflexivity.
  - assert (Hd : In d (Recipe.find_url u (recipe p))) by (rewrite E; now left).
    unfold Recipe.find_url in Hd. apply filter_In in Hd.
    destruct Hd as [Hd Hu]. apply RecipeFacts.same_url_true in Hu.
    destruct (RecipeFacts.unique_split u r d (recipe p) Hn Hd Hu)
      as (pre & post & Hs & _ & _ & Hrep & _ & F).
    rewrite F in E. inversion E; subst rest.
    cbn [List.length Nat.eqb Nat.ltb Nat.leb].
    unfold pbind at 1. unfold pret at 1.
    unfold pbind at 1. rewrite self_logger_warning_eq.
    cbn [world set_world]. rewrite Hl1.
    unfold pbind at 1. rewrite H2. rewrite Hrep.
    rewrite Hs in Hn |- *.
    rewrite (RecipeFacts.replace_one_known u r d pre post Hr Hu Hn).
    unfold pbind, self_logger_info, lift, self_logger_debug.
    cbn [world set_recipe set_world]. rewrite Hl2. reflexivity.
Qed.

Lemma upsert_recipe_logged r u l p :
  RecipeDoc.canonical_url r = Some u ->
  _logger (world p) = Some l ->
  recipe_indexed (recipe p) ->
  exists w1,
    drift (world p) w1 /\
    ((~ In (Some u) (map RecipeDoc.canonical_url (recipe p)) /\
      upsert_recipe r p =
      (Returns (Recipe.mkResult 0 true),
       set_recipe (recipe p ++ [r]) (set_world w1 p))) \/
     (exists pre d post,
         recipe p = pre ++ d :: post /\
         RecipeDoc.canonical_url d = Some u /\
         upsert_recipe r p =
         (Returns (Recipe.mkResult 1 false),
          set_recipe (pre ++ r :: post) (set_world w1 p)))).
Proof.
  intros Hr Hl Hi.
  destruct (upsert_recipe_logged_eq r u l p Hr Hl Hi) as (w1 & Hd & H).
  exists w1. split; [exact Hd|]. destruct Hi as [Hn _].
  destruct (Recipe.find_url u (recipe p)) as [|d rest] eqn:E.
  - left. apply RecipeFacts.find_url_nil in E. auto.
  - right.
    assert (Hd' : In d (Recipe.find_url u (recipe p)))
      by (rewrite E; now left).
    unfold Recipe.find_url in Hd'. apply filter_In in Hd'.
    destruct Hd' as [Hd' Hu]. apply RecipeFacts.same_url_true in Hu.
    destruct (RecipeFacts.unique_split u r d (recipe p) Hn Hd' Hu)
      as (pre & post & Hs & _ & _ & Hrep & _ & _).
    exists pre, d, post. rewrite <- Hrep. auto.
Qed.

(** X15.  On a store whose [setLogger] was never called,
    [upsert_recipe] never returns, whatever producers do meanwhile: a
    recipe without ["canonical_url"] fails with [KeyError] before
    anything is done, any other one with [AttributeError].  A recipe whose
    url is stored is left as it was, the call failing at the warning
    before the write; a recipe whose url is new has been written when the
    call fails, at [self._logger.info] after the write. *)
Theorem upsert_recipe_without_logger r p :
  _logger (world p) = None ->
  match RecipeDoc.canonical_url r with
  | None => upsert_recipe r p = (Raises KeyError, p)
  | Some u =>
      exists p',
        upsert_recipe r p = (Raises (Err AttributeError), p') /\
        recipe p' =
          if existsb (Recipe.same_url u) (recipe p) then recipe p
          else recipe p ++ [r]
  end.
Proof.
  intros Hl. destruct (RecipeDoc.canonical_url r) as [u|] eqn:Hr.
  - destruct (upsert_recipe_no_logger r u p Hr Hl) as (w1 & _ & H).
    eexists. split; [exact H|].
    destruct (existsb (Recipe.same_url u) (recipe p)); reflexivity.
  - unfold upsert_recipe. rewrite Hr. reflexivity.
Qed.

Lemma upsert_recipe_without_logger_witness :
  (exists p',
      upsert_recipe soup2 kitchen = (Raises (Err AttributeError), p') /\
      recipe p' = recipe kitchen) /\
  (exists p',
      upsert_recipe cake (boot 0) = (Raises (Err AttributeError), p') /\
      recipe p' = [cake]) /\
  upsert_recipe untitled kitchen = (Raises KeyError, kitchen).
Proof.
  split; [|split].
  - apply (upsert_recipe_without_logger soup2 kitchen). reflexivity.
  - apply (upsert_recipe_without_logger cake (boot 0)). reflexivity.
  - apply (upsert_recipe_without_logger untitled kitchen). reflexivity.
Defined.

Lemma find_url_middle u r pre post :
  RecipeDoc.canonical_url r = Some u ->
  ~ In (Some u) (map RecipeDoc.canonical_url (pre ++ post)) ->
  Recipe.find_url u (pre ++ r :: post) = [r].
Proof.
  intros Hr Hno. rewrite map_app in Hno.
  unfold Recipe.find_url. rewrite filter_app. simpl.
  assert (E : Recipe.same_url u r = true)
    by now apply RecipeFacts.same_url_true.
  rewrite E.
  assert (Hpre : Recipe.find_url u pre = []).
  { apply RecipeFacts.find_url_nil. intros H. apply Hno.
    apply in_app_iff. now left. }
  assert (Hpost : Recipe.find_url u post = []).
  { apply RecipeFacts.find_url_nil. intros H. apply Hno.
    apply in_app_iff. now right. }
  unfold Recipe.find_url in Hpre, Hpost. now rewrite Hpre, Hpost.
Qed.

Lemma find_url_other u v r :
  RecipeDoc.canonical_url r = Some u -> v <> u -> Recipe.same_url v r = false.
Proof.
  intros Hr Hv. apply RecipeFacts.same_url_false. rewrite Hr. congruence.
Qed.

(** The collection after an upsert of [r]: [r] is the one document of
    its url, the other urls have the documents they had, and the indices
    hold. *)
Lemma upserted_collection r u coll coll' :
  RecipeDoc.canonical_url r = Some u ->
  recipe_indexed coll ->
  (~ In (Some u) (map RecipeDoc.canonical_url coll) /\ coll' = coll ++ [r]) \/
  (exists pre d post,
      coll = pre ++ d :: post /\ RecipeDoc.canonical_url d = Some u /\
      coll' = pre ++ r :: post) ->
  Recipe.find_url u coll' = [r] /\
  (forall v, v <> u -> Recipe.find_url v coll' = Recipe.find_url v coll) /\
  recipe_indexed coll'.
Proof.
  intros Hr [Hn _] [[Hnew ->]|(pre & d & post & -> & Hu & ->)].
  - split; [|split].
    + unfold Recipe.find_url. rewrite filter_app. simpl.
      apply RecipeFacts.find_url_nil in Hnew. unfold Recipe.find_url in Hnew.
      rewrite Hnew.
      assert (E : Recipe.same_url u r = true)
        by now apply RecipeFacts.same_url_true.
      now rewrite E.
    + intros v Hv. unfold Recipe.find_url. rewrite filter_app. simpl.
      rewrite (find_url_other u v r Hr Hv). apply app_nil_r.
    + apply RecipeFacts.indexed_of_urls. apply NoDup_map_snoc; [exact Hn|].
      now rewrite Hr.
  - assert (Hno : ~ In (Some u) (map RecipeDoc.canonical_url (pre ++ post))).
    { rewrite map_app in Hn. simpl in Hn. apply NoDup_remove_2 in Hn.
      rewrite map_app. now rewrite Hu in Hn. }
    split; [|split].
    + now apply find_url_middle.
    + intros v Hv. unfold Recipe.find_url. rewrite !filter_app. simpl.
      rewrite (find_url_other u v r Hr Hv), (find_url_other u v d Hu Hv).
      reflexivity.
    + apply RecipeFacts.indexed_of_urls.
      rewrite map_app in *. simpl in *. now rewrite Hr, <- Hu.
Qed.

(** What [upsert_recipe] does on a store with a logger. *)
Lemma upsert_recipe_shape r u l p :
  RecipeDoc.canonical_url r = Some u ->
  _logger (world p) = Some l ->
  recipe_indexed (recipe p) ->
  exists result p',
    upsert_recipe r p = (Returns result, p') /\
    _logger (world p') = Some l /\
    ((~ In (Some u) (map RecipeDoc.canonical_url (recipe p)) /\
      recipe p' = recipe p ++ [r] /\
      result = Recipe.mkResult 0 true) \/
     (exists pre d post,
         recipe p = pre ++ d :: post /\
         RecipeDoc.canonical_url d = Some u /\
         recipe p' = pre ++ r :: post /\
         result = Recipe.mkResult 1 false)).
Proof.
  intros Hr Hl Hi.
  destruct (upsert_recipe_logged r u l p Hr Hl Hi)
    as (w1 & Hd & [[Hnew H]|(pre & d & post & Hs & Hu & H)]).
  - exists (Recipe.mkResult 0 true). eexists. split; [exact H|].
    cbn [world recipe set_recipe set_world].
    split; [rewrite (drift_logger _ _ Hd); exact Hl|]. left. auto.
  - exists (Recipe.mkResult 1 false). eexists. split; [exact H|].
    cbn [world recipe set_recipe set_world].
    split; [rewrite (drift_logger _ _ Hd); exact Hl|].
    right. exists pre, d, post. auto.
Qed.

(** X16.  On a store with a logger and under the unique indices of the
    recipe collection, whatever producers do meanwhile, [upsert_recipe]
    of a recipe that has a ["canonical_url"] returns and never fails on
    an index: a recipe whose url is new is added at the end
    ([matched_count] 0, an upsert), a recipe whose url is stored
    replaces the stored document where it stands ([matched_count] 1).
    Afterwards the recipe is the one document of its url, the documents
    of every other url are as before, the indices still hold, and
    [have_recipe] answers [True]. *)
Theorem upsert_recipe_stores r u l p :
  RecipeDoc.canonical_url r = Some u ->
  _logger (world p) = Some l ->
  recipe_indexed (recipe p) ->
  exists result p',
    upsert_recipe r p = (Returns result, p') /\
    ((~ In (Some u) (map RecipeDoc.canonical_url (recipe p)) /\
      recipe p' = recipe p ++ [r] /\
      result = Recipe.mkResult 0 true) \/
     (exists pre d post,
         recipe p = pre ++ d :: post /\
         RecipeDoc.canonical_url d = Some u /\
         recipe p' = pre ++ r :: post /\
         result = Recipe.mkResult 1 false)) /\
    Recipe.find_url u (recipe p') = [r] /\
    (forall v, v <> u ->
               Recipe.find_url v (recipe p') = Recipe.find_url v (recipe p)) /\
    recipe_indexed (recipe p') /\
    fst (have_recipe u p') = Returns true.
Proof.
  intros Hr Hl Hi.
  destruct (upsert_recipe_shape r u l p Hr Hl Hi)
    as (result & p' & H & _ & Hshape).
  exists result, p'. split; [exact H|]. split; [exact Hshape|].
  destruct (upserted_collection r u (recipe p) (recipe p') Hr Hi)
    as (F & Ho & I).
  { destruct Hshape as [(Hn & Hp & _)|(pre & d & post & Hs & Hu & Hp & _)];
      [left; auto|right; exists pre, d, post; auto]. }
  split; [exact F|]. split; [exact Ho|]. split; [exact I|].
  destruct (have_recipe_indexed u p' I) as (q & -> & _).
  cbn [fst]. rewrite RecipeFacts.existsb_same_url, F. reflexivity.
Qed.

Lemma upsert_recipe_stores_witness :
  exists result p',
    upsert_recipe soup2 kitchen_with_logger = (Returns result, p') /\
    ((~ In (Some "http://cook.example/soup"%string)
          (map RecipeDoc.canonical_url (recipe kitchen_with_logger)) /\
      recipe p' = recipe kitchen_with_logger ++ [soup2] /\
      result = Recipe.mkResult 0 true) \/
     (exists pre d post,
         recipe kitchen_with_logger = pre ++ d :: post /\
         RecipeDoc.canonical_url d = Some "http://cook.example/soup"%string /\
         recipe p' = pre ++ soup2 :: post /\
         result = Recipe.mkResult 1 false)) /\
    Recipe.find_url "http://cook.example/soup"%string (recipe p') = [soup2] /\
    (forall v, v <> "http://cook.example/soup"%string ->
               Recipe.find_url v (recipe p') =
               Recipe.find_url v (recipe kitchen_with_logger)) /\
    recipe_indexed (recipe p') /\
    fst (have_recipe "http://cook.example/soup"%string p') = Returns true.
Proof.
  apply (upsert_recipe_stores soup2 "http://cook.example/soup"%string
           (LoggerHandle "crawler"%string) kitchen_with_logger).
  - reflexivity.
  - reflexivity.
  - split; distinct.
Defined.

(** X17.  Upserting the same recipe a second time changes nothing: on a
    store with a logger and under the indices, whatever producers do
    meanwhile, the second [upsert_recipe] finds the document
    ([matched_count] 1, no upsert) and leaves the collection as the
    first call left it. *)
Theorem upsert_recipe_twice r u l p result p1 :
  RecipeDoc.canonical_url r = Some u ->
  _logger (world p) = Some l ->
  recipe_indexed (recipe p) ->
  upsert_recipe r p = (Returns result, p1) ->
  exists p2,
    upsert_recipe r p1 = (Returns (Recipe.mkResult 1 false), p2) /\
    recipe p2 = recipe p1.
Proof.
  intros Hr Hl Hi H.
  destruct (upsert_recipe_shape r u l p Hr Hl Hi)
    as (res & p1' & H' & Hl1 & Hshape).
  rewrite H in H'. inversion H'; subst res p1'. clear H'.
  destruct (upserted_collection r u (recipe p) (recipe p1) Hr Hi)
    as (F & _ & I).
  { destruct Hshape as [(Hn & Hp & _)|(pre & d & post & Hs & Hu & Hp & _)];
      [left; auto|right; exists pre, d, post; auto]. }
  destruct (upsert_recipe_shape r u l p1 Hr Hl1 I)
    as (res2 & p2 & H2 & _ & [(Hnew & _)|(pre & d & post & Hs & Hu & Hp & ->)]).
  - exfalso. apply RecipeFacts.find_url_nil in Hnew. congruence.
  - exists p2. split; [exact H2|].
    rewrite Hp, Hs. do 2 f_equal.
    assert (Hd : In d (Recipe.find_url u (recipe p1))).
    { unfold Recipe.find_url. apply filter_In. split.
      - rewrite Hs. apply in_elt.
      - now apply RecipeFacts.same_url_true. }
    rewrite F in Hd. destruct Hd as [Hd|[]]. exact Hd.
Qed.

Lemma upsert_recipe_twice_witness :
  exists p2,
    upsert_recipe cake (snd (upsert_recipe cake pantry)) =
      (Returns (Recipe.mkResult 1 false), p2) /\
    recipe p2 = recipe (snd (upsert_recipe cake pantry)).
Proof.
  apply (upsert_recipe_twice cake "http://cook.example/cake"%string
           (LoggerHandle "crawler"%string) pantry
           (Recipe.mkResult 0 true)).
  - reflexivity.
  - reflexivity.
  - split; constructor.
  - reflexivity.
Defined.

(** * The singleton *)

Lemma round_trip_alone w :
  exists w1, drift w w1 /\ round_trip w = (Return tt, w1).
Proof.
  unfold round_trip. destruct (schedule w) as [|i rest] eqn:E.
  - exists w. split; [apply drift_refl|reflexivity].
  - exists (interfere i (set_schedule rest w)). split; [|reflexivity].
    apply (drift_trans _ (set_schedule rest w)); [|apply interfere_drift].
    constructor; simpl; try reflexivity; try lia.
    exists []. now rewrite app_nil_r.
Qed.

Lemma ensure_existence_run w :
  exists w1, drift w w1 /\ _ensure_existence w = (Return tt, w1).
Proof.
  unfold _ensure_existence.
  destruct (round_trip_alone w) as (w1 & D1 & H1).
  destruct (round_trip_alone w1) as (w2 & D2 & H2).
  destruct (round_trip_alone w2) as (w3 & D3 & H3).
  destruct (round_trip_alone w3) as (w4 & D4 & H4).
  destruct (round_trip_alone w4) as (w5 & D5 & H5).
  destruct (round_trip_alone w5) as (w6 & D6 & H6).
  exists w6. split.
  - apply (drift_trans _ _ _ D1), (drift_trans _ _ _ D2),
      (drift_trans _ _ _ D3), (drift_trans _ _ _ D4),
      (drift_trans _ _ _ D5), D6.
  - unfold bind. now rewrite H1, H2, H3, H4, H5, H6.
Qed.

Lemma init_run p :
  exists w1,
    drift (world p) w1 /\
    __init__ p =
    (Returns (List.length (heap p)),
     set_heap (heap p ++ [None]) (set_world w1 p)).
Proof.
  destruct (ensure_existence_run (world p)) as (w1 & Hd & H).
  exists w1. split; [exact Hd|].
  unfold __init__, pbind, lift. now rewrite H.
Qed.

(** The object that the first thread through the lock makes. *)
Lemma rival_first p :
  _instance p = None -> mutex (world p) = false ->
  rival p =
  set_instance (Some (List.length (heap p))) (set_heap (heap p ++ [None]) p).
Proof. intros Hi Hm. unfold rival. now rewrite Hm, Hi. Qed.

Lemma rivals_make_one n p :
  _instance p = None -> mutex (world p) = false ->
  Nat.iter (S n) rival p = rival p.
Proof.
  intros Hi Hm. induction n as [|n IH]; [reflexivity|].
  change (Nat.iter (S (S n)) rival p) with (rival (Nat.iter (S n) rival p)).
  rewrite IH, (rival_first p Hi Hm). unfold rival at 1.
  cbn [world set_instance set_heap _instance]. now rewrite Hm.
Qed.

(** The part of [instance] that is under the lock, for a thread that
    finds the instance made already, and for one that does not. *)
Lemma locked_section_made (cls : P nat) p obj :
  _instance p = Some obj -> mutex (world p) = false ->
  exists w1,
    mutex w1 = false /\
    pbind mutex_acquire_blocking
      (fun _ =>
         try_finally
           (pbind get_instance
              (fun inst =>
                 match inst with
                 | None => pbind cls (fun obj => put_instance obj)
                 | Some _ => pret tt
                 end))
           (lift mutex_release)) p
    = (Returns tt, set_world w1 p).
Proof.
  intros Hi Hm. eexists. split; [|].
  2:{ unfold pbind at 1. unfold mutex_acquire_blocking. rewrite Hm.
      unfold try_finally, pbind, get_instance.
      cbn [_instance set_world]. rewrite Hi. unfold pret.
      unfold lift, mutex_release. cbn [world set_world mutex emit set_mutex].
      reflexivity. }
  reflexivity.
Qed.

Lemma locked_section_first p :
  _instance p = None -> mutex (world p) = false ->
  exists w1,
    mutex w1 = false /\
    pbind mutex_acquire_blocking
      (fun _ =>
         try_finally
           (pbind get_instance
              (fun inst =>
                 match inst with
                 | None => pbind __init__ (fun obj => put_instance obj)
                 | Some _ => pret tt
                 end))
           (lift mutex_release)) p
    = (Returns tt,
       set_instance (Some (List.length (heap p)))
         (set_heap (heap p ++ [None]) (set_world w1 p))).
Proof.
  intros Hi Hm.
  set (p1 := set_world (emit (EvAcquire true) (set_mutex true (world p))) p).
  destruct (init_run p1) as (w1 & Hd & H).
  exists (emit EvRelease (set_mutex false w1)). split; [reflexivity|].
  unfold pbind at 1. unfold mutex_acquire_blocking. rewrite Hm. fold p1.
  unfold try_finally. unfold pbind at 1. unfold get_instance.
  change (_instance p1) with (_instance p). rewrite Hi.
  unfold pbind at 1. rewrite H. unfold put_instance.
  unfold lift, mutex_release. cbn [world set_world set_heap set_instance].
  rewrite (drift_mutex _ _ Hd). cbn [mutex world p1 set_world emit set_mutex].
  reflexivity.
Qed.

Lemma instance_first p :
  _instance p = None -> mutex (world p) = false ->
  exists p',
    instance p = (Returns (Some (List.length (heap p))), p') /\
    _instance p' = Some (List.length (heap p)) /\
    heap p' = heap p ++ [None] /\
    mutex (world p') = false /\
    recipe p' = recipe p.
Proof.
  intros Hi Hm. unfold instance, instance_of.
  unfold pbind at 1. unfold get_instance at 1. rewrite Hi.
  unfold pbind at 1. unfold pbind at 1. unfold other_threads at 1.
  destruct (rivals p) as [|n] eqn:Hr.
  - change (Nat.iter 0 rival p) with p.
    destruct (locked_section_first (set_rivals 0 p) Hi Hm)
      as (w1 & Hm1 & H).
    rewrite H. eexists. split; [reflexivity|].
    cbn. auto.
  - rewrite (rivals_make_one n p Hi Hm), (rival_first p Hi Hm).
    match goal with
    | |- context [pbind mutex_acquire_blocking _ ?q] =>
        destruct (locked_section_made __init__ q (List.length (heap p))
                    eq_refl Hm) as (w1 & Hm1 & H)
    end.
    rewrite H. eexists. split; [reflexivity|].
    cbn. auto.
Qed.

Lemma instance_again q obj :
  _instance q = Some obj -> instance q = (Returns (Some obj), q).
Proof.
  intros Hi. unfold instance, instance_of, pbind, get_instance.
  rewrite Hi. cbn. now rewrite Hi.
Qed.

(** X18.  Accessed when no instance exists and the lock is free,
    [RecipeStore.instance] answers a new store object, the only one that
    is made however many other threads go through [instance] at the same
    time and whatever producers do meanwhile: one object is added, by
    this call or by the thread that got to the lock first, it has no
    logger, [_instance] refers to it, and the lock is free again.  Once
    [_instance] is set, [instance] answers that object and changes
    nothing; it does not even go for the lock. *)
Theorem instance_constructs_once :
  (forall p,
      _instance p = None -> mutex (world p) = false ->
      exists p',
        instance p = (Returns (Some (List.length (heap p))), p') /\
        _instance p' = Some (List.length (heap p)) /\
        heap p' = heap p ++ [None] /\
        mutex (world p') = false /\
        recipe p' = recipe p) /\
  (forall q obj,
      _instance q = Some obj -> instance q = (Returns (Some obj), q)).
Proof.
  split; [exact instance_first|].
  intros q obj Hi. unfold instance, instance_of.
  unfold pbind at 1. unfold get_instance at 1. rewrite Hi.
  unfold pbind, pret, get_instance. now rewrite Hi.
Qed.

Lemma instance_constructs_once_witness :
  (exists p',
      instance crowded_boot =
        (Returns (Some (List.length (heap crowded_boot))), p') /\
      _instance p' = Some (List.length (heap crowded_boot)) /\
      heap p' = heap crowded_boot ++ [None] /\
      mutex (world p') = false /\
      recipe p' = recipe crowded_boot) /\
  instance (snd (instance (boot 0))) =
    (Returns (Some 0%nat), snd (instance (boot 0))).
Proof.
  split.
  - apply (proj1 instance_constructs_once crowded_boot); reflexivity.
  - apply (proj2 instance_constructs_once (snd (instance (boot 0))) 0%nat).
    reflexivity.
Defined.

(** X19.  The lock is given back when the constructor fails.  For a
    class whose constructor raises [e] when [instance] runs it under the
    lock (no instance exists, the lock was free, no other thread is on
    its way), [instance] lets [e] through to its caller, having released
    the lock in its [finally] clause; [_instance] is as the constructor
    left it, so that the next access tries again. *)
Theorem instance_failure_releases_lock (cls : P nat) p e q :
  _instance p = None -> mutex (world p) = false -> rivals p = 0%nat ->
  cls (at_the_lock p) = (Raises e, q) ->
  mutex (world q) = true ->
  exists p',
    instance_of cls p = (Raises e, p') /\
    mutex (world p') = false /\
    _instance p' = _instance q /\
    heap p' = heap q.
Proof.
  intros Hi Hm Hr Hc Hq.
  exists (set_world (emit EvRelease (set_mutex false (world q))) q).
  split; [|repeat split].
  unfold instance_of.
  unfold pbind at 1. unfold get_instance at 1. rewrite Hi.
  unfold at_the_lock in Hc.
  unfold pbind at 1 in Hc. unfold other_threads in Hc. rewrite Hr in Hc.
  change (Nat.iter 0 rival p) with p in Hc.
  unfold mutex_acquire_blocking in Hc.
  cbn [world set_rivals] in Hc. rewrite Hm in Hc. cbn [snd] in Hc.
  unfold pbind at 1. unfold pbind at 1. unfold other_threads at 1.
  rewrite Hr. change (Nat.iter 0 rival p) with p.
  unfold pbind at 1. unfold mutex_acquire_blocking.
  cbn [world set_rivals]. rewrite Hm.
  unfold try_finally. unfold pbind at 1. unfold get_instance.
  cbn [_instance set_world set_rivals]. rewrite Hi.
  unfold pbind at 1. rewrite Hc.
  unfold lift, mutex_release. rewrite Hq. reflexivity.
Qed.

Lemma instance_failure_releases_lock_witness :
  exists p',
    instance_of failing_constructor (boot 0) =
      (Raises (Err RuntimeError), p') /\
    mutex (world p') = false /\
    _instance p' = _instance (at_the_lock (boot 0)) /\
    heap p' = heap (at_the_lock (boot 0)).
Proof.
  apply (instance_failure_releases_lock failing_constructor (boot 0)
           (Err RuntimeError) (at_the_lock (boot 0)));
    reflexivity.
Defined.

(** ** A method run on the instance *)

Lemma nth_new_object (h : list (option Logger)) o :
  nth (List.length h) (h ++ [o]) None = o.
Proof. induction h as [|x h IH]; [reflexivity|exact IH]. Qed.

Lemma store_logger_new (h : list (option Logger)) o :
  store_logger (List.length h) o (h ++ [None]) = h ++ [o].
Proof. induction h as [|x h IH]; simpl; [reflexivity|now rewrite IH]. Qed.

(** X20.  The store object that [RecipeStore.instance] makes has no
    logger: on a process without instance, with the lock free,
    [RecipeStore.instance.upsert_recipe(recipe)] fails with
    [AttributeError] for every recipe that has a ["canonical_url"].
    After [RecipeStore.instance.setLogger(logger)] the same call returns:
    the second access to [instance] answers the object on which the
    logger was set. *)
Theorem new_instance_needs_setLogger p r u l :
  _instance p = None -> mutex (world p) = false ->
  RecipeDoc.canonical_url r = Some u ->
  recipe_indexed (recipe p) ->
  (exists p',
      on_instance (fun self => call self (upsert_recipe r)) p =
      (Raises (Err AttributeError), p')) /\
  (exists result p',
      pbind (on_instance (fun self => setLogger_on self l))
            (fun _ => on_instance (fun self => call self (upsert_recipe r))) p =
      (Returns result, p')).
Proof.
  intros Hi Hm Hr Hx.
  destruct (instance_first p Hi Hm)
    as (p1 & H1 & Hi1 & Hh1 & Hm1 & Hr1).
  split.
  - unfold on_instance. unfold pbind at 1. rewrite H1. unfold call.
    rewrite Hh1, nth_new_object.
    match goal with |- context [upsert_recipe r ?q] =>
      destruct (upsert_recipe_no_logger r u q Hr eq_refl) as (w1 & _ & ->) end.
    eexists. reflexivity.
  - unfold pbind at 1. unfold on_instance at 1. unfold pbind at 1.
    rewrite H1. unfold setLogger_on at 1.
    rewrite Hh1, store_logger_new.
    set (p2 := set_heap (heap p ++ [Some l]) p1).
    assert (Hi2 : _instance p2 = Some (List.length (heap p))) by exact Hi1.
    unfold on_instance. unfold pbind at 1.
    rewrite (instance_again p2 _ Hi2).
    unfold call. change (heap p2) with (heap p ++ [Some l]).
    rewrite nth_new_object.
    match goal with |- context [upsert_recipe r ?q] =>
      destruct (upsert_recipe_logged_eq r u l q Hr eq_refl) as (w1 & _ & ->) end.
    + change (recipe_indexed (recipe p1)). now rewrite Hr1.
    + destruct (Recipe.find_url u _); eexists; eexists; reflexivity.
Qed.

Lemma new_instance_needs_setLogger_witness :
  (exists p',
      on_instance (fun self => call self (upsert_recipe cake)) (boot 0) =
      (Raises (Err AttributeError), p')) /\
  (exists result p',
      pbind (on_instance
               (fun self => setLogger_on self (LoggerHandle "crawler"%string)))
            (fun _ => on_instance (fun self => call self (upsert_recipe cake)))
            (boot 0) =
      (Returns result, p')).
Proof.
  apply (new_instance_needs_setLogger (boot 0) cake
           "http://cook.example/cake"%string (LoggerHandle "crawler"%string)).
  - reflexivity.
  - reflexivity.
  - reflexivity.
  - split; constructor.
Defined.
